(** * Reference counting of actors: [calico/felix/refcount.py]

    A shallow embedding of [ReferenceManager], [RefCountedActor] and
    [RefHelper], followed by the properties of the life-cycle protocol.

    Python objects are held in a store indexed by references, so that the
    identity tests of the source ([is], membership of an object in a set)
    are comparisons of references.  A handler of an actor is a function of
    the actor's state that either raises or returns a new state together
    with the messages it sent, in order; the state a handler leaves behind
    when it raises is not kept. *)

From stdpp Require Import base option list sets gmap strings.
From Stdlib Require Import ZArith Lia.

Local Open Scope Z_scope.

(** ** Values shared by the manager and its clients *)

(** [object_id]: an opaque hashable value. *)
Abbreviation ObjectId := string.
(** A reference to a Python object (its identity). *)
Abbreviation ActorRef := nat.
(** A callable handed to [get_and_incref].  The manager keeps callbacks in a
    Python [set], which compares them by hash and [==]: callables that are
    equal (two bound methods of one object, say) are the same [Callback]
    here, and a set holds such a callback once. *)
Abbreviation Callback := nat.

(** The four module constants [CREATED], [STARTING], [LIVE], [STOPPING]. *)
Inductive RefMgmtState : Set :=
| CREATED
| STARTING
| LIVE
| STOPPING.

#[global] Instance RefMgmtState_eq_dec : EqDecision RefMgmtState.
Proof. solve_decision. Defined.

(** Fields of [RefCountedActor] that the manager owns.  [_manager] is a weak
    proxy of the only manager there is and is left implicit. *)
Record RefCountedActor : Set := mkActor {
  _id : option ObjectId;
  ref_mgmt_state : RefMgmtState;
  ref_count : Z
}.

(** [RefCountedActor.__init__]. *)
Definition new_actor : RefCountedActor :=
  {| _id := None; ref_mgmt_state := CREATED; ref_count := 0 |}.

Definition with_id (i : ObjectId) (a : RefCountedActor) : RefCountedActor :=
  {| _id := Some i; ref_mgmt_state := ref_mgmt_state a; ref_count := ref_count a |}.
Definition with_state (st : RefMgmtState) (a : RefCountedActor) : RefCountedActor :=
  {| _id := _id a; ref_mgmt_state := st; ref_count := ref_count a |}.
Definition with_count (n : Z) (a : RefCountedActor) : RefCountedActor :=
  {| _id := _id a; ref_mgmt_state := ref_mgmt_state a; ref_count := n |}.

(** ** Handlers: state, sent messages, exceptions *)

Inductive Exn : Set :=
| AssertionError
| AttributeError
| KeyError.

Inductive result (A : Type) : Type :=
| Ok (a : A)
| Raise (e : Exn).
Arguments Ok {A} a.
Arguments Raise {A} e.

Section handler.
Context {St Msg : Type}.

Definition handler (A : Type) : Type := St → result (A * St * list Msg).

Definition ret {A} (a : A) : handler A := λ s, Ok (a, s, []).

Definition bind {A B} (m : handler A) (k : A → handler B) : handler B :=
  λ s, match m s with
       | Raise e => Raise e
       | Ok (a, s1, out1) =>
           match k a s1 with
           | Raise e => Raise e
           | Ok (b, s2, out2) => Ok (b, s2, out1 ++ out2)
           end
       end.

Definition gets {A} (f : St → A) : handler A := λ s, Ok (f s, s, []).
Definition modify (f : St → St) : handler unit := λ s, Ok (tt, f s, []).
Definition send (m : Msg) : handler unit := λ s, Ok (tt, s, [m]).
Definition raise {A} (e : Exn) : handler A := λ _, Raise e.

(** The [assert] statement. *)
Definition assert (b : bool) : handler unit :=
  if b then ret tt else raise AssertionError.

(** [for x in xs: body x]. *)
Fixpoint for_each {A} (xs : list A) (body : A → handler unit) : handler unit :=
  match xs with
  | [] => ret tt
  | x :: xs' => bind (body x) (λ _, for_each xs' body)
  end.
End handler.

Declare Scope handler_scope.
Delimit Scope handler_scope with handler.
Notation "x ←' m ; k" := (bind m (λ x, k))
  (at level 100, m at next level, right associativity, only parsing) : handler_scope.
Notation "m ;;' k" := (bind m (λ _, k))
  (at level 100, right associativity, only parsing) : handler_scope.

(** ** Python containers *)

(** [d[k]] on a [collections.defaultdict(set)]: a missing key is inserted with
    the empty set before it is returned. *)
Definition defaultdict_getitem {V} `{Empty V} (d : gmap ObjectId V) (k : ObjectId)
  : V * gmap ObjectId V :=
  match d !! k with
  | Some v => (v, d)
  | None => (∅, <[k := ∅]> d)
  end.

(** [d[k].add(x)] and [d[k].discard(x)] on a [defaultdict(set)]. *)
Definition defaultdict_add `{Countable A} (d : gmap ObjectId (gset A)) (k : ObjectId) (x : A)
  : gmap ObjectId (gset A) :=
  let '(v, d1) := defaultdict_getitem d k in <[k := v ∪ {[x]}]> d1.

Definition defaultdict_discard `{Countable A} (d : gmap ObjectId (gset A)) (k : ObjectId) (x : A)
  : gmap ObjectId (gset A) :=
  let '(v, d1) := defaultdict_getitem d k in <[k := v ∖ {[x]}]> d1.

(** ** [class ReferenceManager(Actor)] *)

Module Manager.

(** What a handler of the manager does to the outside, in program order:
    calls of the two hooks that subclasses override, messages to the
    managed actors, and greenlets spawned for referrers' callbacks. *)
Inductive Msg : Set :=
| Create (object_id : ObjectId) (obj : ActorRef)
    (* [self._create(object_id)] returned [obj] *)
| Start (obj : ActorRef)
    (* [obj.start()] *)
| OnObjectStarted (obj_id : ObjectId) (obj : ActorRef)
    (* [self._on_object_started(obj_id, obj)] *)
| OnUnreferenced (obj : ActorRef)
    (* [obj.on_unreferenced(async=True)] *)
| Spawn (cb : Callback) (object_id : ObjectId) (obj : ActorRef).
    (* [gevent.spawn(cb, object_id, obj)] *)

#[global] Instance Msg_eq_dec : EqDecision Msg.
Proof. solve_decision. Defined.

(** The manager's three dictionaries, and the store of the actors it has
    created ([heap]): an actor dropped from the dictionaries stays in the
    store, as it does in Python while a message in flight refers to it. *)
Record ReferenceManager : Type := mkManager {
  heap : gmap ActorRef RefCountedActor;
  objects_by_id : gmap ObjectId ActorRef;
  stopping_objects_by_id : gmap ObjectId (gset ActorRef);
  pending_ref_callbacks : gmap ObjectId (gset Callback)
}.

(** [ReferenceManager.__init__]. *)
Definition init : ReferenceManager :=
  {| heap := ∅; objects_by_id := ∅;
     stopping_objects_by_id := ∅; pending_ref_callbacks := ∅ |}.

Definition set_heap (f : gmap ActorRef RefCountedActor → gmap ActorRef RefCountedActor)
    (s : ReferenceManager) : ReferenceManager :=
  {| heap := f (heap s); objects_by_id := objects_by_id s;
     stopping_objects_by_id := stopping_objects_by_id s;
     pending_ref_callbacks := pending_ref_callbacks s |}.
Definition set_objects_by_id (f : gmap ObjectId ActorRef → gmap ObjectId ActorRef)
    (s : ReferenceManager) : ReferenceManager :=
  {| heap := heap s; objects_by_id := f (objects_by_id s);
     stopping_objects_by_id := stopping_objects_by_id s;
     pending_ref_callbacks := pending_ref_callbacks s |}.
Definition set_stopping_objects_by_id
    (f : gmap ObjectId (gset ActorRef) → gmap ObjectId (gset ActorRef))
    (s : ReferenceManager) : ReferenceManager :=
  {| heap := heap s; objects_by_id := objects_by_id s;
     stopping_objects_by_id := f (stopping_objects_by_id s);
     pending_ref_callbacks := pending_ref_callbacks s |}.
Definition set_pending_ref_callbacks
    (f : gmap ObjectId (gset Callback) → gmap ObjectId (gset Callback))
    (s : ReferenceManager) : ReferenceManager :=
  {| heap := heap s; objects_by_id := objects_by_id s;
     stopping_objects_by_id := stopping_objects_by_id s;
     pending_ref_callbacks := f (pending_ref_callbacks s) |}.

Abbreviation M := (@handler ReferenceManager Msg).

(** [obj.field]: a reference outside the store is an object that is not a
    [RefCountedActor] and has none of its attributes. *)
Definition getattr {A} (obj : ActorRef) (field : RefCountedActor → A) : M A :=
  λ s, match heap s !! obj with
       | Some a => Ok (field a, s, [])
       | None => Raise AttributeError
       end.

(** [obj.field = v], on an actor of the store. *)
Definition setattr (obj : ActorRef) (upd : RefCountedActor → RefCountedActor) : M unit :=
  λ s, match heap s !! obj with
       | Some a => Ok (tt, set_heap <[obj := upd a]> s, [])
       | None => Raise AttributeError
       end.

(** [self._create(object_id)], overridden by subclasses: a new instance,
    not started, distinct from every object there is. *)
Definition _create (object_id : ObjectId) : M ActorRef :=
  λ s, let obj := fresh (dom (heap s)) in
       Ok (obj, set_heap <[obj := new_actor]> s, [Create object_id obj]).

(** [self.pending_ref_callbacks[object_id]] and
    [self.stopping_objects_by_id[object_id]], with the insertion that a
    [defaultdict] makes for a missing key. *)
Definition pending_getitem (object_id : ObjectId) : M (gset Callback) :=
  λ s, let '(v, d) := defaultdict_getitem (pending_ref_callbacks s) object_id in
       Ok (v, set_pending_ref_callbacks (λ _, d) s, []).
Definition stopping_getitem (object_id : ObjectId) : M (gset ActorRef) :=
  λ s, let '(v, d) := defaultdict_getitem (stopping_objects_by_id s) object_id in
       Ok (v, set_stopping_objects_by_id (λ _, d) s, []).

(** [d.pop(k)] and [del d[k]]: [KeyError] on a missing key. *)
Definition pop_strict {V} (d : ReferenceManager → gmap ObjectId V)
    (set : (gmap ObjectId V → gmap ObjectId V) → ReferenceManager → ReferenceManager)
    (k : ObjectId) : M unit :=
  λ s, match d s !! k with
       | Some _ => Ok (tt, set (delete k) s, [])
       | None => Raise KeyError
       end.

(** [_maybe_start]: starts the actor with the given ID if it is present and
    there are no pending cleanups for that ID.  In the condition [obj and
    ...] an actor counts as true and [None], the result of [get] on a
    missing key, as false. *)
Definition _maybe_start (obj_id : ObjectId) : M unit :=
  (cur ←' gets (λ s, objects_by_id s !! obj_id);
   match cur with
   | None => ret tt
   | Some obj =>
       st ←' getattr obj ref_mgmt_state;
       stopping ←' gets stopping_objects_by_id;
       if bool_decide (st = CREATED) && bool_decide (stopping !! obj_id = None)
       then
         setattr obj (with_state STARTING) ;;'
         send (Start obj) ;;'
         send (OnObjectStarted obj_id obj)
       else ret tt
   end)%handler.

(** [_maybe_notify_referrers]: if the object with the given ID is LIVE,
    notify any pending referrers.  The [else] branch logs
    [obj.ref_mgmt_state], which raises when [obj] is [None]. *)
Definition _maybe_notify_referrers (object_id : ObjectId) : M unit :=
  (cur ←' gets (λ s, objects_by_id s !! object_id);
   match cur with
   | None => raise AttributeError
   | Some obj =>
       st ←' getattr obj ref_mgmt_state;
       if bool_decide (st = LIVE)
       then
         cbs ←' pending_getitem object_id;
         for_each (elements cbs) (λ cb, send (Spawn cb object_id obj)) ;;'
         pop_strict pending_ref_callbacks set_pending_ref_callbacks object_id
       else ret tt
   end)%handler.

(** [get_and_incref(object_id, callback=None)].  [None] for [object_id] is
    Python's [None]; a [callback] that is [None] is not recorded. *)
Definition get_and_incref (object_id : option ObjectId) (callback : option Callback)
  : M unit :=
  match object_id with
  | None => raise AssertionError
  | Some object_id =>
      (cur ←' gets (λ s, objects_by_id s !! object_id);
       obj ←' match cur with
              | None =>
                  obj ←' _create object_id;
                  setattr obj (with_id object_id) ;;'
                  modify (set_objects_by_id <[object_id := obj]>) ;;'
                  ret obj
              | Some obj => ret obj
              end;
       match callback with
       | Some cb =>
           modify (set_pending_ref_callbacks (λ d, defaultdict_add d object_id cb))
       | None => ret tt
       end ;;'
       n ←' getattr obj ref_count;
       setattr obj (with_count (n + 1)) ;;'
       _maybe_start object_id ;;'
       _maybe_notify_referrers object_id)%handler
  end.

(** [on_object_startup_complete(object_id, obj)]. *)
Definition on_object_startup_complete (object_id : ObjectId) (obj : ActorRef) : M unit :=
  (cur ←' gets (λ s, objects_by_id s !! object_id);
   if bool_decide (cur ≠ Some obj) then ret tt
   else
     st ←' getattr obj ref_mgmt_state;
     if bool_decide (st ≠ STARTING) then ret tt
     else
       setattr obj (with_state LIVE) ;;'
       _maybe_notify_referrers object_id)%handler.

(** [decref(object_id)]. *)
Definition decref (object_id : ObjectId) : M unit :=
  (cur ←' gets (λ s, objects_by_id s !! object_id);
   match cur with
   | None => raise AssertionError
   | Some obj =>
       n ←' getattr obj ref_count;
       setattr obj (with_count (n - 1)) ;;'
       n' ←' getattr obj ref_count;
       assert (bool_decide (0 ≤ n')) ;;'
       if bool_decide (n' = 0)
       then
         st ←' getattr obj ref_mgmt_state;
         (if bool_decide (st = CREATED) then ret tt
          else
            setattr obj (with_state STOPPING) ;;'
            send (OnUnreferenced obj) ;;'
            modify (set_stopping_objects_by_id (λ d, defaultdict_add d object_id obj))) ;;'
         pop_strict objects_by_id set_objects_by_id object_id ;;'
         modify (set_pending_ref_callbacks (delete object_id))
       else ret tt
   end)%handler.

(** [on_object_cleanup_complete(object_id, obj)]. *)
Definition on_object_cleanup_complete (object_id : ObjectId) (obj : ActorRef) : M unit :=
  (modify (set_stopping_objects_by_id (λ d, defaultdict_discard d object_id obj)) ;;'
   remaining ←' stopping_getitem object_id;
   if bool_decide (remaining = ∅)
   then
     pop_strict stopping_objects_by_id set_stopping_objects_by_id object_id ;;'
     _maybe_start object_id
   else ret tt)%handler.

(** [_is_starting_or_live(obj_id)]. *)
Definition _is_starting_or_live (obj_id : ObjectId) : M bool :=
  (cur ←' gets (λ s, objects_by_id s !! obj_id);
   match cur with
   | None => ret false
   | Some obj =>
       st ←' getattr obj ref_mgmt_state;
       ret (bool_decide (st = STARTING) || bool_decide (st = LIVE))
   end)%handler.

(** *** Runs of the manager: its actor events, one at a time *)

Inductive Event : Set :=
| GetAndIncref (object_id : option ObjectId) (callback : option Callback)
| OnObjectStartupComplete (object_id : ObjectId) (obj : ActorRef)
| Decref (object_id : ObjectId)
| OnObjectCleanupComplete (object_id : ObjectId) (obj : ActorRef).

Definition handle (ev : Event) : M unit :=
  match ev with
  | GetAndIncref object_id callback => get_and_incref object_id callback
  | OnObjectStartupComplete object_id obj => on_object_startup_complete object_id obj
  | Decref object_id => decref object_id
  | OnObjectCleanupComplete object_id obj => on_object_cleanup_complete object_id obj
  end.

(** The queue of the actor: events are handled in the order received. *)
Definition run (evs : list Event) : M unit := for_each evs handle.

(** The identifier an event is about. *)
Definition event_id (ev : Event) : option ObjectId :=
  match ev with
  | GetAndIncref object_id _ => object_id
  | OnObjectStartupComplete object_id _
  | Decref object_id
  | OnObjectCleanupComplete object_id _ => Some object_id
  end.

(** The state after the events, from the initial one (which it stays when
    one of them raises). *)
Definition state_after (evs : list Event) : ReferenceManager :=
  match run evs init with
  | Ok (_, s, _) => s
  | Raise _ => init
  end.

(** States of a manager that has handled events without raising. *)
Inductive reachable : ReferenceManager → Prop :=
| reachable_init : reachable init
| reachable_step s ev s' out :
    reachable s → handle ev s = Ok (tt, s', out) → reachable s'.

(** The current actor of [object_id] and its fields, when there is one. *)
Definition current (s : ReferenceManager) (object_id : ObjectId)
  : option (ActorRef * RefCountedActor) :=
  obj ← objects_by_id s !! object_id; a ← heap s !! obj; Some (obj, a).

(** The callbacks waiting for [object_id], and the actors of [object_id]
    that are cleaning up. *)
Definition pending (s : ReferenceManager) (object_id : ObjectId) : gset Callback :=
  default ∅ (pending_ref_callbacks s !! object_id).
Definition draining (s : ReferenceManager) (object_id : ObjectId) : gset ActorRef :=
  default ∅ (stopping_objects_by_id s !! object_id).

(** What the handlers keep true of the manager's state.  Every current
    actor is in the store under its own identifier, is referenced at least
    once and is not stopping; it waits in [CREATED] exactly while actors of
    its identifier are cleaning up; and none of its callbacks is pending
    once it is [LIVE].  Every entry of [stopping_objects_by_id] is a
    non-empty set of stopping actors. *)
Record current_ok (s : ReferenceManager) (object_id : ObjectId) (a : RefCountedActor)
  : Prop := {
  current_id : _id a = Some object_id;
  current_count : 1 ≤ ref_count a;
  current_not_stopping : ref_mgmt_state a ≠ STOPPING;
  current_created :
    ref_mgmt_state a = CREATED ↔ is_Some (stopping_objects_by_id s !! object_id);
  current_live :
    ref_mgmt_state a = LIVE → pending_ref_callbacks s !! object_id = None
}.

Record wf (s : ReferenceManager) : Prop := {
  wf_current : ∀ object_id obj,
    objects_by_id s !! object_id = Some obj →
    ∃ a, heap s !! obj = Some a ∧ current_ok s object_id a;
  wf_stopping : ∀ object_id objs,
    stopping_objects_by_id s !! object_id = Some objs →
    objs ≠ ∅
    ∧ ∀ obj, obj ∈ objs →
        ∃ a, heap s !! obj = Some a ∧ ref_mgmt_state a = STOPPING
}.

(** The state after [callback] is recorded for [object_id]. *)
Definition record_callback (object_id : ObjectId) (callback : option Callback)
    (d : gmap ObjectId (gset Callback)) : gmap ObjectId (gset Callback) :=
  match callback with
  | Some cb => defaultdict_add d object_id cb
  | None => d
  end.

(** The handlers read case by case, as they act in states that satisfy
    [wf] ([ManagerFacts.handle_transition] relates the two). *)
Inductive transition (s : ReferenceManager)
  : Event → ReferenceManager → list Msg → Prop :=
| transition_create object_id callback :
    objects_by_id s !! object_id = None →
    let obj := fresh (dom (heap s)) in
    let free := bool_decide (stopping_objects_by_id s !! object_id = None) in
    transition s (GetAndIncref (Some object_id) callback)
      {| heap := <[obj := {| _id := Some object_id;
                             ref_mgmt_state := if free then STARTING else CREATED;
                             ref_count := 1 |}]> (heap s);
         objects_by_id := <[object_id := obj]> (objects_by_id s);
         stopping_objects_by_id := stopping_objects_by_id s;
         pending_ref_callbacks :=
           record_callback object_id callback (pending_ref_callbacks s) |}
      (Create object_id obj
         :: if free then [Start obj; OnObjectStarted object_id obj] else [])
| transition_incref object_id callback obj a :
    objects_by_id s !! object_id = Some obj → heap s !! obj = Some a →
    ref_mgmt_state a ≠ LIVE →
    transition s (GetAndIncref (Some object_id) callback)
      {| heap := <[obj := with_count (ref_count a + 1) a]> (heap s);
         objects_by_id := objects_by_id s;
         stopping_objects_by_id := stopping_objects_by_id s;
         pending_ref_callbacks :=
           record_callback object_id callback (pending_ref_callbacks s) |}
      []
| transition_incref_live object_id callback obj a :
    objects_by_id s !! object_id = Some obj → heap s !! obj = Some a →
    ref_mgmt_state a = LIVE →
    transition s (GetAndIncref (Some object_id) callback)
      {| heap := <[obj := with_count (ref_count a + 1) a]> (heap s);
         objects_by_id := objects_by_id s;
         stopping_objects_by_id := stopping_objects_by_id s;
         pending_ref_callbacks := pending_ref_callbacks s |}
      (match callback with
       | Some cb => [Spawn cb object_id obj]
       | None => []
       end)
| transition_startup_ignored object_id obj :
    (objects_by_id s !! object_id ≠ Some obj
     ∨ ∃ a, heap s !! obj = Some a ∧ ref_mgmt_state a ≠ STARTING) →
    transition s (OnObjectStartupComplete object_id obj) s []
| transition_startup object_id obj a :
    objects_by_id s !! object_id = Some obj → heap s !! obj = Some a →
    ref_mgmt_state a = STARTING →
    transition s (OnObjectStartupComplete object_id obj)
      {| heap := <[obj := with_state LIVE a]> (heap s);
         objects_by_id := objects_by_id s;
         stopping_objects_by_id := stopping_objects_by_id s;
         pending_ref_callbacks := delete object_id (pending_ref_callbacks s) |}
      ((λ cb, Spawn cb object_id obj) <$> elements (pending s object_id))
| transition_decref object_id obj a :
    objects_by_id s !! object_id = Some obj → heap s !! obj = Some a →
    1 < ref_count a →
    transition s (Decref object_id)
      {| heap := <[obj := with_count (ref_count a - 1) a]> (heap s);
         objects_by_id := objects_by_id s;
         stopping_objects_by_id := stopping_objects_by_id s;
         pending_ref_callbacks := pending_ref_callbacks s |}
      []
| transition_discard object_id obj a :
    objects_by_id s !! object_id = Some obj → heap s !! obj = Some a →
    ref_count a = 1 → ref_mgmt_state a = CREATED →
    transition s (Decref object_id)
      {| heap := <[obj := with_count 0 a]> (heap s);
         objects_by_id := delete object_id (objects_by_id s);
         stopping_objects_by_id := stopping_objects_by_id s;
         pending_ref_callbacks := delete object_id (pending_ref_callbacks s) |}
      []
| transition_stop object_id obj a :
    objects_by_id s !! object_id = Some obj → heap s !! obj = Some a →
    ref_count a = 1 → ref_mgmt_state a ≠ CREATED →
    transition s (Decref object_id)
      {| heap := <[obj := with_state STOPPING (with_count 0 a)]> (heap s);
         objects_by_id := delete object_id (objects_by_id s);
         stopping_objects_by_id :=
           <[object_id := draining s object_id ∪ {[obj]}]> (stopping_objects_by_id s);
         pending_ref_callbacks := delete object_id (pending_ref_callbacks s) |}
      [OnUnreferenced obj]
| transition_cleanup_more object_id obj :
    draining s object_id ∖ {[obj]} ≠ ∅ →
    transition s (OnObjectCleanupComplete object_id obj)
      {| heap := heap s;
         objects_by_id := objects_by_id s;
         stopping_objects_by_id :=
           <[object_id := draining s object_id ∖ {[obj]}]> (stopping_objects_by_id s);
         pending_ref_callbacks := pending_ref_callbacks s |}
      []
| transition_cleanup_start object_id obj o a :
    draining s object_id ∖ {[obj]} = ∅ →
    objects_by_id s !! object_id = Some o → heap s !! o = Some a →
    ref_mgmt_state a = CREATED →
    transition s (OnObjectCleanupComplete object_id obj)
      {| heap := <[o := with_state STARTING a]> (heap s);
         objects_by_id := objects_by_id s;
         stopping_objects_by_id := delete object_id (stopping_objects_by_id s);
         pending_ref_callbacks := pending_ref_callbacks s |}
      [Start o; OnObjectStarted object_id o]
| transition_cleanup_last object_id obj :
    draining s object_id ∖ {[obj]} = ∅ →
    (∀ o a, objects_by_id s !! object_id = Some o → heap s !! o = Some a →
            ref_mgmt_state a ≠ CREATED) →
    transition s (OnObjectCleanupComplete object_id obj)
      {| heap := heap s;
         objects_by_id := objects_by_id s;
         stopping_objects_by_id := delete object_id (stopping_objects_by_id s);
         pending_ref_callbacks := pending_ref_callbacks s |}
      [].

(** What the manager holds for [i] is the same in [s] and [s']. *)
Definition same_at (s s' : ReferenceManager) (i : ObjectId) : Prop :=
  objects_by_id s' !! i = objects_by_id s !! i
  ∧ stopping_objects_by_id s' !! i = stopping_objects_by_id s !! i
  ∧ pending_ref_callbacks s' !! i = pending_ref_callbacks s !! i
  ∧ ∀ o, objects_by_id s !! i = Some o → heap s' !! o = heap s !! o.

(** The reference count of the current actor of [object_id]; zero when
    there is none. *)
Definition references (s : ReferenceManager) (object_id : ObjectId) : Z :=
  match current s object_id with
  | Some (_, a) => ref_count a
  | None => 0
  end.

(** Calls of [get_and_incref] less calls of [decref] for [object_id]. *)
Fixpoint balance (object_id : ObjectId) (evs : list Event) : Z :=
  match evs with
  | [] => 0
  | GetAndIncref (Some i) _ :: evs' =>
      (if bool_decide (i = object_id) then 1 else 0) + balance object_id evs'
  | Decref i :: evs' =>
      balance object_id evs' - (if bool_decide (i = object_id) then 1 else 0)
  | _ :: evs' => balance object_id evs'
  end.


(** How many actors were made for [object_id]. *)
Definition is_create (object_id : ObjectId) (m : Msg) : bool :=
  match m with
  | Create i _ => bool_decide (i = object_id)
  | _ => false
  end.
Definition created (object_id : ObjectId) (out : list Msg) : nat :=
  length (filter (λ m, is_create object_id m = true) out).


(** How many times the message [m] was sent. *)
Definition sent (m : Msg) (out : list Msg) : nat :=
  length (filter (λ m', m' = m) out).

(** How many times the actor [obj] was made, for any identifier. *)
Definition is_create_of (obj : ActorRef) (m : Msg) : bool :=
  match m with
  | Create _ o => bool_decide (o = obj)
  | _ => false
  end.
Definition made (obj : ActorRef) (out : list Msg) : nat :=
  length (filter (λ m, is_create_of obj m = true) out).

(** The actor [obj] of the store has left [CREATED]; it is [STOPPING]. *)
Definition has_started (s : ReferenceManager) (obj : ActorRef) : bool :=
  match heap s !! obj with
  | Some a => bool_decide (ref_mgmt_state a ≠ CREATED)
  | None => false
  end.
Definition is_stopping (s : ReferenceManager) (obj : ActorRef) : bool :=
  match heap s !! obj with
  | Some a => bool_decide (ref_mgmt_state a = STOPPING)
  | None => false
  end.

(** *** What else the handlers keep true *)

(** Every actor of the store has been given an identifier. *)
Definition ids_ok (s : ReferenceManager) : Prop :=
  ∀ o a, heap s !! o = Some a → is_Some (_id a).

(** An actor that is cleaning up is filed under its own identifier and is
    not referenced. *)
Definition draining_ok (s : ReferenceManager) : Prop :=
  ∀ object_id objs o,
    stopping_objects_by_id s !! object_id = Some objs → o ∈ objs →
    ∃ a, heap s !! o = Some a ∧ _id a = Some object_id ∧ ref_count a = 0.

(** Callbacks wait only in non-empty sets, for identifiers that have a
    current actor. *)
Definition pending_ok (s : ReferenceManager) : Prop :=
  ∀ object_id cbs,
    pending_ref_callbacks s !! object_id = Some cbs →
    cbs ≠ ∅ ∧ is_Some (objects_by_id s !! object_id).

(** An actor that is [STARTING] or [LIVE] is current under its identifier. *)
Definition running_ok (s : ReferenceManager) : Prop :=
  ∀ o a, heap s !! o = Some a →
         ref_mgmt_state a = STARTING ∨ ref_mgmt_state a = LIVE →
         ∃ object_id, _id a = Some object_id ∧ objects_by_id s !! object_id = Some o.

(** The states in the order an actor goes through them. *)
Definition state_rank (st : RefMgmtState) : nat :=
  match st with CREATED => 0 | STARTING => 1 | LIVE => 2 | STOPPING => 3 end.

End Manager.

(** ** [class RefCountedActor(Actor)] *)

Module Actor.

(** The methods below read the fields of [self] in the store and send
    calls to the manager: the messages of these handlers are events of the
    manager.  [_manager] is written in one place only, together with [_id]
    ([get_and_incref]), and both start as [None]: [self._manager] is [None],
    and [self._manager.m] raises, exactly when [_id] is [None]. *)
Abbreviation M := (@handler (gmap ActorRef RefCountedActor) Manager.Event).

Definition getattr {A} (self : ActorRef) (field : RefCountedActor → A) : M A :=
  λ store, match store !! self with
           | Some a => Ok (field a, store, [])
           | None => Raise AttributeError
           end.

(** [self._manager.m], for a method [m] of the manager. *)
Definition manager_method (self : ActorRef) : M unit :=
  (i ←' getattr self _id;
   match i with
   | None => raise AttributeError
   | Some _ => ret tt
   end)%handler.

(** [self._id], as an argument of a call to the manager, whose handlers take
    an identifier that is not [None]. *)
Definition self_id (self : ActorRef) : M ObjectId :=
  (i ←' getattr self _id;
   match i with
   | None => raise AttributeError
   | Some i => ret i
   end)%handler.

(** [_notify_ready()]:
    [gevent.spawn(self._manager.on_object_startup_complete, self._id, self,
    async=True)]. *)
Definition _notify_ready (self : ActorRef) : M unit :=
  (manager_method self ;;'
   i ←' self_id self;
   send (Manager.OnObjectStartupComplete i self))%handler.

(** [_notify_cleanup_complete()]. *)
Definition _notify_cleanup_complete (self : ActorRef) : M unit :=
  (manager_method self ;;'
   i ←' self_id self;
   send (Manager.OnObjectCleanupComplete i self))%handler.

(** [on_unreferenced()], as [RefCountedActor] defines it: it notifies the
    manager at once. *)
Definition on_unreferenced (self : ActorRef) : M unit :=
  _notify_cleanup_complete self.

End Actor.

(** ** [class RefHelper(object)] *)

Module Helper.

(** Calls that leave the helper: the two requests to the reference manager,
    with the [async] flag they carry, and the [ready_callback]. *)
Inductive Msg : Set :=
| GetAndIncref (obj_id : ObjectId) (async : bool)
    (* [self._ref_mgr.get_and_incref(obj_id, callback=cb, async=True)] where
       [cb] is [self.on_ref_acquired] *)
| Decref (obj_id : ObjectId) (async : bool)
    (* [self._ref_mgr.decref(obj_id, ...)] *)
| ReadyCallback.
    (* [self._ready_callback()] *)

#[global] Instance Msg_eq_dec : EqDecision Msg.
Proof. solve_decision. Defined.

Record RefHelper : Type := mkHelper {
  required_refs : gset ObjectId;
  pending_increfs : gset ObjectId;
  acquired_refs : gmap ObjectId ActorRef
}.

(** [RefHelper.__init__]. *)
Definition init : RefHelper :=
  {| required_refs := ∅; pending_increfs := ∅; acquired_refs := ∅ |}.

Definition set_required_refs (f : gset ObjectId → gset ObjectId) (h : RefHelper) : RefHelper :=
  {| required_refs := f (required_refs h); pending_increfs := pending_increfs h;
     acquired_refs := acquired_refs h |}.
Definition set_pending_increfs (f : gset ObjectId → gset ObjectId) (h : RefHelper) : RefHelper :=
  {| required_refs := required_refs h; pending_increfs := f (pending_increfs h);
     acquired_refs := acquired_refs h |}.
Definition set_acquired_refs (f : gmap ObjectId ActorRef → gmap ObjectId ActorRef)
    (h : RefHelper) : RefHelper :=
  {| required_refs := required_refs h; pending_increfs := pending_increfs h;
     acquired_refs := f (acquired_refs h) |}.

Abbreviation M := (@handler RefHelper Msg).

(** The [ready] property: [len(self.required_refs) == len(self.acquired_refs)]. *)
Definition ready (h : RefHelper) : bool :=
  bool_decide (size (required_refs h) = size (acquired_refs h)).

(** [acquire_ref(obj_id)]. *)
Definition acquire_ref (obj_id : ObjectId) : M unit :=
  (required ←' gets required_refs;
   if bool_decide (obj_id ∉ required)
   then
     modify (set_required_refs (λ r, r ∪ {[obj_id]})) ;;'
     pend ←' gets pending_increfs;
     if bool_decide (obj_id ∉ pend)
     then
       modify (set_pending_increfs (λ p, p ∪ {[obj_id]})) ;;'
       send (GetAndIncref obj_id true)
     else ret tt
   else ret tt)%handler.

(** [discard_ref(obj_id)]. *)
Definition discard_ref (obj_id : ObjectId) : M unit :=
  (required ←' gets required_refs;
   if bool_decide (obj_id ∈ required)
   then
     modify (set_required_refs (λ r, r ∖ {[obj_id]})) ;;'
     modify (set_acquired_refs (delete obj_id)) ;;'
     pend ←' gets pending_increfs;
     if bool_decide (obj_id ∉ pend)
     then send (Decref obj_id true)
     else ret tt
   else ret tt)%handler.

(** [discard_all()]: iterates over a copy of [required_refs]. *)
Definition discard_all : M unit :=
  (required ←' gets required_refs;
   for_each (elements required) discard_ref)%handler.

(** [on_ref_acquired(obj_id, obj)]. *)
Definition on_ref_acquired (obj_id : ObjectId) (obj : ActorRef) : M unit :=
  (was_ready ←' gets ready;
   modify (set_pending_increfs (λ p, p ∖ {[obj_id]})) ;;'
   required ←' gets required_refs;
   (if bool_decide (obj_id ∈ required)
    then modify (set_acquired_refs <[obj_id := obj]>)
    else send (Decref obj_id false)) ;;'
   now_ready ←' gets ready;
   if negb was_ready && now_ready
   then send ReadyCallback
   else ret tt)%handler.

(** [iteritems()]. *)
Definition iteritems (h : RefHelper) : list (ObjectId * ActorRef) :=
  map_to_list (acquired_refs h).

(** *** Runs of a helper *)

Inductive Event : Set :=
| AcquireRef (obj_id : ObjectId)
| DiscardRef (obj_id : ObjectId)
| DiscardAll
| OnRefAcquired (obj_id : ObjectId) (obj : ActorRef).

Definition handle (ev : Event) : M unit :=
  match ev with
  | AcquireRef obj_id => acquire_ref obj_id
  | DiscardRef obj_id => discard_ref obj_id
  | DiscardAll => discard_all
  | OnRefAcquired obj_id obj => on_ref_acquired obj_id obj
  end.

Definition run (evs : list Event) : M unit := for_each evs handle.

(** The state after the events, from the initial one. *)
Definition state_after (evs : list Event) : RefHelper :=
  match run evs init with
  | Ok (_, h, _) => h
  | Raise _ => init
  end.

Inductive reachable : RefHelper → Prop :=
| reachable_init : reachable init
| reachable_step h ev h' out :
    reachable h → handle ev h = Ok (tt, h', out) → reachable h'.

(** The event is about [obj_id] (every [discard_all] may be). *)
Definition mentions (obj_id : ObjectId) (ev : Event) : bool :=
  match ev with
  | AcquireRef i | DiscardRef i | OnRefAcquired i _ => bool_decide (i = obj_id)
  | DiscardAll => true
  end.

(** Requests for [obj_id] among the messages sent. *)
Definition is_incref (obj_id : ObjectId) (m : Msg) : bool :=
  match m with
  | GetAndIncref i _ => bool_decide (i = obj_id)
  | _ => false
  end.
Definition is_decref (obj_id : ObjectId) (m : Msg) : bool :=
  match m with
  | Decref i _ => bool_decide (i = obj_id)
  | _ => false
  end.
Definition increfs (obj_id : ObjectId) (out : list Msg) : nat :=
  length (filter (λ m, is_incref obj_id m = true) out).
Definition decrefs (obj_id : ObjectId) (out : list Msg) : nat :=
  length (filter (λ m, is_decref obj_id m = true) out).
Definition readies (out : list Msg) : nat :=
  length (filter (λ m, m = ReadyCallback) out).

(** No acquired reference is kept for an identifier that is not required. *)
Definition acquired_within_required (h : RefHelper) : Prop :=
  dom (acquired_refs h) ⊆ required_refs h.

(** Every [on_ref_acquired] among the events answers a request that is
    outstanding when it is handled. *)
Fixpoint answers_expected (evs : list Event) (h : RefHelper) : bool :=
  match evs with
  | [] => true
  | ev :: evs' =>
      match ev with
      | OnRefAcquired obj_id _ => bool_decide (obj_id ∈ pending_increfs h)
      | _ => true
      end
      && match handle ev h with
         | Ok (_, h', _) => answers_expected evs' h'
         | Raise _ => true
         end
  end.

(** The references the helper holds or awaits at the manager: one for an
    identifier it requires or has an outstanding request for. *)
Definition held (h : RefHelper) (obj_id : ObjectId) : nat :=
  if bool_decide (obj_id ∈ required_refs h ∨ obj_id ∈ pending_increfs h) then 1 else 0.

(** A reference is kept only for an identifier with no outstanding
    request, and every required identifier is acquired or awaited. *)
Definition accounted (h : RefHelper) : Prop :=
  (∀ i, i ∈ pending_increfs h → acquired_refs h !! i = None)
  ∧ (∀ i, i ∈ required_refs h →
          is_Some (acquired_refs h !! i) ∨ i ∈ pending_increfs h).

End Helper.

(** * Tactics *)

(** Unfolding of the operations on handlers. *)
Ltac unfold_handler :=
  unfold bind, ret, gets, modify, send, raise, assert in *.

(** The fields of a state written with the setters. *)
Ltac simpl_state :=
  unfold Manager.set_heap, Manager.set_objects_by_id,
    Manager.set_stopping_objects_by_id, Manager.set_pending_ref_callbacks in *;
  simpl in *.

(** One handler run on a state whose look-ups are known. *)
Ltac eval_handler :=
  repeat first
    [ rewrite lookup_insert_eq
    | rewrite lookup_delete_eq
    | match goal with
      | H : ?m !! ?k = _ |- context [?m !! ?k] => rewrite H
      end
    | progress simpl_state ].

Ltac unfold_manager :=
  unfold Manager._maybe_start, Manager._maybe_notify_referrers,
    Manager.pending_getitem, Manager.stopping_getitem, Manager.pop_strict,
    Manager.getattr, Manager.setattr, Manager._create in *;
  unfold_handler; simpl in *.

Ltac unfold_helper :=
  unfold Helper.handle, Helper.acquire_ref, Helper.discard_ref,
    Helper.on_ref_acquired in *;
  unfold_handler; simpl in *.

(** * Properties *)

#[local] Set Warnings "-clear-no-such-hyp".

(** ** Handlers in general *)

Section handler_facts.
Context {St Msg : Type}.
Implicit Types (s : St) (out : list Msg).

Lemma bind_Ok {A B} (m : @handler St Msg A) (k : A → handler B) s b s2 out :
  bind m k s = Ok (b, s2, out) →
  ∃ a s1 out1 out2,
    m s = Ok (a, s1, out1) ∧ k a s1 = Ok (b, s2, out2) ∧ out = out1 ++ out2.
Proof.
  unfold bind. destruct (m s) as [[[a s1] out1]|]; [|done].
  destruct (k a s1) as [[[b' s2'] out2]|] eqn:Hk; [|done].
  intros [= -> -> <-]. by exists a, s1, out1, out2.
Qed.

Lemma for_each_cons_Ok {A} (body : A → @handler St Msg unit) x xs s s2 out :
  for_each (x :: xs) body s = Ok (tt, s2, out) →
  ∃ s1 out1 out2,
    body x s = Ok (tt, s1, out1) ∧ for_each xs body s1 = Ok (tt, s2, out2)
    ∧ out = out1 ++ out2.
Proof.
  simpl. intros (u & s1 & out1 & out2 & H1 & H2 & ->)%bind_Ok.
  destruct u. by exists s1, out1, out2.
Qed.

Lemma for_each_app {A} (body : A → @handler St Msg unit) xs ys s :
  for_each (xs ++ ys) body s = bind (for_each xs body) (λ _, for_each ys body) s.
Proof.
  revert s. induction xs as [|x xs IH]; intros s; simpl.
  - unfold bind, ret. by destruct (for_each ys body s) as [[[[] ?] ?]|].
  - unfold bind in *. destruct (body x s) as [[[[] s1] out1]|]; [|done].
    rewrite IH.
    destruct (for_each xs body s1) as [[[[] s2] out2]|]; [|done].
    destruct (for_each ys body s2) as [[[[] s3] out3]|]; [|done].
    by rewrite app_assoc.
Qed.

Lemma for_each_cons_intro {A} (body : A → @handler St Msg unit) x xs s s1 s2 out1 out2 :
  body x s = Ok (tt, s1, out1) → for_each xs body s1 = Ok (tt, s2, out2) →
  for_each (x :: xs) body s = Ok (tt, s2, out1 ++ out2).
Proof. intros H1 H2. simpl. unfold bind. by rewrite H1, H2. Qed.

Lemma for_each_app_intro {A} (body : A → @handler St Msg unit) xs ys s s1 s2 out1 out2 :
  for_each xs body s = Ok (tt, s1, out1) → for_each ys body s1 = Ok (tt, s2, out2) →
  for_each (xs ++ ys) body s = Ok (tt, s2, out1 ++ out2).
Proof. intros H1 H2. rewrite for_each_app. unfold bind. by rewrite H1, H2. Qed.

(** A loop keeps what each of its rounds keeps. *)
Lemma for_each_invariant {A} (P : St → Prop) (body : A → @handler St Msg unit) xs :
  (∀ x s s' out, P s → body x s = Ok (tt, s', out) → P s') →
  ∀ s s' out, P s → for_each xs body s = Ok (tt, s', out) → P s'.
Proof.
  intros Hbody. induction xs as [|x xs IH]; intros s s' out HP.
  - by intros [= <- _].
  - intros (s1 & out1 & out2 & H1 & H2 & _)%for_each_cons_Ok. eauto.
Qed.

(** A loop sends what its rounds send. *)
Lemma for_each_sends {A} (P : Msg → Prop) (body : A → @handler St Msg unit) xs :
  (∀ x s s' out, body x s = Ok (tt, s', out) → Forall P out) →
  ∀ s s' out, for_each xs body s = Ok (tt, s', out) → Forall P out.
Proof.
  intros Hbody. induction xs as [|x xs IH]; intros s s' out.
  - by intros [= _ <-].
  - intros (s1 & out1 & out2 & H1 & H2 & ->)%for_each_cons_Ok.
    apply Forall_app. eauto.
Qed.

(** The messages of a loop of [send]s. *)
Lemma for_each_send {A} (f : A → Msg) xs s :
  for_each xs (λ x, send (f x)) s = Ok (tt, s, f <$> xs).
Proof.
  induction xs as [|x xs IH]; [done|].
  simpl. unfold bind. unfold send at 1. by rewrite IH.
Qed.
End handler_facts.

(** ** The manager *)

Module ManagerFacts.
Import Manager.

#[local] Arguments _maybe_start : simpl never.
#[local] Arguments _maybe_notify_referrers : simpl never.
#[local] Arguments get_and_incref : simpl never.
#[local] Arguments on_object_startup_complete : simpl never.
#[local] Arguments decref : simpl never.
#[local] Arguments on_object_cleanup_complete : simpl never.
#[local] Arguments defaultdict_add : simpl never.
#[local] Arguments defaultdict_discard : simpl never.

(** *** The handlers as equations *)

Lemma maybe_start_None obj_id s :
  objects_by_id s !! obj_id = None → _maybe_start obj_id s = Ok (tt, s, []).
Proof. intros Hcur. unfold_manager. by rewrite Hcur. Qed.

Lemma maybe_start_Some obj_id s obj a :
  objects_by_id s !! obj_id = Some obj → heap s !! obj = Some a →
  _maybe_start obj_id s
  = if bool_decide (ref_mgmt_state a = CREATED)
       && bool_decide (stopping_objects_by_id s !! obj_id = None)
    then Ok (tt, set_heap <[obj := with_state STARTING a]> s,
             [Start obj; OnObjectStarted obj_id obj])
    else Ok (tt, s, []).
Proof.
  intros Hcur Ha. unfold_manager. rewrite Hcur, Ha.
  destruct (_ && _); [|done]. simpl. by rewrite Ha.
Qed.

Lemma maybe_notify_Some object_id s obj a :
  objects_by_id s !! object_id = Some obj → heap s !! obj = Some a →
  _maybe_notify_referrers object_id s
  = if bool_decide (ref_mgmt_state a = LIVE)
    then Ok (tt, set_pending_ref_callbacks (delete object_id) s,
             (λ cb, Spawn cb object_id obj) <$> elements (pending s object_id))
    else Ok (tt, s, []).
Proof.
  intros Hcur Ha.
  unfold _maybe_notify_referrers, pending_getitem, pop_strict, getattr, bind, gets, ret.
  rewrite Hcur, Ha.
  case_bool_decide; [|done]. unfold pending, defaultdict_getitem.
  destruct (pending_ref_callbacks s !! object_id) as [cbs|] eqn:Hp; simpl.
  - rewrite for_each_send. simpl. rewrite Hp. by rewrite app_nil_r.
  - rewrite for_each_send. simpl. rewrite lookup_insert_eq.
    rewrite app_nil_r. unfold set_pending_ref_callbacks. simpl.
    by rewrite delete_insert_eq.
Qed.

Lemma get_and_incref_new object_id callback s :
  objects_by_id s !! object_id = None →
  let obj := fresh (dom (heap s)) in
  let free := bool_decide (stopping_objects_by_id s !! object_id = None) in
  get_and_incref (Some object_id) callback s
  = Ok (tt,
        {| heap := <[obj := {| _id := Some object_id;
                               ref_mgmt_state := if free then STARTING else CREATED;
                               ref_count := 1 |}]> (heap s);
           objects_by_id := <[object_id := obj]> (objects_by_id s);
           stopping_objects_by_id := stopping_objects_by_id s;
           pending_ref_callbacks :=
             match callback with
             | Some cb => defaultdict_add (pending_ref_callbacks s) object_id cb
             | None => pending_ref_callbacks s
             end |},
        Create object_id obj
          :: if free then [Start obj; OnObjectStarted object_id obj] else []).
Proof.
  intros Hcur obj free.
  unfold get_and_incref, _create, getattr, setattr, bind, gets, ret, modify.
  rewrite Hcur. simpl_state. fold obj. rewrite !lookup_insert_eq.
  destruct callback as [cb|]; simpl_state; repeat (rewrite lookup_insert_eq; simpl);
    (erewrite maybe_start_Some;
       [|simpl; apply lookup_insert_eq|simpl; apply lookup_insert_eq]);
    simpl_state; fold free; destruct free; simpl;
    (erewrite maybe_notify_Some;
       [|simpl; apply lookup_insert_eq|simpl; apply lookup_insert_eq]);
    simpl_state; by rewrite !insert_insert_eq.
Qed.

Lemma get_and_incref_existing object_id callback s obj a :
  objects_by_id s !! object_id = Some obj → heap s !! obj = Some a →
  let s1 :=
    set_heap <[obj := with_count (ref_count a + 1) a]>
      (match callback with
       | Some cb =>
           set_pending_ref_callbacks (λ d, defaultdict_add d object_id cb) s
       | None => s
       end) in
  get_and_incref (Some object_id) callback s
  = bind (_maybe_start object_id) (λ _, _maybe_notify_referrers object_id) s1.
Proof.
  intros Hcur Ha s1.
  unfold get_and_incref, getattr, setattr, bind, gets, ret, modify.
  rewrite Hcur. simpl.
  destruct callback as [cb|]; subst s1; eval_handler;
    match goal with |- context [_maybe_start object_id ?s] =>
      destruct (_maybe_start object_id s) as [[[[] s3] out3]|]; [|done] end;
    by destruct (_maybe_notify_referrers object_id s3) as [[[[] s4] out4]|].
Qed.

Lemma startup_not_current object_id obj s :
  objects_by_id s !! object_id ≠ Some obj →
  on_object_startup_complete object_id obj s = Ok (tt, s, []).
Proof.
  intros Hcur. unfold on_object_startup_complete, bind, gets, ret.
  by rewrite (bool_decide_eq_true_2 _ Hcur).
Qed.

Lemma startup_not_starting object_id obj s a :
  objects_by_id s !! object_id = Some obj → heap s !! obj = Some a →
  ref_mgmt_state a ≠ STARTING →
  on_object_startup_complete object_id obj s = Ok (tt, s, []).
Proof.
  intros Hcur Ha Hst. unfold on_object_startup_complete, getattr, bind, gets, ret.
  rewrite Hcur, bool_decide_eq_false_2 by naive_solver.
  rewrite Ha. by rewrite (bool_decide_eq_true_2 _ Hst).
Qed.

Lemma startup_starting object_id obj s a :
  objects_by_id s !! object_id = Some obj → heap s !! obj = Some a →
  ref_mgmt_state a = STARTING →
  on_object_startup_complete object_id obj s
  = Ok (tt,
        {| heap := <[obj := with_state LIVE a]> (heap s);
           objects_by_id := objects_by_id s;
           stopping_objects_by_id := stopping_objects_by_id s;
           pending_ref_callbacks := delete object_id (pending_ref_callbacks s) |},
        (λ cb, Spawn cb object_id obj) <$> elements (pending s object_id)).
Proof.
  intros Hcur Ha Hst.
  unfold on_object_startup_complete, getattr, setattr, bind, gets, ret.
  rewrite Hcur, bool_decide_eq_false_2 by naive_solver.
  rewrite Ha, bool_decide_eq_false_2 by naive_solver.
  rewrite Ha.
  erewrite maybe_notify_Some; [|exact Hcur|simpl; apply lookup_insert_eq].
  by simpl_state.
Qed.

Lemma decref_missing object_id s :
  objects_by_id s !! object_id = None → decref object_id s = Raise AssertionError.
Proof. intros Hcur. unfold decref, bind, gets, raise. by rewrite Hcur. Qed.

Lemma decref_current object_id s obj a :
  objects_by_id s !! object_id = Some obj → heap s !! obj = Some a →
  decref object_id s
  = if bool_decide (0 ≤ ref_count a - 1)
    then
      if bool_decide (ref_count a - 1 = 0)
      then
        if bool_decide (ref_mgmt_state a = CREATED)
        then
          Ok (tt,
              {| heap := <[obj := with_count (ref_count a - 1) a]> (heap s);
                 objects_by_id := delete object_id (objects_by_id s);
                 stopping_objects_by_id := stopping_objects_by_id s;
                 pending_ref_callbacks := delete object_id (pending_ref_callbacks s) |},
              [])
        else
          Ok (tt,
              {| heap := <[obj := with_state STOPPING (with_count (ref_count a - 1) a)]>
                           (heap s);
                 objects_by_id := delete object_id (objects_by_id s);
                 stopping_objects_by_id :=
                   defaultdict_add (stopping_objects_by_id s) object_id obj;
                 pending_ref_callbacks := delete object_id (pending_ref_callbacks s) |},
              [OnUnreferenced obj])
      else Ok (tt, set_heap <[obj := with_count (ref_count a - 1) a]> s, [])
    else Raise AssertionError.
Proof.
  intros Hcur Ha.
  unfold decref, getattr, setattr, pop_strict, assert, bind, gets, ret, modify, send, raise.
  eval_handler.
  repeat (case_bool_decide; eval_handler); try done.
  by rewrite insert_insert_eq.
Qed.

Lemma cleanup_eq object_id obj s :
  on_object_cleanup_complete object_id obj s
  = if bool_decide (draining s object_id ∖ {[obj]} = ∅)
    then _maybe_start object_id (set_stopping_objects_by_id (delete object_id) s)
    else Ok (tt,
             set_stopping_objects_by_id
               <[object_id := draining s object_id ∖ {[obj]}]> s,
             []).
Proof.
  unfold on_object_cleanup_complete, stopping_getitem, pop_strict, bind, gets, ret, modify.
  unfold draining, defaultdict_discard, defaultdict_getitem.
  destruct (stopping_objects_by_id s !! object_id) as [objs|] eqn:Hobjs;
    eval_handler; case_bool_decide; eval_handler;
    rewrite ?insert_insert_eq, ?delete_insert_eq; try done;
    match goal with |- context [_maybe_start object_id ?s] =>
      by destruct (_maybe_start object_id s) as [[[[] s3] out3]|] end.
Qed.

Lemma defaultdict_add_lookup `{Countable A} (d : gmap ObjectId (gset A)) k x :
  defaultdict_add d k x !! k = Some (default ∅ (d !! k) ∪ {[x]}).
Proof.
  unfold defaultdict_add, defaultdict_getitem.
  destruct (d !! k) eqn:Hk; simpl; by rewrite lookup_insert_eq.
Qed.

Lemma defaultdict_add_lookup_ne `{Countable A} (d : gmap ObjectId (gset A)) k k' x :
  k ≠ k' → defaultdict_add d k x !! k' = d !! k'.
Proof.
  intros Hne. unfold defaultdict_add, defaultdict_getitem.
  destruct (d !! k) eqn:Hk; simpl; by rewrite !lookup_insert_ne.
Qed.

Lemma get_and_incref_current object_id callback s obj a :
  objects_by_id s !! object_id = Some obj → heap s !! obj = Some a →
  let pend :=
    match callback with
    | Some cb => defaultdict_add (pending_ref_callbacks s) object_id cb
    | None => pending_ref_callbacks s
    end in
  let a1 := with_count (ref_count a + 1) a in
  get_and_incref (Some object_id) callback s
  = if bool_decide (ref_mgmt_state a = CREATED)
       && bool_decide (stopping_objects_by_id s !! object_id = None)
    then
      Ok (tt,
          {| heap := <[obj := with_state STARTING a1]> (heap s);
             objects_by_id := objects_by_id s;
             stopping_objects_by_id := stopping_objects_by_id s;
             pending_ref_callbacks := pend |},
          [Start obj; OnObjectStarted object_id obj])
    else if bool_decide (ref_mgmt_state a = LIVE)
    then
      Ok (tt,
          {| heap := <[obj := a1]> (heap s);
             objects_by_id := objects_by_id s;
             stopping_objects_by_id := stopping_objects_by_id s;
             pending_ref_callbacks := delete object_id pend |},
          (λ cb, Spawn cb object_id obj) <$> elements (default ∅ (pend !! object_id)))
    else
      Ok (tt,
          {| heap := <[obj := a1]> (heap s);
             objects_by_id := objects_by_id s;
             stopping_objects_by_id := stopping_objects_by_id s;
             pending_ref_callbacks := pend |},
          []).
Proof.
  intros Hcur Ha pend a1. subst pend a1.
  rewrite (get_and_incref_existing _ _ _ _ _ Hcur Ha). unfold bind.
  erewrite maybe_start_Some;
    [|destruct callback; exact Hcur|destruct callback; simpl; apply lookup_insert_eq].
  simpl.
  replace (stopping_objects_by_id _ !! object_id)
    with (stopping_objects_by_id s !! object_id) by by destruct callback.
  destruct (bool_decide (ref_mgmt_state a = CREATED)) eqn:Hc; simpl;
    [destruct (bool_decide (stopping_objects_by_id s !! object_id = None)); simpl|].
  - erewrite maybe_notify_Some;
      [|destruct callback; exact Hcur|destruct callback; simpl; apply lookup_insert_eq].
    destruct callback; simpl_state; by rewrite insert_insert_eq.
  - erewrite maybe_notify_Some;
      [|destruct callback; exact Hcur|destruct callback; simpl; apply lookup_insert_eq].
    simpl. destruct (bool_decide (ref_mgmt_state a = LIVE)); unfold pending;
      by destruct callback.
  - erewrite maybe_notify_Some;
      [|destruct callback; exact Hcur|destruct callback; simpl; apply lookup_insert_eq].
    simpl. destruct (bool_decide (ref_mgmt_state a = LIVE)); unfold pending;
      by destruct callback.
Qed.

(** *** The invariant of the manager *)

Lemma wf_init : wf init.
Proof. split; simpl; intros ??; by rewrite lookup_empty. Qed.

(** Two identifiers do not share a current actor, and no current actor is
    cleaning up. *)
Lemma wf_current_inj s i j obj :
  wf s → objects_by_id s !! i = Some obj → objects_by_id s !! j = Some obj → i = j.
Proof.
  intros Hwf (a & Ha & Hok)%(wf_current s Hwf) (b & Hb & Hok')%(wf_current s Hwf).
  destruct Hok, Hok'. congruence.
Qed.

Lemma wf_current_not_draining s i j obj objs :
  wf s → objects_by_id s !! i = Some obj → stopping_objects_by_id s !! j = Some objs →
  obj ∉ objs.
Proof.
  intros Hwf (a & Ha & Hok)%(wf_current s Hwf) [_ Hst]%(wf_stopping s Hwf) Hin.
  destruct (Hst _ Hin) as (b & Hb & Hb'). destruct Hok. congruence.
Qed.

(** A write to the current actor of [object_id], with any change of the
    callbacks pending for [object_id]. *)
Lemma wf_update_current s object_id obj a' pend' :
  wf s → objects_by_id s !! object_id = Some obj →
  (∀ i, i ≠ object_id → pend' !! i = pending_ref_callbacks s !! i) →
  let s' := {| heap := <[obj := a']> (heap s);
               objects_by_id := objects_by_id s;
               stopping_objects_by_id := stopping_objects_by_id s;
               pending_ref_callbacks := pend' |} in
  current_ok s' object_id a' → wf s'.
Proof.
  intros Hwf Hcur Hpend s' Hok. split; simpl.
  - intros i obj' Hi. destruct (decide (i = object_id)) as [->|Hne].
    + simplify_eq. exists a'. by rewrite lookup_insert_eq.
    + assert (obj' ≠ obj) by (intros ->; eauto using wf_current_inj).
      destruct (wf_current s Hwf i obj' Hi) as (b & Hb & []).
      exists b. rewrite lookup_insert_ne by done. split; [done|].
      split; simpl; rewrite ?Hpend; done.
  - intros i objs Hi. destruct (wf_stopping s Hwf i objs Hi) as [Hne Hst].
    split; [done|]. intros o Ho.
    assert (o ≠ obj) by (intros ->; by eapply wf_current_not_draining).
    rewrite lookup_insert_ne by done. eauto.
Qed.

Lemma get_and_incref_wf object_id callback s s' out :
  wf s → get_and_incref object_id callback s = Ok (tt, s', out) → wf s'.
Proof.
  intros Hwf. destruct object_id as [object_id|]; [|done].
  destruct (objects_by_id s !! object_id) as [obj|] eqn:Hcur.
  - destruct (wf_current s Hwf _ _ Hcur) as (a & Ha & Hok).
    rewrite (get_and_incref_current _ _ _ _ _ Hcur Ha). simpl.
    destruct Hok as [Hid Hcount Hns Hcr Hlive].
    assert (∀ i, i ≠ object_id →
              match callback with
              | Some cb => defaultdict_add (pending_ref_callbacks s) object_id cb
              | None => pending_ref_callbacks s
              end !! i = pending_ref_callbacks s !! i) as Hpend.
    { intros i Hi. destruct callback; [|done]. by rewrite defaultdict_add_lookup_ne. }
    assert (ref_mgmt_state a = CREATED →
            stopping_objects_by_id s !! object_id = None → False) as Hblocked.
    { intros [objs Hobjs]%Hcr. congruence. }
    repeat case_bool_decide; simpl; intros [= <- <-];
      (apply (wf_update_current s object_id obj); [done|done| |]);
      try (intros i Hi; rewrite ?lookup_delete_ne by done; by apply Hpend);
      split; simpl; rewrite ?lookup_delete_eq; try done; try lia; try congruence;
      exfalso; eauto.
  - rewrite (get_and_incref_new _ _ _ Hcur). simpl. intros [= <- <-].
    pose proof (is_fresh (dom (heap s))) as Hfresh.
    set (obj := fresh (dom (heap s))) in *.
    split; simpl.
    + intros i obj' Hi. destruct (decide (i = object_id)) as [->|Hne].
      * rewrite lookup_insert_eq in Hi. simplify_eq. rewrite lookup_insert_eq.
        eexists. split; [done|].
        destruct (stopping_objects_by_id s !! object_id) as [objs|] eqn:Hobjs.
        -- rewrite bool_decide_eq_false_2 by done. split; simpl; naive_solver.
        -- rewrite bool_decide_eq_true_2 by done.
           split; simpl; try done. rewrite Hobjs. split; [done|by intros [? ?]].
      * rewrite lookup_insert_ne in Hi by done.
        destruct (wf_current s Hwf i obj' Hi) as (b & Hb & []).
        assert (obj' ≠ obj) by (intros ->; apply Hfresh, elem_of_dom; eauto).
        exists b. rewrite lookup_insert_ne by done. split; [done|].
        split; simpl; try done.
        destruct callback; [|done]. by rewrite defaultdict_add_lookup_ne.
    + intros i objs Hi. destruct (wf_stopping s Hwf i objs Hi) as [Hne Hst].
      split; [done|]. intros o Ho. destruct (Hst o Ho) as (b & Hb & Hb').
      assert (o ≠ obj) by (intros ->; apply Hfresh, elem_of_dom; eauto).
      rewrite lookup_insert_ne by done. eauto.
Qed.

Lemma on_object_startup_complete_wf object_id obj s s' out :
  wf s → on_object_startup_complete object_id obj s = Ok (tt, s', out) → wf s'.
Proof.
  intros Hwf. destruct (decide (objects_by_id s !! object_id = Some obj)) as [Hcur|Hcur].
  - destruct (wf_current s Hwf _ _ Hcur) as (a & Ha & [Hid Hcount Hns Hcr Hlive]).
    destruct (decide (ref_mgmt_state a = STARTING)) as [Hst|Hst].
    + rewrite (startup_starting _ _ _ _ Hcur Ha Hst). intros [= <- <-].
      apply (wf_update_current s object_id obj); [done|done| |].
      * intros i Hi. by rewrite lookup_delete_ne.
      * split; simpl; rewrite ?lookup_delete_eq; try done.
        rewrite <-Hcr, Hst. split; discriminate.
    + rewrite (startup_not_starting _ _ _ _ Hcur Ha Hst). by intros [= <- _].
  - rewrite (startup_not_current _ _ _ Hcur). by intros [= <- _].
Qed.

Lemma decref_wf object_id s s' out :
  wf s → decref object_id s = Ok (tt, s', out) → wf s'.
Proof.
  intros Hwf. destruct (objects_by_id s !! object_id) as [obj|] eqn:Hcur;
    [|by rewrite decref_missing].
  destruct (wf_current s Hwf _ _ Hcur) as (a & Ha & [Hid Hcount Hns Hcr Hlive]).
  rewrite (decref_current _ _ _ _ Hcur Ha).
  case_bool_decide as Hge; [|done]. case_bool_decide as Hzero.
  - assert (∀ i obj', delete object_id (objects_by_id s) !! i = Some obj' →
              i ≠ object_id ∧ obj' ≠ obj ∧ objects_by_id s !! i = Some obj') as Hother.
    { intros i obj' [Hi Hobj']%lookup_delete_Some. split_and!; [done| |done].
      intros ->. eauto using wf_current_inj. }
    assert (∀ i objs o, stopping_objects_by_id s !! i = Some objs → o ∈ objs →
              o ≠ obj ∧ ∃ b, heap s !! o = Some b ∧ ref_mgmt_state b = STOPPING)
      as Hdraining.
    { intros i objs o Hi Ho. split; [|by eapply (wf_stopping s Hwf)].
      intros ->. by eapply wf_current_not_draining. }
    case_bool_decide as Hcreated; intros [= <- <-]; split; simpl.
    + intros i obj' (Hi & Hobj' & Hcur')%Hother.
      destruct (wf_current s Hwf i obj' Hcur') as (b & Hb & []).
      exists b. rewrite lookup_insert_ne by done. split; [done|].
      split; simpl; rewrite ?lookup_delete_ne; done.
    + intros i objs Hi. split; [by eapply (wf_stopping s Hwf)|].
      intros o Ho. destruct (Hdraining i objs o Hi Ho) as [Hne ?].
      by rewrite lookup_insert_ne.
    + intros i obj' (Hi & Hobj' & Hcur')%Hother.
      destruct (wf_current s Hwf i obj' Hcur') as (b & Hb & []).
      exists b. rewrite lookup_insert_ne by done. split; [done|].
      split; simpl; rewrite ?lookup_delete_ne, ?defaultdict_add_lookup_ne; done.
    + intros i objs. destruct (decide (i = object_id)) as [->|Hne].
      * rewrite defaultdict_add_lookup. intros [= <-]. split; [set_solver|].
        intros o [Ho| ->%elem_of_singleton]%elem_of_union.
        -- destruct (stopping_objects_by_id s !! object_id) as [objs|] eqn:Hobjs;
             [|set_solver].
           destruct (Hdraining _ objs o Hobjs Ho) as [Hne ?].
           by rewrite lookup_insert_ne.
        -- rewrite lookup_insert_eq. eauto.
      * rewrite defaultdict_add_lookup_ne by done. intros Hi.
        split; [by eapply (wf_stopping s Hwf)|].
        intros o Ho. destruct (Hdraining i objs o Hi Ho) as [Hne' ?].
        by rewrite lookup_insert_ne.
  - intros [= <- <-]. apply (wf_update_current s object_id obj); [done..|].
    split; simpl; [done|lia|done..].
Qed.

Lemma draining_nonempty s object_id obj :
  draining s object_id ∖ {[obj]} ≠ ∅ → is_Some (stopping_objects_by_id s !! object_id).
Proof.
  unfold draining. destruct (stopping_objects_by_id s !! object_id); [eauto|].
  simpl. set_solver.
Qed.

Lemma on_object_cleanup_complete_wf object_id obj s s' out :
  wf s → on_object_cleanup_complete object_id obj s = Ok (tt, s', out) → wf s'.
Proof.
  intros Hwf. rewrite cleanup_eq. case_bool_decide as Hlast.
  - (* the last actor of [object_id] has cleaned up *)
    assert (wf (set_stopping_objects_by_id (delete object_id) s)
            ∨ ∃ obj' a, objects_by_id s !! object_id = Some obj'
                        ∧ heap s !! obj' = Some a
                        ∧ ref_mgmt_state a = CREATED) as [Hwf'|(obj' & a & Hcur & Ha & Hst)].
    { destruct (objects_by_id s !! object_id) as [obj'|] eqn:Hcur.
      - destruct (wf_current s Hwf _ _ Hcur) as (a & Ha & Hok).
        destruct (decide (ref_mgmt_state a = CREATED)) as [Hst|Hst]; [by eauto 10|].
        left. split; simpl.
        + intros i o Hi. destruct (wf_current s Hwf i o Hi) as (b & Hb & []).
          exists b. split; [done|]. split; simpl; try done.
          destruct (decide (i = object_id)) as [->|Hne].
          * rewrite lookup_delete_eq. simplify_eq. split; [done|by intros [? ?]].
          * by rewrite lookup_delete_ne.
        + intros i objs [_ Hi]%lookup_delete_Some. by eapply (wf_stopping s Hwf).
      - left. split; simpl.
        + intros i o Hi. destruct (wf_current s Hwf i o Hi) as (b & Hb & []).
          exists b. split; [done|]. split; simpl; try done.
          rewrite lookup_delete_ne; [done|congruence].
        + intros i objs [_ Hi]%lookup_delete_Some. by eapply (wf_stopping s Hwf). }
    + destruct (objects_by_id s !! object_id) as [obj'|] eqn:Hcur.
      * destruct (wf_current s Hwf _ _ Hcur) as (a & Ha & Hok).
        erewrite maybe_start_Some; [|exact Hcur|exact Ha]. simpl.
        rewrite lookup_delete_eq, (bool_decide_eq_true_2 (None = None)) by done.
        rewrite andb_true_r. case_bool_decide as Hst; intros [= <- <-]; [|done].
        apply (wf_update_current _ object_id obj'); [done..|].
        destruct (wf_current _ Hwf' _ _ Hcur) as (b & Hb & []). simpl in *.
        simplify_eq. split; simpl; try done. rewrite lookup_delete_eq.
        split; [done|by intros [? ?]].
      * rewrite maybe_start_None by done. by intros [= <- <-].
    + erewrite maybe_start_Some; [|exact Hcur|exact Ha]. simpl.
      rewrite lookup_delete_eq, (bool_decide_eq_true_2 (None = None)) by done.
      rewrite (bool_decide_eq_true_2 _ Hst). simpl. intros [= <- <-].
      destruct (wf_current s Hwf _ _ Hcur) as (b & Hb & [Hid Hcount Hns Hcr Hlive]).
      simplify_eq. split; simpl.
      * intros i o Hi. destruct (decide (i = object_id)) as [->|Hne].
        -- simplify_eq. rewrite lookup_insert_eq. eexists. split; [done|].
           split; simpl; try done; rewrite ?lookup_delete_eq.
           split; [done|by intros [? ?]].
        -- assert (o ≠ obj') by (intros ->; eauto using wf_current_inj).
           destruct (wf_current s Hwf i o Hi) as (c & Hc & []).
           exists c. rewrite lookup_insert_ne by done. split; [done|].
           split; simpl; rewrite ?lookup_delete_ne; done.
      * intros i objs [_ Hi]%lookup_delete_Some.
        split; [by eapply (wf_stopping s Hwf)|]. intros o Ho.
        assert (o ≠ obj') by (intros ->; by eapply wf_current_not_draining).
        rewrite lookup_insert_ne by done. by eapply (wf_stopping s Hwf).
  - (* other actors of [object_id] are still cleaning up *)
    intros [= <- <-]. apply draining_nonempty in Hlast as Hsome.
    split; simpl.
    + intros i o Hi. destruct (wf_current s Hwf i o Hi) as (b & Hb & []).
      exists b. split; [done|]. split; simpl; try done.
      destruct (decide (i = object_id)) as [->|Hne].
      * rewrite lookup_insert_eq. naive_solver.
      * by rewrite lookup_insert_ne.
    + intros i objs. destruct (decide (i = object_id)) as [->|Hne].
      * rewrite lookup_insert_eq. intros [= <-]. split; [done|].
        intros o [Ho _]%elem_of_difference. destruct Hsome as [objs Hobjs].
        unfold draining in Ho. rewrite Hobjs in Ho.
        by eapply (wf_stopping s Hwf).
      * rewrite lookup_insert_ne by done. apply (wf_stopping s Hwf).
Qed.

Lemma handle_wf ev s s' out : wf s → handle ev s = Ok (tt, s', out) → wf s'.
Proof.
  destruct ev; simpl;
    eauto using get_and_incref_wf, on_object_startup_complete_wf, decref_wf,
      on_object_cleanup_complete_wf.
Qed.

Lemma reachable_wf s : reachable s → wf s.
Proof. induction 1; eauto using wf_init, handle_wf. Qed.

(** *** Release to zero, and notifications that come too late *)

Lemma defaultdict_add_insert `{Countable A} (d : gmap ObjectId (gset A)) k x :
  defaultdict_add d k x = <[k := default ∅ (d !! k) ∪ {[x]}]> d.
Proof.
  unfold defaultdict_add, defaultdict_getitem.
  destruct (d !! k) eqn:Hk; simpl; [done|]. by rewrite insert_insert_eq.
Qed.

Lemma state_eta s :
  {| heap := heap s; objects_by_id := objects_by_id s;
     stopping_objects_by_id := stopping_objects_by_id s;
     pending_ref_callbacks := pending_ref_callbacks s |} = s.
Proof. by destruct s. Qed.


(** C7. In every state the manager can reach: [on_object_startup_complete]
    for an actor that is not the current one of the identifier, or that is
    not [STARTING], returns without a change of state and without a
    message; so does [on_object_cleanup_complete] for an actor that is not
    among the stopping actors of the identifier. *)
Theorem stale_upcalls_ignored s object_id obj :
  reachable s →
  (objects_by_id s !! object_id ≠ Some obj
   ∨ (∃ a, heap s !! obj = Some a ∧ ref_mgmt_state a ≠ STARTING) →
   on_object_startup_complete object_id obj s = Ok (tt, s, []))
  ∧ (obj ∉ draining s object_id →
     on_object_cleanup_complete object_id obj s = Ok (tt, s, [])).
Proof.
  intros Hwf%reachable_wf. split.
  - intros [Hcur|(a & Ha & Hst)]; [by apply startup_not_current|].
    destruct (decide (objects_by_id s !! object_id = Some obj)) as [Hcur|Hcur].
    + by eapply startup_not_starting.
    + by apply startup_not_current.
  - intros Hnot. rewrite cleanup_eq.
    assert (draining s object_id ∖ {[obj]} = draining s object_id) as -> by set_solver.
    unfold draining in *.
    destruct (stopping_objects_by_id s !! object_id) as [objs|] eqn:Hobjs; simpl.
    + destruct (wf_stopping s Hwf _ _ Hobjs) as [Hne _].
      rewrite bool_decide_eq_false_2 by done. unfold set_stopping_objects_by_id.
      rewrite insert_id by done. by rewrite state_eta.
    + rewrite bool_decide_eq_true_2 by done. unfold set_stopping_objects_by_id.
      rewrite delete_id by done. rewrite state_eta.
      destruct (objects_by_id s !! object_id) as [obj'|] eqn:Hcur;
        [|by apply maybe_start_None].
      destruct (wf_current s Hwf _ _ Hcur) as (a & Ha & [_ _ _ Hcr _]).
      rewrite (maybe_start_Some _ _ _ _ Hcur Ha).
      rewrite (bool_decide_eq_false_2 (ref_mgmt_state a = CREATED)); [done|].
      rewrite Hcr, Hobjs. by intros [? ?].
Qed.

(** *** Events about other identifiers *)

Lemma same_at_refl s i : same_at s s i.
Proof. by repeat split. Qed.

Lemma same_at_write s i object_id obj a' objs' stop' pend' :
  wf s → i ≠ object_id →
  (objects_by_id s !! object_id = Some obj ∨ heap s !! obj = None) →
  objs' !! i = objects_by_id s !! i →
  stop' !! i = stopping_objects_by_id s !! i →
  pend' !! i = pending_ref_callbacks s !! i →
  same_at s {| heap := <[obj := a']> (heap s); objects_by_id := objs';
               stopping_objects_by_id := stop'; pending_ref_callbacks := pend' |} i.
Proof.
  intros Hwf Hne Hobj Hobjs Hstop Hpend. split_and!; simpl; try done.
  intros o Ho. rewrite lookup_insert_ne; [done|]. intros ->.
  destruct Hobj as [Hcur|Hfresh].
  - apply Hne. eauto using wf_current_inj.
  - destruct (wf_current s Hwf _ _ Ho) as (b & Hb & _). congruence.
Qed.

Lemma handle_other ev s s' out i :
  wf s → handle ev s = Ok (tt, s', out) → event_id ev ≠ Some i → same_at s s' i.
Proof.
  intros Hwf Hrun Hne.
  destruct ev as [[object_id|] callback|object_id obj|object_id|object_id obj];
    simpl in *; [| done | | |]; assert (i ≠ object_id) as Hi by congruence.
  - destruct (objects_by_id s !! object_id) as [obj|] eqn:Hcur.
    + destruct (wf_current s Hwf _ _ Hcur) as (a & Ha & Hok).
      rewrite (get_and_incref_current _ _ _ _ _ Hcur Ha) in Hrun. simpl in Hrun.
      repeat case_match; simplify_eq/=;
        (apply (same_at_write _ _ object_id); [done|done|by left|done|done|]);
        rewrite ?lookup_delete_ne, ?defaultdict_add_lookup_ne by done; done.
    + rewrite (get_and_incref_new _ _ _ Hcur) in Hrun. simplify_eq/=.
      apply (same_at_write _ _ object_id); [done|done| |by rewrite lookup_insert_ne|done|].
      * right. apply not_elem_of_dom, is_fresh.
      * destruct callback; rewrite ?defaultdict_add_lookup_ne; done.
  - destruct (decide (objects_by_id s !! object_id = Some obj)) as [Hcur|Hcur].
    + destruct (wf_current s Hwf _ _ Hcur) as (a & Ha & Hok).
      destruct (decide (ref_mgmt_state a = STARTING)) as [Hst|Hst].
      * rewrite (startup_starting _ _ _ _ Hcur Ha Hst) in Hrun. simplify_eq/=.
        apply (same_at_write _ _ object_id); [done|done|by left|done|done|].
        by rewrite lookup_delete_ne.
      * rewrite (startup_not_starting _ _ _ _ Hcur Ha Hst) in Hrun.
        simplify_eq/=. apply same_at_refl.
    + rewrite (startup_not_current _ _ _ Hcur) in Hrun.
      simplify_eq/=. apply same_at_refl.
  - destruct (objects_by_id s !! object_id) as [obj|] eqn:Hcur;
      [|by rewrite decref_missing in Hrun].
    destruct (wf_current s Hwf _ _ Hcur) as (a & Ha & Hok).
    rewrite (decref_current _ _ _ _ Hcur Ha) in Hrun.
    repeat case_match; simplify_eq/=;
      (apply (same_at_write _ _ object_id); [done|done|by left|..]);
      rewrite ?lookup_delete_ne, ?defaultdict_add_lookup_ne by done; done.
  - rewrite cleanup_eq in Hrun. case_bool_decide.
    + destruct (objects_by_id s !! object_id) as [obj'|] eqn:Hcur.
      * destruct (wf_current s Hwf _ _ Hcur) as (a & Ha & Hok).
        rewrite (maybe_start_Some _ _ obj' a) in Hrun by done.
        case_match; simplify_eq/=; simpl_state.
        -- apply (same_at_write _ _ object_id); [done|done|by left|..];
             rewrite ?lookup_delete_ne by done; done.
        -- split_and!; simpl; rewrite ?lookup_delete_ne by done; done.
      * rewrite maybe_start_None in Hrun by done. simplify_eq/=.
        split_and!; simpl; rewrite ?lookup_delete_ne by done; done.
    + simplify_eq/=. split_and!; simpl; rewrite ?lookup_insert_ne by done; done.
Qed.

(** *** Reference counts *)

Lemma references_same s s' i : same_at s s' i → references s' i = references s i.
Proof.
  intros (Hobjs & _ & _ & Hheap). unfold references, current. rewrite Hobjs.
  destruct (objects_by_id s !! i) as [o|] eqn:Ho; simpl; [|done].
  by rewrite (Hheap o).
Qed.

Lemma balance_other ev i : event_id ev ≠ Some i → balance i [ev] = 0.
Proof.
  destruct ev as [[object_id|] callback|object_id obj|object_id|object_id obj];
    simpl; try done; intros Hne; by rewrite bool_decide_eq_false_2 by congruence.
Qed.

Lemma references_current s i obj a :
  objects_by_id s !! i = Some obj → heap s !! obj = Some a →
  references s i = ref_count a.
Proof. intros Hcur Ha. unfold references, current. by rewrite Hcur; simpl; rewrite Ha. Qed.

Lemma references_none s i : objects_by_id s !! i = None → references s i = 0.
Proof. intros Hcur. unfold references, current. by rewrite Hcur. Qed.

Lemma handle_references ev s s' out i :
  wf s → handle ev s = Ok (tt, s', out) →
  references s' i = references s i + balance i [ev].
Proof.
  intros Hwf Hrun. destruct (decide (event_id ev = Some i)) as [Hev|Hev];
    [|rewrite (balance_other _ _ Hev), Z.add_0_r;
      eauto using references_same, handle_other].
  destruct ev as [[object_id|] callback|object_id obj|object_id|object_id obj];
    simpl in *; simplify_eq; rewrite ?bool_decide_eq_true_2 by done.
  - destruct (objects_by_id s !! i) as [obj|] eqn:Hcur.
    + destruct (wf_current s Hwf _ _ Hcur) as (a & Ha & Hok).
      rewrite (get_and_incref_current _ _ _ _ _ Hcur Ha) in Hrun. simpl in Hrun.
      rewrite (references_current s i obj a) by done.
      repeat case_match; simplify_eq/=;
        erewrite references_current by (simpl; first [exact Hcur|apply lookup_insert_eq]);
        simpl; lia.
    + rewrite (get_and_incref_new _ _ _ Hcur) in Hrun. simplify_eq/=.
      rewrite (references_none s i) by done.
      erewrite references_current by (simpl; apply lookup_insert_eq). done.
  - destruct (decide (objects_by_id s !! i = Some obj)) as [Hcur|Hcur].
    + destruct (wf_current s Hwf _ _ Hcur) as (a & Ha & Hok).
      destruct (decide (ref_mgmt_state a = STARTING)) as [Hst|Hst].
      * rewrite (startup_starting _ _ _ _ Hcur Ha Hst) in Hrun. simplify_eq/=.
        rewrite (references_current s i obj a) by done.
        erewrite references_current by (simpl; first [exact Hcur|apply lookup_insert_eq]).
        simpl. lia.
      * rewrite (startup_not_starting _ _ _ _ Hcur Ha Hst) in Hrun.
        simplify_eq/=. lia.
    + rewrite (startup_not_current _ _ _ Hcur) in Hrun. simplify_eq/=. lia.
  - destruct (objects_by_id s !! i) as [obj|] eqn:Hcur;
      [|by rewrite decref_missing in Hrun].
    destruct (wf_current s Hwf _ _ Hcur) as (a & Ha & Hok).
    rewrite (decref_current _ _ _ _ Hcur Ha) in Hrun.
    rewrite (references_current s i obj a) by done.
    repeat case_bool_decide; simplify_eq/=;
      [rewrite references_none by (simpl; apply lookup_delete_eq); lia..|].
    erewrite references_current by (simpl; first [exact Hcur|apply lookup_insert_eq]).
    simpl. lia.
  - rewrite cleanup_eq in Hrun. case_bool_decide.
    + destruct (objects_by_id s !! i) as [obj'|] eqn:Hcur.
      * destruct (wf_current s Hwf _ _ Hcur) as (a & Ha & Hok).
        rewrite (maybe_start_Some _ _ obj' a) in Hrun by done.
        rewrite (references_current s i obj' a) by done.
        case_match; simplify_eq/=;
          erewrite references_current
            by (simpl; first [exact Hcur|exact Ha|apply lookup_insert_eq]);
          simpl; lia.
      * rewrite maybe_start_None in Hrun by done. simplify_eq/=.
        rewrite !references_none by done. lia.
    + simplify_eq/=. unfold references, current. simpl. lia.
Qed.

Lemma balance_app i evs1 evs2 : balance i (evs1 ++ evs2) = balance i evs1 + balance i evs2.
Proof.
  induction evs1 as [|[[object_id|] callback|object_id obj|object_id|object_id obj] evs1 IH];
    simpl; lia.
Qed.

Lemma run_wf evs s s' out : wf s → run evs s = Ok (tt, s', out) → wf s'.
Proof.
  intros Hwf Hrun. eapply (for_each_invariant wf); [|exact Hwf|exact Hrun].
  intros ev s1 s2 o. apply handle_wf.
Qed.

Lemma run_references evs s s' out i :
  wf s → run evs s = Ok (tt, s', out) →
  references s' i = references s i + balance i evs.
Proof.
  revert s out. induction evs as [|ev evs IH]; intros s out Hwf.
  - intros [= <- _]. simpl. lia.
  - intros (s1 & out1 & out2 & H1 & H2 & _)%for_each_cons_Ok.
    rewrite (IH s1 out2) by eauto using handle_wf.
    rewrite (handle_references ev s s1 out1) by done.
    change (ev :: evs) with ([ev] ++ evs). rewrite balance_app. lia.
Qed.

Lemma run_reachable evs s out : run evs init = Ok (tt, s, out) → reachable s.
Proof.
  assert (∀ s0, reachable s0 → run evs s0 = Ok (tt, s, out) → reachable s) as Hgen.
  { revert out. induction evs as [|ev evs IH]; intros out s0 Hs0.
    - by intros [= <- _].
    - intros (s1 & out1 & out2 & H1 & H2 & _)%for_each_cons_Ok.
      eapply IH; [|exact H2]. by eapply reachable_step. }
  apply Hgen, reachable_init.
Qed.

Lemma wf_references s i :
  wf s →
  (objects_by_id s !! i = None ∧ references s i = 0)
  ∨ (∃ obj a, objects_by_id s !! i = Some obj ∧ heap s !! obj = Some a
              ∧ references s i = ref_count a ∧ 1 ≤ ref_count a).
Proof.
  intros Hwf. destruct (objects_by_id s !! i) as [obj|] eqn:Hcur.
  - destruct (wf_current s Hwf _ _ Hcur) as (a & Ha & [_ Hcount _ _ _]).
    right. exists obj, a. by rewrite (references_current s i obj a).
  - left. by rewrite references_none.
Qed.

(** C8. [get_and_incref] with [None] for the identifier, [decref] of an
    identifier that has no current actor, and [decref] of an actor whose
    count would go below zero all fail their [assert].  After any events
    handled without failure, the calls of [get_and_incref] less the calls
    of [decref] for an identifier are the reference count of its current
    actor, which is at least one, and are zero when it has none; so the
    difference is never negative, an identifier whose difference is zero is
    not in [objects_by_id], and a further [decref] of it fails. *)
Theorem reference_counts_safe :
  (∀ s callback, get_and_incref None callback s = Raise AssertionError)
  ∧ (∀ s object_id,
       objects_by_id s !! object_id = None →
       decref object_id s = Raise AssertionError)
  ∧ (∀ s object_id obj a,
       objects_by_id s !! object_id = Some obj → heap s !! obj = Some a →
       ref_count a - 1 < 0 →
       decref object_id s = Raise AssertionError)
  ∧ (∀ evs s out object_id,
       run evs init = Ok (tt, s, out) →
       0 ≤ balance object_id evs
       ∧ balance object_id evs = references s object_id
       ∧ (∀ obj, objects_by_id s !! object_id = Some obj →
            ∃ a, heap s !! obj = Some a ∧ ref_count a = balance object_id evs
                 ∧ 1 ≤ ref_count a)
       ∧ (balance object_id evs = 0 ↔ objects_by_id s !! object_id = None)
       ∧ (balance object_id evs = 0 →
          decref object_id s = Raise AssertionError)).
Proof.
  split_and!.
  - done.
  - intros s object_id. apply decref_missing.
  - intros s object_id obj a Hcur Ha Hneg.
    rewrite (decref_current _ _ _ _ Hcur Ha).
    by rewrite bool_decide_eq_false_2 by lia.
  - intros evs s out object_id Hrun.
    pose proof (run_wf _ _ _ _ wf_init Hrun) as Hwf.
    pose proof (run_references evs init s out object_id wf_init Hrun) as Hrefs.
    rewrite (references_none init) in Hrefs by done. simpl in Hrefs.
    destruct (wf_references s object_id Hwf)
      as [[Hcur H0]|(obj & a & Hcur & Ha & Hra & Hcount)].
    + split_and!; [lia|lia| |split; [done|lia]|].
      * intros obj. by rewrite Hcur.
      * intros _. by apply decref_missing.
    + split_and!; [lia|lia| |split; [lia|by rewrite Hcur]|lia].
      intros obj' Hobj'. simplify_eq. exists a. split_and!; [done|lia|done].
Qed.

(** *** The handlers, case by case *)

Lemma transition_eq s ev s1 s2 out1 out2 :
  transition s ev s1 out1 → s1 = s2 → out1 = out2 → transition s ev s2 out2.
Proof. by intros ? <- <-. Qed.

Lemma handle_transition ev s s' out :
  wf s → handle ev s = Ok (tt, s', out) → transition s ev s' out.
Proof.
  intros Hwf Hrun.
  destruct ev as [[object_id|] callback|object_id obj|object_id|object_id obj];
    simpl in *; [|done| | |].
  - destruct (objects_by_id s !! object_id) as [obj|] eqn:Hcur.
    + destruct (wf_current s Hwf _ _ Hcur) as (a & Ha & [Hid Hcount Hns Hcr Hlive]).
      rewrite (get_and_incref_current _ _ _ _ _ Hcur Ha) in Hrun. simpl in Hrun.
      destruct (decide (ref_mgmt_state a = LIVE)) as [Hst|Hst].
      * rewrite (bool_decide_eq_false_2 (ref_mgmt_state a = CREATED)) in Hrun
          by congruence.
        rewrite (bool_decide_eq_true_2 _ Hst) in Hrun. simplify_eq/=.
        eapply transition_eq; [by eapply transition_incref_live|..].
        -- f_equal. symmetry. destruct callback as [cb|]; simpl.
           ++ rewrite defaultdict_add_insert, delete_insert_eq.
              apply delete_id. auto.
           ++ apply delete_id. auto.
        -- symmetry. destruct callback as [cb|]; simpl.
           ++ rewrite defaultdict_add_lookup, Hlive by done. simpl.
              by rewrite (left_id_L ∅ (∪)), elements_singleton.
           ++ by rewrite Hlive.
      * rewrite (bool_decide_eq_false_2 _ Hst) in Hrun.
        destruct (bool_decide (ref_mgmt_state a = CREATED)) eqn:Hc; simpl in Hrun.
        -- apply bool_decide_eq_true in Hc. apply Hcr in Hc as [objs Hobjs].
           rewrite bool_decide_eq_false_2 in Hrun by congruence. simplify_eq/=.
           by eapply transition_incref.
        -- simplify_eq/=. by eapply transition_incref.
    + rewrite (get_and_incref_new _ _ _ Hcur) in Hrun. simplify_eq/=.
      by apply transition_create.
  - destruct (decide (objects_by_id s !! object_id = Some obj)) as [Hcur|Hcur].
    + destruct (wf_current s Hwf _ _ Hcur) as (a & Ha & Hok).
      destruct (decide (ref_mgmt_state a = STARTING)) as [Hst|Hst].
      * rewrite (startup_starting _ _ _ _ Hcur Ha Hst) in Hrun. simplify_eq/=.
        by eapply transition_startup.
      * rewrite (startup_not_starting _ _ _ _ Hcur Ha Hst) in Hrun.
        simplify_eq/=. apply transition_startup_ignored. eauto.
    + rewrite (startup_not_current _ _ _ Hcur) in Hrun. simplify_eq/=.
      apply transition_startup_ignored. eauto.
  - destruct (objects_by_id s !! object_id) as [obj|] eqn:Hcur;
      [|by rewrite decref_missing in Hrun].
    destruct (wf_current s Hwf _ _ Hcur) as (a & Ha & [Hid Hcount Hns Hcr Hlive]).
    rewrite (decref_current _ _ _ _ Hcur Ha) in Hrun.
    case_bool_decide as Hge; [|done]. case_bool_decide as Hzero.
    + assert (ref_count a = 1) as Hone by lia. rewrite Hzero in Hrun.
      case_bool_decide as Hst; simplify_eq/=.
      * by eapply transition_discard.
      * eapply transition_eq; [by eapply transition_stop|..]; [|done].
        by rewrite defaultdict_add_insert.
    + simplify_eq/=. eapply transition_decref; [done..|lia].
  - rewrite cleanup_eq in Hrun. case_bool_decide as Hlast.
    + destruct (objects_by_id s !! object_id) as [obj'|] eqn:Hcur.
      * destruct (wf_current s Hwf _ _ Hcur) as (a & Ha & Hok).
        rewrite (maybe_start_Some _ _ obj' a) in Hrun by done. simpl in Hrun.
        rewrite lookup_delete_eq, (bool_decide_eq_true_2 (None = None)) in Hrun by done.
        rewrite andb_true_r in Hrun. case_bool_decide as Hst; simplify_eq/=.
        -- by eapply (transition_cleanup_start s object_id obj obj' a).
        -- eapply (transition_cleanup_last s object_id obj); [done|].
           intros o b ??. by simplify_eq.
      * rewrite maybe_start_None in Hrun by done. simplify_eq/=.
        eapply (transition_cleanup_last s object_id obj); [done|].
        intros o b ?. by simplify_eq.
    + simplify_eq/=. by eapply (transition_cleanup_more s object_id obj).
Qed.

Lemma get_and_incref_total object_id callback s :
  wf s → ∃ s' out, get_and_incref (Some object_id) callback s = Ok (tt, s', out).
Proof.
  intros Hwf. destruct (objects_by_id s !! object_id) as [obj|] eqn:Hcur.
  - destruct (wf_current s Hwf _ _ Hcur) as (a & Ha & _).
    rewrite (get_and_incref_current _ _ _ _ _ Hcur Ha). simpl.
    repeat case_match; eauto.
  - rewrite (get_and_incref_new _ _ _ Hcur). eauto.
Qed.

(** *** Starting an actor *)

(** [start] is sent to the current actor of the event's identifier, which
    was [CREATED] or has just been made, and leaves it [STARTING] with no
    actor of the identifier cleaning up. *)
Lemma transition_start s ev s' out obj :
  transition s ev s' out → Start obj ∈ out →
  ∃ object_id,
    event_id ev = Some object_id
    ∧ objects_by_id s' !! object_id = Some obj
    ∧ (∃ a', heap s' !! obj = Some a' ∧ ref_mgmt_state a' = STARTING)
    ∧ stopping_objects_by_id s' !! object_id = None
    ∧ OnObjectStarted object_id obj ∈ out
    ∧ (∀ a, heap s !! obj = Some a → ref_mgmt_state a = CREATED).
Proof.
  destruct 1 as [object_id callback Hcur obj0 free|?????|object_id [cb|]|
                 | | | | | |object_id obj0 o a|];
    simpl; intros Hin;
    try (by apply elem_of_nil in Hin);
    try (by apply list_elem_of_singleton in Hin);
    try (by apply list_elem_of_fmap in Hin as (? & ? & ?)).
  - apply elem_of_cons in Hin as [?|Hin]; [done|].
    subst free. case_bool_decide as Hfree; [|by apply elem_of_nil in Hin].
    apply elem_of_cons in Hin as [[= ->]|Hin];
      [|by apply list_elem_of_singleton in Hin].
    exists object_id. split_and!; simpl; try done.
    + subst obj0. by rewrite lookup_insert_eq.
    + subst obj0. rewrite lookup_insert_eq. eauto.
    + set_solver.
    + intros a Ha. exfalso. subst obj0.
      apply (is_fresh (dom (heap s))), elem_of_dom. eauto.
  - apply elem_of_cons in Hin as [[= ->]|Hin];
      [|by apply list_elem_of_singleton in Hin].
    exists object_id. split_and!; simpl; try done.
    + rewrite lookup_insert_eq. eauto.
    + by rewrite lookup_delete_eq.
    + set_solver.
    + intros b Hb. by simplify_eq.
Qed.

(** The current actor of an identifier comes to be [STARTING] only by a
    [start] sent in that step. *)
Lemma handle_started ev s s' out object_id obj a' :
  wf s → handle ev s = Ok (tt, s', out) →
  objects_by_id s' !! object_id = Some obj → heap s' !! obj = Some a' →
  ref_mgmt_state a' = STARTING →
  (∀ a, objects_by_id s !! object_id = Some obj → heap s !! obj = Some a →
        ref_mgmt_state a ≠ STARTING) →
  Start obj ∈ out.
Proof.
  intros Hwf Hrun Hcur' Ha' Hst' Hbefore.
  destruct (decide (event_id ev = Some object_id)) as [Hev|Hev].
  - apply handle_transition in Hrun; [|done].
    destruct Hrun as [i callback Hcur obj0 free|i callback obj0 a Hcur Ha Hst
                     |i callback obj0 a Hcur Ha Hst| |i obj0 a Hcur Ha Hst
                     |i obj0 a Hcur Ha|i obj0 a Hcur Ha|i obj0 a Hcur Ha
                     | |i obj0 o a Hlast Hcur Ha Hst|i obj0 Hlast Hnone];
      simpl in *; simplify_eq;
      rewrite ?lookup_insert_eq, ?lookup_delete_eq in *; simplify_eq/=;
      try (by exfalso; eapply Hbefore);
      try set_solver.
    rewrite lookup_insert_eq in Ha'. simplify_eq/=.
    subst free. case_bool_decide; [set_solver|done].
  - destruct (handle_other ev s s' out object_id Hwf Hrun Hev)
      as (Hobjs & _ & _ & Hheap).
    rewrite Hobjs in Hcur'. rewrite (Hheap _ Hcur') in Ha'.
    exfalso. by eapply Hbefore.
Qed.

Lemma wf_running_not_draining s object_id obj a :
  wf s → objects_by_id s !! object_id = Some obj → heap s !! obj = Some a →
  ref_mgmt_state a ≠ CREATED → stopping_objects_by_id s !! object_id = None.
Proof.
  intros Hwf Hcur Ha Hst.
  destruct (wf_current s Hwf _ _ Hcur) as (b & Hb & [_ _ _ Hcr _]). simplify_eq.
  destruct (stopping_objects_by_id s !! object_id) eqn:Hobjs; [|done].
  destruct Hst. apply Hcr. eauto.
Qed.

Lemma draining_None s object_id :
  stopping_objects_by_id s !! object_id = None → draining s object_id = ∅.
Proof. unfold draining. by intros ->. Qed.


(** *** Callbacks *)
















(** *** Making an actor *)

(** An actor of the store that is [STARTING] or [LIVE] is the current
    actor of its identifier. *)
Lemma transition_running_current s ev s' out :
  wf s → transition s ev s' out →
  (∀ o a, heap s !! o = Some a →
          ref_mgmt_state a = STARTING ∨ ref_mgmt_state a = LIVE →
          ∃ i, _id a = Some i ∧ objects_by_id s !! i = Some o) →
  ∀ o a, heap s' !! o = Some a →
         ref_mgmt_state a = STARTING ∨ ref_mgmt_state a = LIVE →
         ∃ i, _id a = Some i ∧ objects_by_id s' !! i = Some o.
Proof.
  intros Hwf Htrans IH o a'.
  destruct Htrans as [object_id callback Hcur obj0 free
                     |object_id callback obj0 a Hcur Ha Hst
                     |object_id callback obj0 a Hcur Ha Hst
                     |object_id obj0 Hstale
                     |object_id obj0 a Hcur Ha Hst
                     |object_id obj0 a Hcur Ha Hcount
                     |object_id obj0 a Hcur Ha Hcount Hst
                     |object_id obj0 a Hcur Ha Hcount Hst
                     |object_id obj0 Hmore
                     |object_id obj0 x a Hlast Hcur Ha Hst
                     |object_id obj0 Hlast Hnone];
    simpl; try (by apply IH);
    try (destruct (wf_current s Hwf _ _ Hcur) as (b & Hb & [Hid _ _ _ _]);
         simplify_eq);
    match goal with
    | |- <[?k := _]> _ !! _ = _ → _ =>
        destruct (decide (k = o)) as [->|Hne];
        [rewrite lookup_insert_eq; intros [= <-]; simpl
        |rewrite lookup_insert_ne by done; intros Ho Hrun;
         destruct (IH o a' Ho Hrun) as (i & Hi & Hcuri); exists i; split; [done|]]
    end;
    try (by intros [?|?]);
    try (by eauto);
    try (intros _; eexists; split; [done|]; by rewrite lookup_insert_eq).
  - rewrite lookup_insert_ne; [done|]. congruence.
  - simpl in *. intros [?|?]; congruence.
  - rewrite lookup_delete_ne; [done|]. congruence.
  - rewrite lookup_delete_ne; [done|]. congruence.
Qed.

Lemma reachable_running_current s o a :
  reachable s → heap s !! o = Some a →
  ref_mgmt_state a = STARTING ∨ ref_mgmt_state a = LIVE →
  ∃ i, _id a = Some i ∧ objects_by_id s !! i = Some o.
Proof.
  intros Hreach. revert o a. induction Hreach as [|s ev s' out Hreach IH Hrun].
  - intros o a. simpl. by rewrite lookup_empty.
  - apply reachable_wf in Hreach.
    eapply transition_running_current; eauto using handle_transition.
Qed.

(** C6 (as amended). In every state the manager can reach,
    [get_and_incref] returns.  As long as actors of the identifier are
    cleaning up, its current actor is [CREATED].  When the identifier has a
    current actor (which is never [STOPPING]), the same actor stays current,
    its count goes up by one and no actor is made.  An actor is made only
    for the identifier asked for, only when it has no current actor, and
    only one; no actor of that identifier is then [STARTING] or [LIVE] in
    the store.  When actors of the identifier are still cleaning up, the
    actor that is made stays [CREATED] and [start] is not sent to it. *)
Theorem get_and_incref_makes_one_actor s object_id callback :
  reachable s →
  ∃ s' out,
    get_and_incref (Some object_id) callback s = Ok (tt, s', out)
    ∧ (∀ obj a,
         objects_by_id s !! object_id = Some obj → heap s !! obj = Some a →
         draining s object_id ≠ ∅ → ref_mgmt_state a = CREATED)
    ∧ (∀ obj a,
         objects_by_id s !! object_id = Some obj → heap s !! obj = Some a →
         ref_mgmt_state a ≠ STOPPING
         ∧ objects_by_id s' = objects_by_id s
         ∧ heap s' = <[obj := with_count (ref_count a + 1) a]> (heap s)
         ∧ ∀ i o, Create i o ∉ out)
    ∧ (∀ i o,
         Create i o ∈ out →
         i = object_id
         ∧ objects_by_id s !! object_id = None
         ∧ heap s !! o = None
         ∧ objects_by_id s' !! object_id = Some o
         ∧ created object_id out = 1%nat
         ∧ ∀ o' a, heap s !! o' = Some a → _id a = Some object_id →
                   ref_mgmt_state a = CREATED ∨ ref_mgmt_state a = STOPPING)
    ∧ (∀ o,
         Create object_id o ∈ out → draining s object_id ≠ ∅ →
         heap s' !! o = Some {| _id := Some object_id;
                                ref_mgmt_state := CREATED;
                                ref_count := 1 |}
         ∧ out = [Create object_id o]).
Proof.
  intros Hreach. pose proof (reachable_wf s Hreach) as Hwf.
  destruct (get_and_incref_total object_id callback s Hwf) as (s' & out & Hrun).
  exists s', out. split; [done|].
  split.
  { intros obj a Hcur Ha Hdraining.
    destruct (decide (ref_mgmt_state a = CREATED)) as [|Hst]; [done|].
    destruct Hdraining. apply draining_None.
    by apply (wf_running_not_draining s object_id obj a). }
  pose proof (handle_transition (GetAndIncref (Some object_id) callback)
                s s' out Hwf Hrun) as Htrans.
  inversion Htrans as [i callback' Hcur obj0 free
                      |i callback' obj0 a Hcur Ha Hst
                      |i callback' obj0 a Hcur Ha Hst| | | | | | | |];
    subst; simpl.
  - split_and!.
    + intros obj a Hobj. congruence.
    + intros i o [[= -> ->]|Hin]%elem_of_cons; [|destruct free; set_solver].
      split_and!; try done.
      * apply not_elem_of_dom, is_fresh.
      * by rewrite lookup_insert_eq.
      * unfold created. rewrite filter_cons. simpl.
        rewrite decide_True by by rewrite bool_decide_eq_true_2.
        by destruct free.
      * intros o' a Ha Hid.
        destruct (ref_mgmt_state a) eqn:Hst; auto;
          destruct (reachable_running_current s o' a Hreach Ha) as (j & Hj & Hcurj);
          auto; congruence.
    + intros o [[= ->]|Hin]%elem_of_cons Hdraining; [|destruct free; set_solver].
      rewrite lookup_insert_eq. subst free.
      rewrite bool_decide_eq_false_2; [done|].
      intros Hnone. apply Hdraining. unfold draining. by rewrite Hnone.
  - destruct (wf_current s Hwf _ _ Hcur) as (b & Hb & [_ _ Hns _ _]). simplify_eq.
    split_and!.
    + intros obj b ??. simplify_eq. split_and!; try done. set_solver.
    + intros i o Hin. set_solver.
    + intros o Hin. set_solver.
  - destruct (wf_current s Hwf _ _ Hcur) as (b & Hb & [_ _ Hns _ _]). simplify_eq.
    split_and!.
    + intros obj b ??. simplify_eq. split_and!; try done.
      intros i o. destruct callback; set_solver.
    + intros i o Hin. destruct callback; set_solver.
    + intros o Hin. destruct callback; set_solver.
Qed.

(** *** Exceptions *)

Lemma on_object_startup_complete_total object_id obj s :
  wf s → ∃ s' out, on_object_startup_complete object_id obj s = Ok (tt, s', out).
Proof.
  intros Hwf. destruct (decide (objects_by_id s !! object_id = Some obj)) as [Hcur|Hcur].
  - destruct (wf_current s Hwf _ _ Hcur) as (a & Ha & _).
    destruct (decide (ref_mgmt_state a = STARTING)) as [Hst|Hst].
    + rewrite (startup_starting _ _ _ _ Hcur Ha Hst). eauto.
    + rewrite (startup_not_starting _ _ _ _ Hcur Ha Hst). eauto.
  - rewrite (startup_not_current _ _ _ Hcur). eauto.
Qed.

Lemma on_object_cleanup_complete_total object_id obj s :
  wf s → ∃ s' out, on_object_cleanup_complete object_id obj s = Ok (tt, s', out).
Proof.
  intros Hwf. rewrite cleanup_eq. case_bool_decide; [|eauto].
  destruct (objects_by_id s !! object_id) as [o|] eqn:Hcur.
  - destruct (wf_current s Hwf _ _ Hcur) as (a & Ha & _).
    rewrite (maybe_start_Some _ _ o a) by done. case_match; eauto.
  - rewrite maybe_start_None by done. eauto.
Qed.

Lemma decref_total object_id s :
  wf s → is_Some (objects_by_id s !! object_id) →
  ∃ s' out, decref object_id s = Ok (tt, s', out).
Proof.
  intros Hwf [obj Hcur].
  destruct (wf_current s Hwf _ _ Hcur) as (a & Ha & [_ Hcount _ _ _]).
  rewrite (decref_current _ _ _ _ Hcur Ha).
  rewrite bool_decide_eq_true_2 by lia. repeat case_bool_decide; eauto.
Qed.

(** In a state the manager can reach, a handler raises only where the source
    asserts: [get_and_incref] with [None], and [decref] of an identifier
    that has no current actor.  No look-up of an attribute or of a key
    fails. *)
Theorem handlers_raise_only_assertions s ev :
  reachable s →
  (∀ e, handle ev s = Raise e →
        e = AssertionError
        ∧ ((∃ callback, ev = GetAndIncref None callback)
           ∨ ∃ object_id, ev = Decref object_id
                          ∧ objects_by_id s !! object_id = None))
  ∧ ((∀ callback, ev ≠ GetAndIncref None callback) →
     (∀ object_id, ev = Decref object_id →
                   is_Some (objects_by_id s !! object_id)) →
     ∃ s' out, handle ev s = Ok (tt, s', out)).
Proof.
  intros Hwf%reachable_wf.
  assert ((∀ callback, ev ≠ GetAndIncref None callback) →
          (∀ object_id, ev = Decref object_id →
                        is_Some (objects_by_id s !! object_id)) →
          ∃ s' out, handle ev s = Ok (tt, s', out)) as Hok.
  { intros Hnone Hcur.
    destruct ev as [[object_id|] callback|object_id obj|object_id|object_id obj]; simpl.
    - by apply get_and_incref_total.
    - by destruct (Hnone callback).
    - by apply on_object_startup_complete_total.
    - apply decref_total; [done|]. by apply Hcur.
    - by apply on_object_cleanup_complete_total. }
  split; [|done]. intros e Hraise.
  destruct ev as [[object_id|] callback|object_id obj|object_id|object_id obj].
  - destruct Hok as (s' & out & Hrun); [done|done|congruence].
  - simpl in Hraise. injection Hraise as <-. eauto.
  - destruct Hok as (s' & out & Hrun); [done|done|congruence].
  - destruct (objects_by_id s !! object_id) as [o|] eqn:Hcur.
    + destruct Hok as (s' & out & Hrun); [done| |congruence].
      intros ? [= <-]. eauto.
    + simpl in Hraise. rewrite decref_missing in Hraise by done.
      injection Hraise as <-. eauto.
  - destruct Hok as (s' & out & Hrun); [done|done|congruence].
Qed.

(** *** [_is_starting_or_live] *)

(** In a state the manager can reach, [_is_starting_or_live] returns, and
    says yes exactly for an identifier that has a current actor and no actor
    cleaning up. *)
Theorem is_starting_or_live_iff s object_id :
  reachable s →
  ∃ b, _is_starting_or_live object_id s = Ok (b, s, [])
       ∧ (b = true ↔ is_Some (objects_by_id s !! object_id)
                     ∧ draining s object_id = ∅).
Proof.
  intros Hwf%reachable_wf. unfold _is_starting_or_live, getattr, bind, gets, ret.
  destruct (objects_by_id s !! object_id) as [obj|] eqn:Hcur.
  - destruct (wf_current s Hwf _ _ Hcur) as (a & Ha & [_ _ Hns Hcr _]).
    rewrite Ha. eexists. split; [done|].
    rewrite orb_true_iff, !bool_decide_eq_true. split.
    + intros Hst. split; [eauto|]. apply draining_None.
      apply (wf_running_not_draining s object_id obj a); try done.
      destruct Hst; congruence.
    + intros [_ Hdr]. unfold draining in Hdr.
      destruct (stopping_objects_by_id s !! object_id) as [objs|] eqn:Hobjs.
      * simpl in Hdr. subst objs. by destruct (wf_stopping s Hwf _ _ Hobjs).
      * destruct (ref_mgmt_state a) eqn:Hst; auto; [|done].
        destruct Hcr as [Hcr _]. by destruct Hcr.
  - eexists. split; [done|]. split; [done|]. by intros [[? ?] _].
Qed.

(** *** The messages of one actor *)

Lemma sent_nil m : sent m [] = 0%nat.
Proof. done. Qed.

Lemma sent_app m out1 out2 : sent m (out1 ++ out2) = (sent m out1 + sent m out2)%nat.
Proof. unfold sent. by rewrite filter_app, length_app. Qed.

Lemma sent_cons m m' out :
  sent m (m' :: out) = ((if decide (m' = m) then 1 else 0) + sent m out)%nat.
Proof. unfold sent. rewrite filter_cons. by destruct (decide (m' = m)). Qed.

Lemma sent_none m out : m ∉ out → sent m out = 0%nat.
Proof.
  induction out as [|m' out IH]; [done|]. intros Hnot.
  rewrite sent_cons, IH by set_solver. rewrite decide_False; [done|]. set_solver.
Qed.

Lemma made_app obj out1 out2 : made obj (out1 ++ out2) = (made obj out1 + made obj out2)%nat.
Proof. unfold made. by rewrite filter_app, length_app. Qed.

Lemma made_cons obj m out :
  made obj (m :: out) = ((if is_create_of obj m then 1 else 0) + made obj out)%nat.
Proof.
  unfold made. rewrite filter_cons. destruct (is_create_of obj m) eqn:Hm.
  - by rewrite decide_True.
  - by rewrite decide_False.
Qed.

Lemma made_none obj out : (∀ i, Create i obj ∉ out) → made obj out = 0%nat.
Proof.
  induction out as [|m out IH]; [done|]. intros Hnot.
  rewrite made_cons, IH by set_solver.
  destruct m as [i o| | | |]; simpl; try done.
  rewrite bool_decide_eq_false_2; [done|]. intros ->. destruct (Hnot i). set_solver.
Qed.

Ltac count_messages :=
  rewrite ?made_cons, ?sent_cons, ?sent_nil; unfold made; simpl;
  repeat first [case_decide | case_bool_decide]; simplify_eq/=;
  try done; try lia; try (exfalso; congruence).

(** What one step sends to an actor, in terms of the store: [_create]
    brings it into the store, [start] takes it out of [CREATED], and
    [on_unreferenced] makes it [STOPPING]. *)
Lemma transition_messages s ev s' out obj :
  wf s → transition s ev s' out →
  Nat.b2n (bool_decide (is_Some (heap s' !! obj)))
  = (Nat.b2n (bool_decide (is_Some (heap s !! obj))) + made obj out)%nat
  ∧ Nat.b2n (has_started s' obj)
    = (Nat.b2n (has_started s obj) + sent (Start obj) out)%nat
  ∧ Nat.b2n (is_stopping s' obj)
    = (Nat.b2n (is_stopping s obj) + sent (OnUnreferenced obj) out)%nat.
Proof.
  intros Hwf Htrans. unfold has_started, is_stopping.
  assert (∀ i o (c : list Callback),
            made obj ((λ cb, Spawn cb i o) <$> c) = 0%nat
            ∧ sent (Start obj) ((λ cb, Spawn cb i o) <$> c) = 0%nat
            ∧ sent (OnUnreferenced obj) ((λ cb, Spawn cb i o) <$> c) = 0%nat) as Hspawn.
  { intros i o c. split_and!; [apply made_none; intros j|apply sent_none..];
      by intros (? & ? & ?)%list_elem_of_fmap. }
  destruct Htrans as [object_id callback Hcur obj0 free
                     |object_id callback obj0 a Hcur Ha Hst
                     |object_id callback obj0 a Hcur Ha Hst
                     |object_id obj0 Hstale
                     |object_id obj0 a Hcur Ha Hst
                     |object_id obj0 a Hcur Ha Hcount
                     |object_id obj0 a Hcur Ha Hcount Hst
                     |object_id obj0 a Hcur Ha Hcount Hst
                     |object_id obj0 Hmore
                     |object_id obj0 x a Hlast Hcur Ha Hst
                     |object_id obj0 Hlast Hnone];
    simpl.
  - (* a new actor *)
    assert (heap s !! obj0 = None) as Hfresh by apply not_elem_of_dom, is_fresh.
    clearbody obj0. destruct (decide (obj0 = obj)) as [->|Hne].
    + rewrite lookup_insert_eq, Hfresh. simpl. destruct free; count_messages.
    + rewrite lookup_insert_ne by done. destruct free; count_messages.
  - destruct (decide (obj0 = obj)) as [->|Hne];
      [rewrite lookup_insert_eq, Ha|rewrite lookup_insert_ne by done];
      count_messages.
  - destruct (decide (obj0 = obj)) as [->|Hne];
      [rewrite lookup_insert_eq, Ha|rewrite lookup_insert_ne by done];
      destruct callback; count_messages.
  - count_messages.
  - destruct (Hspawn object_id obj0 (elements (pending s object_id))) as (-> & -> & ->).
    destruct (decide (obj0 = obj)) as [->|Hne];
      [rewrite lookup_insert_eq, Ha|rewrite lookup_insert_ne by done];
      count_messages.
  - destruct (decide (obj0 = obj)) as [->|Hne];
      [rewrite lookup_insert_eq, Ha|rewrite lookup_insert_ne by done];
      count_messages.
  - destruct (decide (obj0 = obj)) as [->|Hne];
      [rewrite lookup_insert_eq, Ha|rewrite lookup_insert_ne by done];
      count_messages.
  - destruct (wf_current s Hwf _ _ Hcur) as (b & Hb & [_ _ Hns _ _]). simplify_eq.
    destruct (decide (obj0 = obj)) as [->|Hne];
      [rewrite lookup_insert_eq, Ha|rewrite lookup_insert_ne by done];
      count_messages.
  - count_messages.
  - destruct (decide (x = obj)) as [->|Hne];
      [rewrite lookup_insert_eq, Ha|rewrite lookup_insert_ne by done];
      count_messages.
  - count_messages.
Qed.

Lemma run_messages evs s s' out obj :
  wf s → run evs s = Ok (tt, s', out) →
  Nat.b2n (bool_decide (is_Some (heap s' !! obj)))
  = (Nat.b2n (bool_decide (is_Some (heap s !! obj))) + made obj out)%nat
  ∧ Nat.b2n (has_started s' obj)
    = (Nat.b2n (has_started s obj) + sent (Start obj) out)%nat
  ∧ Nat.b2n (is_stopping s' obj)
    = (Nat.b2n (is_stopping s obj) + sent (OnUnreferenced obj) out)%nat.
Proof.
  revert s out. induction evs as [|ev evs IH]; intros s out Hwf.
  - intros [= <- <-]. rewrite !sent_nil. unfold made. simpl. lia.
  - intros (s1 & out1 & out2 & H1 & H2 & ->)%for_each_cons_Ok.
    destruct (transition_messages s ev s1 out1 obj Hwf) as (Ha & Hb & Hc);
      [by apply handle_transition|].
    destruct (IH s1 out2) as (Ha' & Hb' & Hc'); [by eapply handle_wf|done|].
    rewrite made_app, !sent_app. lia.
Qed.

(** Over any events handled from the start, every actor was made once if it
    is in the store and never otherwise; [start] was sent to it once if it
    has left [CREATED] and never otherwise; [on_unreferenced] was sent to it
    once if it is [STOPPING] and never otherwise.  So none of the three
    happens twice to an actor, [on_unreferenced] is sent only to an actor
    that was started, and [start] only to one that was made. *)
Theorem actor_messages_once evs s out obj :
  run evs init = Ok (tt, s, out) →
  made obj out = Nat.b2n (bool_decide (is_Some (heap s !! obj)))
  ∧ sent (Start obj) out = Nat.b2n (has_started s obj)
  ∧ sent (OnUnreferenced obj) out = Nat.b2n (is_stopping s obj)
  ∧ (sent (OnUnreferenced obj) out ≤ sent (Start obj) out)%nat
  ∧ (sent (Start obj) out ≤ made obj out)%nat
  ∧ (made obj out ≤ 1)%nat.
Proof.
  intros Hrun.
  destruct (run_messages evs init s out obj wf_init Hrun) as (Ha & Hb & Hc).
  unfold has_started, is_stopping in *.
  change (heap init) with (∅ : gmap ActorRef RefCountedActor) in *.
  rewrite lookup_empty in Ha, Hb, Hc.
  rewrite (bool_decide_eq_false_2 (is_Some None)) in Ha
    by (intros [? ?]; discriminate).
  simpl in Ha, Hb, Hc. rewrite <-Ha, <-Hb, <-Hc.
  destruct (heap s !! obj) as [a|]; simpl.
  - destruct (ref_mgmt_state a); simpl; split_and!; try done; lia.
  - split_and!; try done; lia.
Qed.

(** *** What the dictionaries hold *)

Lemma transition_ids_ok s ev s' out :
  transition s ev s' out → ids_ok s → ids_ok s'.
Proof.
  intros Htrans Hids.
  destruct Htrans; try done; intros o' a' Ho'; simpl in Ho';
    try (apply lookup_insert_Some in Ho' as [[<- <-]|[_ Ho']]);
    unfold with_state, with_count; simpl; eauto.
Qed.

Lemma record_callback_lookup object_id callback pend j cbs :
  record_callback object_id callback pend !! j = Some cbs →
  (j = object_id ∧ cbs ≠ ∅) ∨ pend !! j = Some cbs.
Proof.
  destruct callback as [cb|]; simpl; [|by right].
  destruct (decide (object_id = j)) as [->|Hne].
  - rewrite defaultdict_add_lookup. intros [= <-]. left. split; [done|set_solver].
  - rewrite defaultdict_add_lookup_ne by done. by right.
Qed.

Lemma transition_pending_ok s ev s' out :
  transition s ev s' out → pending_ok s → pending_ok s'.
Proof.
  intros Htrans Hpend.
  destruct Htrans; try done; intros j cbs Hj; simpl in Hj |- *;
    try (apply record_callback_lookup in Hj as [[-> ?]|Hj]);
    try (apply lookup_delete_Some in Hj as [? Hj]);
    try (destruct (Hpend j cbs Hj) as [? ?]);
    rewrite ?lookup_insert_eq, ?lookup_delete_ne by done;
    try (split; [done|]); eauto.
  destruct (decide (object_id = j)) as [->|];
    [rewrite lookup_insert_eq; eauto|by rewrite lookup_insert_ne].
Qed.

Lemma transition_draining_ok s ev s' out :
  wf s → transition s ev s' out → draining_ok s → draining_ok s'.
Proof.
  intros Hwf Htrans Hdrain.
  assert (∀ i objs o obj0 j,
            stopping_objects_by_id s !! i = Some objs → o ∈ objs →
            objects_by_id s !! j = Some obj0 → obj0 ≠ o) as Hapart.
  { intros i objs o obj0 j Hi Ho Hj ->. by eapply wf_current_not_draining. }
  assert (∀ i o, o ∈ draining s i →
                 ∃ objs, stopping_objects_by_id s !! i = Some objs ∧ o ∈ objs)
    as Hmem.
  { intros i o. unfold draining.
    destruct (stopping_objects_by_id s !! i); [eauto|set_solver]. }
  destruct Htrans; try done; intros i objs o' Hi Ho'; simpl in Hi |- *.
  - destruct (Hdrain i objs o' Hi Ho') as (a & Ha & ?).
    rewrite lookup_insert_ne; [eauto|].
    intros <-. apply (is_fresh (dom (heap s))), elem_of_dom. eauto.
  - rewrite lookup_insert_ne by eauto. eauto.
  - rewrite lookup_insert_ne by eauto. eauto.
  - rewrite lookup_insert_ne by eauto. eauto.
  - rewrite lookup_insert_ne by eauto. eauto.
  - rewrite lookup_insert_ne by eauto. eauto.
  - destruct (wf_current s Hwf _ _ H) as (b & Hb & [Hid _ _ _ _]).
    simplify_eq.
    apply lookup_insert_Some in Hi as [[<- <-]|[_ Hi]].
    + apply elem_of_union in Ho' as [Ho'| ->%elem_of_singleton].
      * destruct (Hmem _ _ Ho') as (objs & Hobjs & ?).
        rewrite lookup_insert_ne by eauto. eauto.
      * rewrite lookup_insert_eq. eexists. by split.
    + rewrite lookup_insert_ne by eauto. eauto.
  - apply lookup_insert_Some in Hi as [[<- <-]|[_ Hi]]; [|eauto].
    apply elem_of_difference in Ho' as [Ho' _].
    destruct (Hmem _ _ Ho') as (objs & Hobjs & ?). eauto.
  - apply lookup_delete_Some in Hi as [_ Hi].
    rewrite lookup_insert_ne by eauto. eauto.
  - apply lookup_delete_Some in Hi as [_ Hi]. eauto.
Qed.

Lemma reachable_ids_ok s : reachable s → ids_ok s.
Proof.
  induction 1 as [|s ev s' out Hreach IH Hrun]; [by intros o a|].
  eapply transition_ids_ok; eauto using handle_transition, reachable_wf.
Qed.

Lemma reachable_pending_ok s : reachable s → pending_ok s.
Proof.
  induction 1 as [|s ev s' out Hreach IH Hrun]; [by intros o a|].
  eapply transition_pending_ok; eauto using handle_transition, reachable_wf.
Qed.

Lemma reachable_draining_ok s : reachable s → draining_ok s.
Proof.
  induction 1 as [|s ev s' out Hreach IH Hrun]; [by intros i objs o|].
  eapply transition_draining_ok; eauto using handle_transition, reachable_wf.
Qed.

(** The two dictionaries of sets hold no stale entry.  An entry of
    [stopping_objects_by_id] is a non-empty set of actors of that identifier
    that are [STOPPING] and unreferenced; an entry of [pending_ref_callbacks]
    is a non-empty set of callbacks for an identifier whose current actor is
    not yet [LIVE]. *)
Theorem dictionaries_hold_no_stale_entry s :
  reachable s →
  (∀ object_id objs,
     stopping_objects_by_id s !! object_id = Some objs →
     objs ≠ ∅
     ∧ ∀ obj, obj ∈ objs →
         ∃ a, heap s !! obj = Some a ∧ _id a = Some object_id
              ∧ ref_mgmt_state a = STOPPING ∧ ref_count a = 0)
  ∧ (∀ object_id cbs,
       pending_ref_callbacks s !! object_id = Some cbs →
       cbs ≠ ∅
       ∧ ∃ obj a, objects_by_id s !! object_id = Some obj ∧ heap s !! obj = Some a
                  ∧ (ref_mgmt_state a = CREATED ∨ ref_mgmt_state a = STARTING)).
Proof.
  intros Hreach. pose proof (reachable_wf s Hreach) as Hwf. split.
  - intros object_id objs Hobjs.
    destruct (wf_stopping s Hwf _ _ Hobjs) as [Hne Hstop]. split; [done|].
    intros obj Hobj.
    destruct (reachable_draining_ok s Hreach _ _ _ Hobjs Hobj) as (a & Ha & ? & ?).
    destruct (Hstop obj Hobj) as (a' & Ha' & ?). simplify_eq. eauto.
  - intros object_id cbs Hcbs.
    destruct (reachable_pending_ok s Hreach _ _ Hcbs) as [Hne [obj Hobj]].
    split; [done|].
    destruct (wf_current s Hwf _ _ Hobj) as (a & Ha & [_ _ Hns _ Hlive]).
    exists obj, a. split_and!; [done..|].
    destruct (ref_mgmt_state a); try tauto.
    specialize (Hlive eq_refl). congruence.
Qed.

(** *** The actors' calls back into the manager *)

Lemma notify_cleanup_complete_eq store self a object_id :
  store !! self = Some a → _id a = Some object_id →
  Actor._notify_cleanup_complete self store
  = Ok (tt, store, [OnObjectCleanupComplete object_id self]).
Proof.
  intros Ha Hid.
  unfold Actor._notify_cleanup_complete, Actor.manager_method, Actor.self_id,
    Actor.getattr.
  unfold_handler. rewrite Ha. simpl. rewrite Hid. simpl. rewrite Ha, Hid. done.
Qed.

Lemma notify_ready_eq store self a object_id :
  store !! self = Some a → _id a = Some object_id →
  Actor._notify_ready self store
  = Ok (tt, store, [OnObjectStartupComplete object_id self]).
Proof.
  intros Ha Hid.
  unfold Actor._notify_ready, Actor.manager_method, Actor.self_id, Actor.getattr.
  unfold_handler. rewrite Ha. simpl. rewrite Hid. simpl. rewrite Ha, Hid. done.
Qed.

Lemma elem_of_draining s object_id obj :
  obj ∈ draining s object_id →
  ∃ objs, stopping_objects_by_id s !! object_id = Some objs ∧ obj ∈ objs.
Proof.
  unfold draining. destruct (stopping_objects_by_id s !! object_id); [eauto|set_solver].
Qed.

(** An actor that is cleaning up and runs the default [on_unreferenced]
    reports with its own identifier; the manager then takes it, and only it,
    out of the actors cleaning up for the identifier, and starts another
    actor exactly when this was the last one and an actor of the identifier
    is waiting: that actor, and no other. *)
Theorem default_on_unreferenced_releases s object_id obj :
  reachable s → obj ∈ draining s object_id →
  Actor.on_unreferenced obj (heap s)
  = Ok (tt, heap s, [OnObjectCleanupComplete object_id obj])
  ∧ ∃ s' out,
      handle (OnObjectCleanupComplete object_id obj) s = Ok (tt, s', out)
      ∧ draining s' object_id = draining s object_id ∖ {[obj]}
      ∧ (∀ i, i ≠ object_id → draining s' i = draining s i)
      ∧ objects_by_id s' = objects_by_id s
      ∧ ∀ o, Start o ∈ out
             ↔ draining s object_id = {[obj]}
               ∧ objects_by_id s !! object_id = Some o.
Proof.
  intros Hreach Hobj. pose proof (reachable_wf s Hreach) as Hwf.
  destruct (elem_of_draining _ _ _ Hobj) as (objs & Hobjs & Hin).
  destruct (reachable_draining_ok s Hreach _ _ _ Hobjs Hin) as (a & Ha & Hid & _).
  split; [by eapply notify_cleanup_complete_eq|].
  simpl. rewrite cleanup_eq. case_bool_decide as Hlast.
  - assert (draining s object_id = {[obj]}) as Hone.
    { apply set_eq. intros x. rewrite elem_of_singleton.
      split; [|by intros ->]. intros Hx.
      destruct (decide (x = obj)) as [|Hne]; [done|].
      assert (x ∈ draining s object_id ∖ {[obj]}) as Hx'
        by (apply elem_of_difference; split; [done|by rewrite elem_of_singleton]).
      rewrite Hlast in Hx'. by apply not_elem_of_empty in Hx'. }
    destruct (objects_by_id s !! object_id) as [o|] eqn:Hcur.
    + destruct (wf_current s Hwf _ _ Hcur) as (b & Hb & [_ _ _ Hcreated _]).
      erewrite maybe_start_Some by (simpl_state; eauto).
      simpl_state. rewrite lookup_delete_eq.
      rewrite !bool_decide_eq_true_2 by (done || (apply Hcreated; eauto)).
      simpl. eexists _, _. split; [done|]. simpl.
      unfold draining. simpl. rewrite lookup_delete_eq. simpl.
      split_and!; [set_solver| |done|].
      * intros i Hi. by rewrite lookup_delete_ne.
      * intros o'. rewrite !elem_of_cons, elem_of_nil. naive_solver.
    + rewrite maybe_start_None by (simpl_state; done).
      eexists _, _. split; [done|]. simpl_state.
      unfold draining. simpl. rewrite lookup_delete_eq. simpl.
      split_and!; [set_solver| |done|].
      * intros i Hi. by rewrite lookup_delete_ne.
      * intros o'. rewrite elem_of_nil. naive_solver.
  - eexists _, _. split; [done|]. simpl_state.
    unfold draining at 1. simpl. rewrite lookup_insert_eq. simpl.
    split_and!; [done| |done|].
    + intros i Hi. unfold draining. simpl. by rewrite lookup_insert_ne.
    + intros o'. rewrite elem_of_nil. split; [done|].
      intros [Hone _]. rewrite Hone in Hlast. set_solver.
Qed.


Lemma transition_running_ok s ev s' out :
  wf s → transition s ev s' out → running_ok s → running_ok s'.
Proof.
  intros Hwf Htrans Hrun.
  destruct Htrans as [object_id callback Hcur obj0 free
                     |object_id callback obj0 a Hcur Ha Hst
                     |object_id callback obj0 a Hcur Ha Hst
                     |object_id obj0 Hstale
                     |object_id obj0 a Hcur Ha Hst
                     |object_id obj0 a Hcur Ha Hcount
                     |object_id obj0 a Hcur Ha Hcount Hst
                     |object_id obj0 a Hcur Ha Hcount Hst
                     |object_id obj0 Hmore
                     |object_id obj0 x a Hlast Hcur Ha Hst
                     |object_id obj0 Hlast Hnone];
    try done;
    try (destruct (wf_current s Hwf _ _ Hcur) as (b & Hb & [Hid _ _ _ _]);
         simplify_eq);
    intros o' a' Ho' Hst'; simpl in Ho' |- *;
    try (apply lookup_insert_Some in Ho' as [[<- <-]|[Hne Ho']]);
    unfold with_state, with_count in *; simpl in *;
    try (destruct Hst' as [Hst'|Hst']; congruence);
    try (destruct (Hrun o' a' Ho' Hst') as (i & Hi & Hcur'));
    eauto.
  - exists object_id. by rewrite lookup_insert_eq.
  - exists i. split; [done|]. rewrite lookup_insert_ne; [done|congruence].
  - exists i. split; [done|]. rewrite lookup_delete_ne; [done|congruence].
  - exists i. split; [done|]. rewrite lookup_delete_ne; [done|congruence].
Qed.

Lemma reachable_running_ok s : reachable s → running_ok s.
Proof.
  induction 1 as [|s ev s' out Hreach IH Hrun]; [by intros o a|].
  eapply transition_running_ok; eauto using handle_transition, reachable_wf.
Qed.

(** Tearing down a started actor: when the last reference to it is
    returned the manager sends it [on_unreferenced]; the default
    [on_unreferenced] answers with the cleanup notification for the same
    identifier and actor; and once the manager has handled that, nothing is
    left of the identifier in its three dictionaries, so that the next
    [get_and_incref] makes a new actor, not the old one, and starts it at
    once. *)
Theorem teardown_round_trip s object_id obj a :
  reachable s →
  objects_by_id s !! object_id = Some obj → heap s !! obj = Some a →
  ref_count a = 1 → ref_mgmt_state a ≠ CREATED →
  ∃ s1 s2,
    handle (Decref object_id) s = Ok (tt, s1, [OnUnreferenced obj])
    ∧ Actor.on_unreferenced obj (heap s1)
      = Ok (tt, heap s1, [OnObjectCleanupComplete object_id obj])
    ∧ handle (OnObjectCleanupComplete object_id obj) s1 = Ok (tt, s2, [])
    ∧ objects_by_id s2 !! object_id = None
    ∧ stopping_objects_by_id s2 !! object_id = None
    ∧ pending_ref_callbacks s2 !! object_id = None
    ∧ ∀ callback, ∃ s3 obj',
        handle (GetAndIncref (Some object_id) callback) s2
        = Ok (tt, s3, [Create object_id obj'; Start obj';
                       OnObjectStarted object_id obj'])
        ∧ obj' ≠ obj.
Proof.
  intros Hreach Hcur Ha Hcount Hst. pose proof (reachable_wf s Hreach) as Hwf.
  destruct (wf_current s Hwf _ _ Hcur) as (b & Hb & [Hid _ _ _ _]).
  simplify_eq.
  pose proof (wf_running_not_draining s object_id obj a Hwf Hcur Ha Hst) as Hfree.
  eexists _, _. split.
  { simpl. rewrite (decref_current object_id s obj a Hcur Ha), Hcount. simpl.
    rewrite (bool_decide_eq_false_2 (ref_mgmt_state a = CREATED)) by done.
    reflexivity. }
  split.
  { eapply notify_cleanup_complete_eq; simpl;
      [apply lookup_insert_eq|by unfold with_state, with_count]. }
  assert (∀ X : gset ActorRef, (∅ ∪ X) ∖ X = ∅) as Hempty by set_solver.
  split.
  { simpl. rewrite cleanup_eq. unfold draining. simpl.
    rewrite defaultdict_add_lookup, Hfree. simpl.
    rewrite bool_decide_eq_true_2 by apply Hempty.
    rewrite maybe_start_None by (simpl_state; apply lookup_delete_eq).
    reflexivity. }
  simpl_state. rewrite !lookup_delete_eq. split_and!; [done..|].
  intros callback. eexists _, _. split.
  - simpl. rewrite get_and_incref_new by (simpl; apply lookup_delete_eq).
    simpl. rewrite lookup_delete_eq.
    rewrite bool_decide_eq_true_2 by done. reflexivity.
  - simpl. intros Heq.
    apply (is_fresh (dom (<[obj := with_state STOPPING (with_count (1 - 1) a)]>
                             (heap s)))).
    rewrite Heq at 1. apply elem_of_dom. rewrite lookup_insert_eq. eauto.
Qed.

(** An actor of the store that calls [_notify_ready] reports with its own
    identifier.  When it is [STARTING] the manager makes it [LIVE], hands it
    to every callback waiting for the identifier and keeps none of them;
    in every other state the call changes nothing and sends nothing. *)
Theorem notify_ready_effect s obj a :
  reachable s → heap s !! obj = Some a →
  ∃ object_id s' out,
    _id a = Some object_id
    ∧ Actor._notify_ready obj (heap s)
      = Ok (tt, heap s, [OnObjectStartupComplete object_id obj])
    ∧ handle (OnObjectStartupComplete object_id obj) s = Ok (tt, s', out)
    ∧ if bool_decide (ref_mgmt_state a = STARTING)
      then objects_by_id s' !! object_id = Some obj
           ∧ heap s' = <[obj := with_state LIVE a]> (heap s)
           ∧ out = (λ cb, Spawn cb object_id obj) <$> elements (pending s object_id)
           ∧ pending s' object_id = ∅
      else s' = s ∧ out = [].
Proof.
  intros Hreach Ha. pose proof (reachable_wf s Hreach) as Hwf.
  destruct (reachable_ids_ok s Hreach obj a Ha) as [object_id Hid].
  exists object_id.
  case_bool_decide as Hst.
  - destruct (reachable_running_ok s Hreach obj a Ha) as (i & Hi & Hcur); [by left|].
    simplify_eq. eexists _, _. split; [done|].
    split; [by eapply notify_ready_eq|].
    split; [simpl; by apply startup_starting|].
    simpl. unfold pending. simpl. by rewrite lookup_delete_eq.
  - exists s, []. split; [done|].
    split; [by eapply notify_ready_eq|]. split; [|done].
    simpl. destruct (decide (objects_by_id s !! object_id = Some obj)) as [Hcur|Hcur].
    + by eapply startup_not_starting.
    + by apply startup_not_current.
Qed.

(** An actor that is [STARTING] or [LIVE] is the current actor of its
    identifier: no identifier has two running actors, and an actor that is
    no longer current is not running. *)
Theorem running_actor_is_current s obj a :
  reachable s → heap s !! obj = Some a →
  ref_mgmt_state a = STARTING ∨ ref_mgmt_state a = LIVE →
  ∃ object_id,
    _id a = Some object_id ∧ objects_by_id s !! object_id = Some obj
    ∧ ∀ obj' a', heap s !! obj' = Some a' → _id a' = Some object_id →
                 ref_mgmt_state a' = STARTING ∨ ref_mgmt_state a' = LIVE →
                 obj' = obj.
Proof.
  intros Hreach Ha Hst.
  destruct (reachable_running_ok s Hreach obj a Ha Hst) as (i & Hi & Hcur).
  exists i. split_and!; [done..|].
  intros obj' a' Ha' Hi' Hst'.
  destruct (reachable_running_ok s Hreach obj' a' Ha' Hst') as (j & Hj & Hcur').
  congruence.
Qed.


Lemma transition_lifecycle s ev s' out obj a :
  wf s → transition s ev s' out → heap s !! obj = Some a →
  ∃ a', heap s' !! obj = Some a' ∧ _id a' = _id a
        ∧ (state_rank (ref_mgmt_state a) ≤ state_rank (ref_mgmt_state a'))%nat
        ∧ (ref_mgmt_state a = STOPPING → a' = a).
Proof.
  intros Hwf Htrans Ha.
  destruct Htrans as [object_id callback Hcur obj0 free
                     |object_id callback obj0 a0 Hcur Ha0 Hst
                     |object_id callback obj0 a0 Hcur Ha0 Hst
                     |object_id obj0 Hstale
                     |object_id obj0 a0 Hcur Ha0 Hst
                     |object_id obj0 a0 Hcur Ha0 Hcount
                     |object_id obj0 a0 Hcur Ha0 Hcount Hst
                     |object_id obj0 a0 Hcur Ha0 Hcount Hst
                     |object_id obj0 Hmore
                     |object_id obj0 x a0 Hlast Hcur Ha0 Hst
                     |object_id obj0 Hlast Hnone];
    simpl; eauto;
    try (destruct (wf_current s Hwf _ _ Hcur) as (b & Hb & [_ _ Hns _ _]);
         simplify_eq).
  - assert (obj0 ≠ obj).
    { intros <-. apply (is_fresh (dom (heap s))), elem_of_dom. eauto. }
    rewrite lookup_insert_ne by done. eauto.
  - destruct (decide (obj0 = obj)) as [->|Hne];
      [simplify_eq; rewrite lookup_insert_eq|rewrite lookup_insert_ne by done; eauto].
    eexists. split; [done|]. by simpl.
  - destruct (decide (obj0 = obj)) as [->|Hne];
      [simplify_eq; rewrite lookup_insert_eq|rewrite lookup_insert_ne by done; eauto].
    eexists. split; [done|]. by simpl.
  - destruct (decide (obj0 = obj)) as [->|Hne];
      [simplify_eq; rewrite lookup_insert_eq|rewrite lookup_insert_ne by done; eauto].
    eexists. split; [done|]. simpl. rewrite Hst. simpl.
    split_and!; [done|lia|done].
  - destruct (decide (obj0 = obj)) as [->|Hne];
      [simplify_eq; rewrite lookup_insert_eq|rewrite lookup_insert_ne by done; eauto].
    eexists. split; [done|]. by simpl.
  - destruct (decide (obj0 = obj)) as [->|Hne];
      [simplify_eq; rewrite lookup_insert_eq|rewrite lookup_insert_ne by done; eauto].
    eexists. split; [done|]. simpl. split_and!; [done|done|congruence].
  - destruct (decide (obj0 = obj)) as [->|Hne];
      [simplify_eq; rewrite lookup_insert_eq|rewrite lookup_insert_ne by done; eauto].
    eexists. split; [done|]. simpl.
    split_and!; [done| |done].
    match goal with |- (state_rank ?st ≤ _)%nat => destruct st; simpl; lia end.
  - destruct (decide (x = obj)) as [->|Hne];
      [simplify_eq; rewrite lookup_insert_eq|rewrite lookup_insert_ne by done; eauto].
    eexists. split; [done|]. simpl. rewrite Hst. simpl.
    split_and!; [done|lia|done].
Qed.

(** The life of an actor only moves forward: over any events the manager
    handles, an actor keeps its identifier and its state never goes back
    (from [CREATED] through [STARTING] and [LIVE] to [STOPPING]); once it is
    [STOPPING] the manager does not touch it again. *)
Theorem lifecycle_only_advances evs s s' out obj a :
  reachable s → run evs s = Ok (tt, s', out) → heap s !! obj = Some a →
  ∃ a', heap s' !! obj = Some a' ∧ _id a' = _id a
        ∧ (state_rank (ref_mgmt_state a) ≤ state_rank (ref_mgmt_state a'))%nat
        ∧ (ref_mgmt_state a = STOPPING → a' = a).
Proof.
  intros Hwf%reachable_wf. revert s a out Hwf.
  induction evs as [|ev evs IH]; intros s a out Hwf.
  - intros [= <- _] Ha. eauto.
  - intros (s1 & out1 & out2 & H1 & H2 & ->)%for_each_cons_Ok Ha.
    destruct (transition_lifecycle s ev s1 out1 obj a Hwf) as (a1 & Ha1 & Hid & Hr & Hs);
      [by apply handle_transition|done|].
    destruct (IH s1 a1 out2) as (a2 & Ha2 & Hid2 & Hr2 & Hs2);
      [by eapply handle_wf|done|done|].
    exists a2. split_and!; [done|congruence|lia|].
    intros Hst. specialize (Hs Hst). subst a1. auto.
Qed.

(** *** Generations *)

(** What was the case before a step that sends [start]: the identifier had
    no current actor and none cleaning up, and the event asks for it; or
    the event is the clean-up notice of the one actor that was still
    cleaning up for the identifier. *)
Lemma transition_start_before s ev s' out obj :
  wf s → transition s ev s' out → Start obj ∈ out →
  ∃ object_id,
    objects_by_id s' !! object_id = Some obj
    ∧ ((∃ callback, ev = GetAndIncref (Some object_id) callback
                    ∧ objects_by_id s !! object_id = None
                    ∧ draining s object_id = ∅)
       ∨ (∃ o, ev = OnObjectCleanupComplete object_id o
               ∧ objects_by_id s !! object_id = Some obj
               ∧ draining s object_id = {[o]})).
Proof.
  intros Hwf.
  destruct 1 as [object_id callback Hcur obj0 free|?????|object_id [cb|]|
                 | | | | | |object_id obj0 o a Hlast Hcur Ha Hst|];
    simpl; intros Hin;
    try (by apply elem_of_nil in Hin);
    try (by apply list_elem_of_singleton in Hin);
    try (by apply list_elem_of_fmap in Hin as (? & ? & ?)).
  - apply elem_of_cons in Hin as [?|Hin]; [done|].
    subst free. case_bool_decide as Hfree; [|by apply elem_of_nil in Hin].
    apply elem_of_cons in Hin as [[= ->]|Hin];
      [|by apply list_elem_of_singleton in Hin].
    exists object_id. split; [subst obj0; by rewrite lookup_insert_eq|].
    left. exists callback. split_and!; [done..|by apply draining_None].
  - apply elem_of_cons in Hin as [[= ->]|Hin];
      [|by apply list_elem_of_singleton in Hin].
    exists object_id. split; [done|]. right. exists obj0. split_and!; [done..|].
    destruct (wf_current s Hwf _ _ Hcur) as (b & Hb & [_ _ _ Hcreated _]).
    simplify_eq. destruct (proj1 Hcreated Hst) as [objs Hobjs].
    destruct (wf_stopping s Hwf _ _ Hobjs) as [Hne _].
    unfold draining in *. rewrite Hobjs in *. simpl in *.
    apply set_eq. intros x. rewrite elem_of_singleton. split.
    + intros Hx. destruct (decide (x = obj0)) as [|Hxo]; [done|].
      assert (x ∈ objs ∖ {[obj0]}) as Hx'
        by (apply elem_of_difference; split; [done|by rewrite elem_of_singleton]).
      rewrite Hlast in Hx'. by apply not_elem_of_empty in Hx'.
    + intros ->. destruct (decide (obj0 ∈ objs)) as [|Hnot]; [done|].
      exfalso. apply Hne. apply set_eq. intros y. split; [|by intros ?%not_elem_of_empty].
      intros Hy.
      assert (y ∈ objs ∖ {[obj0]}) as Hy'
        by (apply elem_of_difference; split; [done|];
            rewrite elem_of_singleton; by intros ->).
      by rewrite Hlast in Hy'.
Qed.

(** An actor that is cleaning up stays so in every step but the one of its
    own clean-up notice. *)
Lemma transition_draining_stays s ev s' out object_id o :
  transition s ev s' out → o ∈ draining s object_id →
  ev ≠ OnObjectCleanupComplete object_id o → o ∈ draining s' object_id.
Proof.
  destruct 1 as [| | | | | | |i obj0 a Hcur Ha Hcount Hst
                 |i obj0 Hmore
                 |i obj0 x a Hlast Hcur Ha Hst
                 |i obj0 Hlast Hnone];
    try done; intros Ho Hev; unfold draining at 1; simpl.
  - destruct (decide (i = object_id)) as [->|Hne].
    + rewrite lookup_insert_eq. simpl. apply elem_of_union. by left.
    + by rewrite lookup_insert_ne.
  - destruct (decide (i = object_id)) as [->|Hne].
    + rewrite lookup_insert_eq. simpl. apply elem_of_difference. split; [done|].
      rewrite elem_of_singleton. intros ->. by apply Hev.
    + by rewrite lookup_insert_ne.
  - destruct (decide (i = object_id)) as [->|Hne].
    + exfalso.
      assert (o ∈ draining s object_id ∖ {[obj0]}) as Ho'.
      { apply elem_of_difference. split; [done|].
        rewrite elem_of_singleton. intros ->. by apply Hev. }
      rewrite Hlast in Ho'. by apply not_elem_of_empty in Ho'.
    + by rewrite lookup_delete_ne.
  - destruct (decide (i = object_id)) as [->|Hne].
    + exfalso.
      assert (o ∈ draining s object_id ∖ {[obj0]}) as Ho'.
      { apply elem_of_difference. split; [done|].
        rewrite elem_of_singleton. intros ->. by apply Hev. }
      rewrite Hlast in Ho'. by apply not_elem_of_empty in Ho'.
    + by rewrite lookup_delete_ne.
Qed.

(** No step sends [start] for an identifier one of whose actors is cleaning
    up and does not report in that step. *)
Lemma handle_no_start_while_draining s ev s' out object_id o obj :
  wf s → handle ev s = Ok (tt, s', out) → o ∈ draining s object_id →
  ev ≠ OnObjectCleanupComplete object_id o → Start obj ∈ out →
  ∃ i a', i ≠ object_id ∧ objects_by_id s' !! i = Some obj
          ∧ heap s' !! obj = Some a' ∧ _id a' = Some i.
Proof.
  intros Hwf Hrun Ho Hev Hin.
  pose proof (handle_transition ev s s' out Hwf Hrun) as Htrans.
  destruct (transition_start_before s ev s' out obj Hwf Htrans Hin)
    as (i & Hcur' & Hbefore).
  pose proof (handle_wf ev s s' out Hwf Hrun) as Hwf'.
  destruct (wf_current s' Hwf' _ _ Hcur') as (a' & Ha' & [Hid _ _ _ _]).
  exists i, a'. split_and!; try done. intros ->.
  destruct Hbefore as [(cb & _ & _ & Hnone)|(o' & -> & _ & Hone)].
  - rewrite Hnone in Ho. by apply not_elem_of_empty in Ho.
  - rewrite Hone in Ho. apply elem_of_singleton in Ho as ->. by apply Hev.
Qed.

(** An actor keeps its identifier over any events. *)
Lemma run_keeps_id evs s s' out obj a :
  wf s → run evs s = Ok (tt, s', out) → heap s !! obj = Some a →
  ∃ a', heap s' !! obj = Some a' ∧ _id a' = _id a.
Proof.
  revert s a out. induction evs as [|ev evs IH]; intros s a out Hwf.
  - intros [= <- _] Ha. eauto.
  - intros (s1 & out1 & out2 & H1 & H2 & ->)%for_each_cons_Ok Ha.
    destruct (transition_lifecycle s ev s1 out1 obj a Hwf) as (a1 & Ha1 & Hid & _);
      [by apply handle_transition|done|].
    destruct (IH s1 a1 out2) as (a2 & Ha2 & Hid2); [by eapply handle_wf|done|done|].
    exists a2. split; [done|congruence].
Qed.

(** While an actor is cleaning up and has not reported, it stays so and no
    actor of its identifier is sent [start]. *)
Lemma run_no_start_while_draining evs s s' out object_id o :
  wf s → o ∈ draining s object_id →
  OnObjectCleanupComplete object_id o ∉ evs →
  run evs s = Ok (tt, s', out) →
  o ∈ draining s' object_id
  ∧ ∀ obj a, Start obj ∈ out → heap s' !! obj = Some a → _id a ≠ Some object_id.
Proof.
  revert s out. induction evs as [|ev evs IH]; intros s out Hwf Ho Hnot.
  - intros [= <- <-]. split; [done|]. by intros obj a ?%elem_of_nil.
  - intros (s1 & out1 & out2 & H1 & H2 & ->)%for_each_cons_Ok.
    assert (ev ≠ OnObjectCleanupComplete object_id o) as Hev
      by (intros ->; apply Hnot; left).
    assert (OnObjectCleanupComplete object_id o ∉ evs) as Hnot'
      by (intros ?; apply Hnot; by right).
    pose proof (handle_wf ev s s1 out1 Hwf H1) as Hwf1.
    assert (o ∈ draining s1 object_id) as Ho1.
    { apply (transition_draining_stays s ev s1 out1);
        [by apply handle_transition|done|done]. }
    destruct (IH s1 out2 Hwf1 Ho1 Hnot' H2) as [Ho' Hstart]. split; [done|].
    intros obj a [Hin|Hin]%elem_of_app Ha; [|by eapply Hstart].
    destruct (handle_no_start_while_draining s ev s1 out1 object_id o obj
                Hwf H1 Ho Hev Hin) as (i & a1 & Hne & _ & Ha1 & Hid1).
    destruct (run_keeps_id evs s1 s' out2 obj a1 Hwf1 H2 Ha1) as (a' & Ha' & Hid').
    simplify_eq. rewrite Hid', Hid1. congruence.
Qed.

(** C1. In every state the manager can reach, no current actor is
    [STARTING] or [LIVE] while an actor of its identifier is cleaning up.
    In every step from such a state, [start] is sent only to a current
    actor that was [CREATED] (or was made in that step) and whose
    identifier has no actor cleaning up, and a current actor goes from
    [CREATED] to [STARTING] only with [start] sent to it and none cleaning
    up.  An [on_object_cleanup_complete] that leaves no actor of the
    identifier cleaning up removes the entry of the identifier and starts
    its current actor if that one is [CREATED].  Before a step that sends
    [start], either the identifier had no current actor and no actor
    cleaning up, and the step is a [get_and_incref] for it, or the step is
    the clean-up notice of the only actor that was still cleaning up for
    the identifier.  An actor that is cleaning up stays so until the step
    of its own clean-up notice, and over any events before that notice no
    actor of its identifier is sent [start]. *)
Theorem generations_do_not_overlap s :
  reachable s →
  (∀ object_id obj a,
     objects_by_id s !! object_id = Some obj → heap s !! obj = Some a →
     ref_mgmt_state a = STARTING ∨ ref_mgmt_state a = LIVE →
     draining s object_id = ∅)
  ∧ (∀ ev s' out,
       handle ev s = Ok (tt, s', out) →
       (∀ obj, Start obj ∈ out →
          ∃ object_id a',
            objects_by_id s' !! object_id = Some obj
            ∧ heap s' !! obj = Some a' ∧ ref_mgmt_state a' = STARTING
            ∧ draining s' object_id = ∅
            ∧ ∀ a, heap s !! obj = Some a → ref_mgmt_state a = CREATED)
       ∧ (∀ object_id obj a a',
            objects_by_id s !! object_id = Some obj → heap s !! obj = Some a →
            ref_mgmt_state a = CREATED →
            objects_by_id s' !! object_id = Some obj → heap s' !! obj = Some a' →
            ref_mgmt_state a' = STARTING →
            Start obj ∈ out ∧ draining s' object_id = ∅))
  ∧ (∀ object_id obj,
       draining s object_id ∖ {[obj]} = ∅ →
       ∃ s' out,
         on_object_cleanup_complete object_id obj s = Ok (tt, s', out)
         ∧ stopping_objects_by_id s' !! object_id = None
         ∧ ∀ o a,
             objects_by_id s !! object_id = Some o → heap s !! o = Some a →
             ref_mgmt_state a = CREATED →
             heap s' !! o = Some (with_state STARTING a)
             ∧ out = [Start o; OnObjectStarted object_id o])
  ∧ (∀ ev s' out obj,
       handle ev s = Ok (tt, s', out) → Start obj ∈ out →
       ∃ object_id,
         objects_by_id s' !! object_id = Some obj
         ∧ ((∃ callback, ev = GetAndIncref (Some object_id) callback
                         ∧ objects_by_id s !! object_id = None
                         ∧ draining s object_id = ∅)
            ∨ (∃ o, ev = OnObjectCleanupComplete object_id o
                    ∧ objects_by_id s !! object_id = Some obj
                    ∧ draining s object_id = {[o]})))
  ∧ (∀ ev s' out object_id o,
       handle ev s = Ok (tt, s', out) → o ∈ draining s object_id →
       ev ≠ OnObjectCleanupComplete object_id o →
       o ∈ draining s' object_id
       ∧ ∀ obj, Start obj ∈ out → objects_by_id s' !! object_id ≠ Some obj)
  ∧ (∀ evs s' out object_id o,
       o ∈ draining s object_id →
       OnObjectCleanupComplete object_id o ∉ evs →
       run evs s = Ok (tt, s', out) →
       o ∈ draining s' object_id
       ∧ ∀ obj a, Start obj ∈ out → heap s' !! obj = Some a →
                  _id a ≠ Some object_id).
Proof.
  intros Hwf%reachable_wf. split_and!.
  - intros object_id obj a Hcur Ha Hst. apply draining_None.
    apply (wf_running_not_draining s object_id obj a); try done.
    destruct Hst; congruence.
  - intros ev s' out Hrun. pose proof (handle_wf _ _ _ _ Hwf Hrun) as Hwf'. split.
    + intros obj Hin.
      destruct (transition_start s ev s' out obj) as
        (object_id & _ & Hcur' & (a' & Ha' & Hst') & Hstop & _ & Hbefore);
        [by apply handle_transition|done|].
      exists object_id, a'. split_and!; try done. unfold draining. by rewrite Hstop.
    + intros object_id obj a a' Hcur Ha Hst Hcur' Ha' Hst'. split.
      * apply (handle_started ev s s' out object_id obj a'); try done.
        intros b _ Hb. simplify_eq. congruence.
      * apply draining_None.
        apply (wf_running_not_draining s' object_id obj a'); try done. congruence.
  - intros object_id obj Hlast. rewrite cleanup_eq, bool_decide_eq_true_2 by done.
    destruct (objects_by_id s !! object_id) as [o|] eqn:Hcur.
    + destruct (wf_current s Hwf _ _ Hcur) as (a & Ha & _).
      rewrite (maybe_start_Some _ _ o a) by done. simpl.
      rewrite lookup_delete_eq, (bool_decide_eq_true_2 (None = None)) by done.
      rewrite andb_true_r. case_bool_decide as Hst; eexists _, _;
        (split; [done|]); simpl; rewrite lookup_delete_eq; (split; [done|]);
        intros o' a0 ? ? ?; simplify_eq. by rewrite lookup_insert_eq.
    + rewrite maybe_start_None by done. eexists _, _. split; [done|]. simpl.
      by rewrite lookup_delete_eq.
  - intros ev s' out obj Hrun Hin.
    apply (transition_start_before s ev s' out obj); [done| |done].
    by apply handle_transition.
  - intros ev s' out object_id o Hrun Ho Hev. split.
    + apply (transition_draining_stays s ev s' out);
        [by apply handle_transition|done|done].
    + intros obj Hin Hcur'.
      destruct (handle_no_start_while_draining s ev s' out object_id o obj
                  Hwf Hrun Ho Hev Hin) as (i & a' & Hne & Hcur & Ha' & Hid).
      destruct (wf_current s' (handle_wf _ _ _ _ Hwf Hrun) _ _ Hcur')
        as (b & Hb & [Hidb _ _ _ _]).
      by simplify_eq.
  - intros evs s' out object_id o Ho Hnot Hrun.
    by apply (run_no_start_while_draining evs s s' out object_id o).
Qed.

End ManagerFacts.

(** ** The helper *)

Module HelperFacts.
Import Helper.

(** The handlers of the helper raise nothing. *)
Lemma acquire_ref_total obj_id h : ∃ h' out, acquire_ref obj_id h = Ok (tt, h', out).
Proof. unfold_helper. repeat case_bool_decide; simpl; eauto. Qed.

Lemma discard_ref_total obj_id h : ∃ h' out, discard_ref obj_id h = Ok (tt, h', out).
Proof. unfold_helper. repeat case_bool_decide; simpl; eauto. Qed.

Lemma on_ref_acquired_total obj_id obj h :
  ∃ h' out, on_ref_acquired obj_id obj h = Ok (tt, h', out).
Proof.
  unfold_helper. repeat case_bool_decide; simpl;
    repeat (match goal with |- context [if ?b then _ else _] => destruct b end; simpl);
    eauto.
Qed.

Lemma for_each_discard_ref_total xs h :
  ∃ h' out, for_each xs discard_ref h = Ok (tt, h', out).
Proof.
  revert h. induction xs as [|x xs IH]; intros h; simpl; [by eexists _, _|].
  destruct (discard_ref_total x h) as (h1 & out1 & H1).
  destruct (IH h1) as (h2 & out2 & H2).
  unfold bind. rewrite H1, H2. eauto.
Qed.

Lemma handle_total ev h : ∃ h' out, handle ev h = Ok (tt, h', out).
Proof.
  destruct ev; simpl.
  - apply acquire_ref_total.
  - apply discard_ref_total.
  - unfold discard_all, bind, gets.
    destruct (for_each_discard_ref_total (elements (required_refs h)) h)
      as (h' & out & ->). eauto.
  - apply on_ref_acquired_total.
Qed.

(** *** [acquired_refs] stays within [required_refs] *)

Lemma acquire_ref_within obj_id h h' out :
  acquired_within_required h → acquire_ref obj_id h = Ok (tt, h', out) →
  acquired_within_required h'.
Proof.
  unfold acquired_within_required. intros Hin Hrun. unfold_helper.
  repeat case_bool_decide; simplify_eq/=; set_solver.
Qed.

Lemma discard_ref_within obj_id h h' out :
  acquired_within_required h → discard_ref obj_id h = Ok (tt, h', out) →
  acquired_within_required h'.
Proof.
  unfold acquired_within_required. intros Hin Hrun. unfold_helper.
  repeat case_bool_decide; simplify_eq/=; rewrite ?dom_delete_L; set_solver.
Qed.

Lemma discard_all_within h h' out :
  acquired_within_required h → discard_all h = Ok (tt, h', out) →
  acquired_within_required h'.
Proof.
  intros Hin (req & h1 & out1 & out2 & [= <- <- <-] & Hloop & _)%bind_Ok.
  eapply (for_each_invariant acquired_within_required); [|exact Hin|exact Hloop].
  intros x s s' o. apply discard_ref_within.
Qed.

Lemma on_ref_acquired_within obj_id obj h h' out :
  acquired_within_required h → on_ref_acquired obj_id obj h = Ok (tt, h', out) →
  acquired_within_required h'.
Proof.
  unfold acquired_within_required. intros Hin Hrun. unfold_helper.
  case_bool_decide; simpl in *;
    match type of Hrun with context [if ?b then _ else _] => destruct b end;
    simplify_eq/=; rewrite ?dom_insert_L; set_solver.
Qed.

Lemma handle_within ev h h' out :
  acquired_within_required h → handle ev h = Ok (tt, h', out) →
  acquired_within_required h'.
Proof.
  destruct ev; simpl;
    eauto using acquire_ref_within, discard_ref_within, discard_all_within,
      on_ref_acquired_within.
Qed.

Lemma reachable_within h : reachable h → acquired_within_required h.
Proof.
  induction 1 as [|h ev h' out _ IH Hstep].
  - unfold acquired_within_required. simpl. set_solver.
  - eauto using handle_within.
Qed.

(** With no stale key in [acquired_refs], equal lengths are equal sets. *)
Lemma ready_within h :
  acquired_within_required h →
  ready h = true ↔ required_refs h = dom (acquired_refs h).
Proof.
  unfold acquired_within_required, ready. intros Hin.
  rewrite bool_decide_eq_true, <-(size_dom (D:=gset ObjectId)). split.
  - intros Hsize. symmetry. apply set_subseteq_size_eq; [done|lia].
  - by intros ->.
Qed.

(** *** Events about other identifiers *)

Lemma run_total evs h : ∃ h' out, run evs h = Ok (tt, h', out).
Proof.
  revert h. induction evs as [|ev evs IH]; intros h; [by eexists _, _|].
  destruct (handle_total ev h) as (h1 & out1 & H1).
  destruct (IH h1) as (h2 & out2 & H2).
  unfold run in *. simpl. unfold bind. rewrite H1, H2. eauto.
Qed.

Lemma reachable_run evs h out : run evs init = Ok (tt, h, out) → reachable h.
Proof.
  assert (∀ h0, reachable h0 → run evs h0 = Ok (tt, h, out) → reachable h) as Hgen.
  { revert out. induction evs as [|ev evs IH]; intros out h0 Hh0.
    - by intros [= <- _].
    - intros (h1 & out1 & out2 & H1 & H2 & _)%for_each_cons_Ok.
      eapply IH; [|exact H2]. by eapply reachable_step. }
  apply Hgen, reachable_init.
Qed.

Lemma increfs_app i out1 out2 : increfs i (out1 ++ out2) = (increfs i out1 + increfs i out2)%nat.
Proof. unfold increfs. by rewrite filter_app, length_app. Qed.

Lemma decrefs_app i out1 out2 : decrefs i (out1 ++ out2) = (decrefs i out1 + decrefs i out2)%nat.
Proof. unfold decrefs. by rewrite filter_app, length_app. Qed.

(** An event about another identifier leaves the bookkeeping of [obj_id]
    alone and sends no request for it. *)
Lemma handle_frame obj_id ev h h' out :
  mentions obj_id ev = false → handle ev h = Ok (tt, h', out) →
  (obj_id ∈ required_refs h' ↔ obj_id ∈ required_refs h)
  ∧ (obj_id ∈ pending_increfs h' ↔ obj_id ∈ pending_increfs h)
  ∧ increfs obj_id out = 0%nat ∧ decrefs obj_id out = 0%nat.
Proof.
  unfold increfs, decrefs.
  destruct ev as [i|i| |i o]; simpl; [| |done|];
    intros Hne%bool_decide_eq_false Hrun; unfold_helper.
  - repeat case_bool_decide; simplify_eq/=;
      rewrite ?filter_cons, ?filter_nil; simpl;
      repeat case_decide; try case_bool_decide; simplify_eq/=;
      (split_and!; [set_solver..|done|done]).
  - repeat case_bool_decide; simplify_eq/=;
      rewrite ?filter_cons, ?filter_nil; simpl;
      repeat case_decide; try case_bool_decide; simplify_eq/=;
      (split_and!; [set_solver..|done|done]).
  - case_bool_decide; simpl in *;
      match type of Hrun with context [if ?b then _ else _] => destruct b end;
      simplify_eq/=;
      rewrite ?filter_cons, ?filter_nil; simpl;
      repeat case_decide; try case_bool_decide; simplify_eq/=;
      (split_and!; [set_solver..|done|done]).
Qed.

Lemma run_frame obj_id evs h h' out :
  forallb (λ ev, negb (mentions obj_id ev)) evs = true →
  run evs h = Ok (tt, h', out) →
  (obj_id ∈ required_refs h' ↔ obj_id ∈ required_refs h)
  ∧ (obj_id ∈ pending_increfs h' ↔ obj_id ∈ pending_increfs h)
  ∧ increfs obj_id out = 0%nat ∧ decrefs obj_id out = 0%nat.
Proof.
  revert h out. induction evs as [|ev evs IH]; intros h out.
  - by intros _ [= <- <-].
  - simpl. intros [Hev Hevs]%andb_prop
      (h1 & out1 & out2 & H1 & H2 & ->)%for_each_cons_Ok.
    apply negb_true_iff in Hev.
    destruct (handle_frame obj_id ev h h1 out1 Hev H1) as (? & ? & ? & ?).
    destruct (IH h1 out2 Hevs H2) as (? & ? & ? & ?).
    rewrite increfs_app, decrefs_app. split_and!; [tauto|tauto|lia|lia].
Qed.

(** *** The race between [discard_ref] and the callback of the manager *)

Lemma acquire_ref_new obj_id h :
  obj_id ∉ required_refs h →
  ∃ h' out,
    acquire_ref obj_id h = Ok (tt, h', out)
    ∧ obj_id ∈ required_refs h' ∧ obj_id ∈ pending_increfs h'
    ∧ decrefs obj_id out = 0%nat
    ∧ increfs obj_id out
      = (if bool_decide (obj_id ∈ pending_increfs h) then 0 else 1)%nat.
Proof.
  intros Hreq. unfold_helper. rewrite (bool_decide_eq_true_2 _ Hreq). simpl.
  destruct (decide (obj_id ∈ pending_increfs h)) as [Hp|Hp].
  - rewrite (bool_decide_eq_false_2 (obj_id ∉ _)) by tauto.
    rewrite (bool_decide_eq_true_2 _ Hp). simpl.
    eexists _, _. split; [done|]. simpl. split_and!; [set_solver|done|done|done].
  - rewrite (bool_decide_eq_true_2 _ Hp), (bool_decide_eq_false_2 _ Hp). simpl.
    eexists _, _. split; [done|]. simpl. split_and!; [set_solver|set_solver|done|].
    unfold increfs. rewrite filter_cons. simpl.
    rewrite decide_True by by rewrite bool_decide_eq_true_2. done.
Qed.

Lemma discard_ref_deferred obj_id h :
  obj_id ∈ required_refs h → obj_id ∈ pending_increfs h →
  ∃ h',
    discard_ref obj_id h = Ok (tt, h', [])
    ∧ (obj_id ∉ required_refs h') ∧ obj_id ∈ pending_increfs h'
    ∧ acquired_refs h' !! obj_id = None.
Proof.
  intros Hreq Hp. unfold_helper. rewrite (bool_decide_eq_true_2 _ Hreq). simpl.
  rewrite (bool_decide_eq_false_2 (obj_id ∉ _)) by tauto. simpl.
  eexists. split; [done|]. simpl.
  split_and!; [set_solver|done|by rewrite lookup_delete_eq].
Qed.

Lemma on_ref_acquired_unwanted obj_id obj h :
  obj_id ∉ required_refs h →
  on_ref_acquired obj_id obj h
  = Ok (tt, set_pending_increfs (λ p, p ∖ {[obj_id]}) h, [Decref obj_id false]).
Proof.
  intros Hreq. unfold_helper. rewrite (bool_decide_eq_false_2 _ Hreq). simpl.
  unfold ready. simpl. by destruct (bool_decide _).
Qed.

(** C5. Whatever the state of a helper that does not require [obj_id]:
    after [acquire_ref(obj_id)], a [discard_ref(obj_id)] that comes while the
    request is outstanding sends no [decref] (nor does anything in between
    that is about other identifiers); the callback [on_ref_acquired] then
    sends the [decref], and it is the only message it sends.  Over the whole
    sequence exactly one [decref] for [obj_id] reaches the manager, and one
    [get_and_incref] unless one was outstanding already. *)
Theorem discard_before_callback_releases_once h obj_id obj evs1 evs2 :
  obj_id ∉ required_refs h →
  forallb (λ ev, negb (mentions obj_id ev)) (evs1 ++ evs2) = true →
  ∃ h1 out1 h2,
    run (AcquireRef obj_id :: evs1 ++ DiscardRef obj_id :: evs2) h = Ok (tt, h1, out1)
    ∧ decrefs obj_id out1 = 0%nat
    ∧ increfs obj_id out1
      = (if bool_decide (obj_id ∈ pending_increfs h) then 0 else 1)%nat
    ∧ obj_id ∈ pending_increfs h1
    ∧ on_ref_acquired obj_id obj h1 = Ok (tt, h2, [Decref obj_id false])
    ∧ (obj_id ∉ pending_increfs h2) ∧ (obj_id ∉ required_refs h2)
    ∧ acquired_refs h2 !! obj_id = None
    ∧ run (AcquireRef obj_id :: evs1 ++ DiscardRef obj_id :: evs2
           ++ [OnRefAcquired obj_id obj]) h
      = Ok (tt, h2, out1 ++ [Decref obj_id false])
    ∧ decrefs obj_id (out1 ++ [Decref obj_id false]) = 1%nat.
Proof.
  intros Hreq Hothers. rewrite forallb_app in Hothers.
  apply andb_prop in Hothers as [Hevs1 Hevs2].
  destruct (acquire_ref_new obj_id h Hreq) as (ha & outa & Ha & Hra & Hpa & Hda & Hia).
  destruct (run_total evs1 ha) as (hb & outb & Hb).
  destruct (run_frame obj_id evs1 ha hb outb Hevs1 Hb) as (Hrb & Hpb & Hib & Hdb).
  destruct (discard_ref_deferred obj_id hb) as (hc & Hc & Hrc & Hpc & Hac);
    [tauto..|].
  destruct (run_total evs2 hc) as (h1 & outd & Hd).
  destruct (run_frame obj_id evs2 hc h1 outd Hevs2 Hd) as (Hrd & Hpd & Hid & Hdd).
  assert (obj_id ∉ required_refs h1) as Hr1 by tauto.
  assert (run (AcquireRef obj_id :: evs1 ++ DiscardRef obj_id :: evs2) h
          = Ok (tt, h1, outa ++ outb ++ outd)) as Hprefix.
  { apply for_each_cons_intro with ha; [exact Ha|].
    apply for_each_app_intro with hb; [exact Hb|].
    by apply (for_each_cons_intro handle (DiscardRef obj_id) evs2 hb hc h1 []). }
  exists h1, (outa ++ outb ++ outd), (set_pending_increfs (λ p, p ∖ {[obj_id]}) h1).
  rewrite !decrefs_app, !increfs_app, Hda, Hdb, Hdd, Hia, Hib, Hid.
  split_and!; try done.
  - tauto.
  - by apply on_ref_acquired_unwanted.
  - simpl. set_solver.
  - simpl. clear -Hd Hevs2 Hac.
    revert hc outd Hd Hac. induction evs2 as [|ev evs2 IH]; intros hc outd.
    + by intros [= <- _].
    + simpl in Hevs2. apply andb_prop in Hevs2 as [Hev Hevs2].
      apply negb_true_iff in Hev.
      intros (hm & o1 & o2 & H1 & H2 & _)%for_each_cons_Ok Hac.
      apply (IH Hevs2 hm o2 H2).
      destruct ev as [i|i| |i o]; simpl in Hev; [| |done|];
        apply bool_decide_eq_false in Hev; unfold_helper.
      * repeat case_bool_decide; by simplify_eq/=.
      * repeat case_bool_decide; simplify_eq/=; [by rewrite lookup_delete_ne..|done].
      * case_bool_decide; simpl in *;
          match type of H1 with context [if ?b then _ else _] => destruct b end;
          simplify_eq/=; by rewrite ?lookup_insert_ne.
  - replace (AcquireRef obj_id :: evs1 ++ DiscardRef obj_id :: evs2
             ++ [OnRefAcquired obj_id obj])
      with ((AcquireRef obj_id :: evs1 ++ DiscardRef obj_id :: evs2)
            ++ [OnRefAcquired obj_id obj])
      by (simpl; by rewrite <-app_assoc).
    apply for_each_app_intro with h1; [exact Hprefix|].
    simpl. unfold bind, ret. by rewrite (on_ref_acquired_unwanted _ _ _ Hr1).
  - unfold decrefs. simpl. rewrite filter_cons. simpl.
    rewrite decide_True by by rewrite bool_decide_eq_true_2. simpl. lia.
Qed.

(** *** Readiness *)

(** C2. In every state a helper can reach, [ready] holds exactly when
    [required_refs] and the keys of [acquired_refs] are the same set. *)
Theorem ready_iff_set_eq h :
  reachable h → ready h = true ↔ required_refs h = dom (acquired_refs h).
Proof. intros Hreach. by apply ready_within, reachable_within. Qed.

(** C10. The keys of [acquired_refs] are among [required_refs] in every
    state a helper can reach; each of the four operations keeps it so from
    any state where it holds; and where it holds, the comparison of lengths
    made by [ready] decides the equality of the two sets. *)
Theorem acquired_keys_within_required :
  (∀ h, reachable h → dom (acquired_refs h) ⊆ required_refs h)
  ∧ (∀ h ev, dom (acquired_refs h) ⊆ required_refs h →
       ∃ h' out, handle ev h = Ok (tt, h', out)
                 ∧ dom (acquired_refs h') ⊆ required_refs h')
  ∧ (∀ h, dom (acquired_refs h) ⊆ required_refs h →
       ready h = true ↔ required_refs h = dom (acquired_refs h)).
Proof.
  split_and!.
  - apply reachable_within.
  - intros h ev Hin. destruct (handle_total ev h) as (h' & out & Hrun).
    exists h', out. split; [done|]. by eapply handle_within.
  - apply ready_within.
Qed.

Lemma on_ref_acquired_eq obj_id obj h :
  let h1 := set_pending_increfs (λ p, p ∖ {[obj_id]}) h in
  let h' := if bool_decide (obj_id ∈ required_refs h)
            then set_acquired_refs <[obj_id := obj]> h1 else h1 in
  on_ref_acquired obj_id obj h
  = Ok (tt, h',
        (if bool_decide (obj_id ∈ required_refs h) then [] else [Decref obj_id false])
        ++ (if negb (ready h) && ready h' then [ReadyCallback] else [])).
Proof.
  unfold_helper. case_bool_decide; simpl;
    match goal with |- context [negb ?a && ?b] => by destruct (negb a && b) end.
Qed.

Lemma discard_ref_not_ready obj_id h h' out :
  discard_ref obj_id h = Ok (tt, h', out) → Forall (λ m, m ≠ ReadyCallback) out.
Proof.
  intros Hrun. unfold_helper.
  repeat case_bool_decide; simplify_eq/=; repeat constructor; done.
Qed.

(** C9 (as amended). In [on_ref_acquired], from any state a helper can reach, the ready
    callback is called once when [ready] was false on entry and is true
    after the update, and not at all otherwise; when it is called, every
    identifier of [required_refs] has an entry in [acquired_refs]; and no
    other operation of the helper calls it. *)
Theorem ready_callback_on_transition obj_id obj h :
  reachable h →
  ∃ h' out,
    on_ref_acquired obj_id obj h = Ok (tt, h', out)
    ∧ (ready h = false ∧ ready h' = true → readies out = 1%nat)
    ∧ (¬ (ready h = false ∧ ready h' = true) → readies out = 0%nat)
    ∧ (ReadyCallback ∈ out →
       ∀ i, i ∈ required_refs h' → is_Some (acquired_refs h' !! i))
    ∧ (∀ ev h1 out1, handle ev h = Ok (tt, h1, out1) → ReadyCallback ∈ out1 →
       ∃ i o, ev = OnRefAcquired i o).
Proof.
  intros Hreach. pose proof (on_ref_acquired_eq obj_id obj h) as Heq.
  simpl in Heq. eexists _, _. split; [exact Heq|].
  assert (reachable
            (if bool_decide (obj_id ∈ required_refs h)
             then set_acquired_refs <[obj_id := obj]>
                    (set_pending_increfs (λ p, p ∖ {[obj_id]}) h)
             else set_pending_increfs (λ p, p ∖ {[obj_id]}) h)) as Hreach'.
  { eapply reachable_step with (ev := OnRefAcquired obj_id obj); [exact Hreach|].
    exact Heq. }
  set (h' := if bool_decide (obj_id ∈ required_refs h) then _ else _) in *.
  clearbody h'. unfold readies. split_and!.
  - intros [-> ->]. simpl. rewrite filter_app, length_app.
    case_bool_decide; simpl; rewrite ?filter_cons, ?filter_nil; simpl;
      repeat case_decide; simplify_eq/=; done.
  - intros Hno. destruct (ready h) eqn:Hr, (ready h') eqn:Hr'; simpl;
      try (exfalso; apply Hno; done);
      rewrite filter_app, length_app;
      case_bool_decide; simpl; rewrite ?filter_cons, ?filter_nil; simpl;
      repeat case_decide; simplify_eq/=; done.
  - intros Hin i Hi. apply elem_of_dom.
    assert (ready h' = true) as Hr'.
    { apply elem_of_app in Hin as [Hin|Hin].
      - case_bool_decide; set_solver.
      - destruct (ready h'); [done|]. rewrite andb_false_r in Hin. set_solver. }
    apply ready_within in Hr'; [|by apply reachable_within]. by rewrite <-Hr'.
  - intros [i|i| |i o] h1 out1 Hrun Hin; simpl in Hrun; [| | |by eauto]; exfalso.
    + unfold_helper. repeat case_bool_decide; simplify_eq/=; set_solver.
    + apply discard_ref_not_ready in Hrun.
      rewrite Forall_forall in Hrun. by apply (Hrun _ Hin).
    + apply bind_Ok in Hrun as (req & h2 & o1 & o2 & [= <- <- <-] & Hloop & ->).
      simpl in Hin.
      assert (Forall (λ m, m ≠ ReadyCallback) o2) as Hall.
      { eapply (for_each_sends (λ m, m ≠ ReadyCallback)); [|exact Hloop].
        intros x s s' o. apply discard_ref_not_ready. }
      rewrite Forall_forall in Hall. by apply (Hall _ Hin).
Qed.

(** *** The helper's account with the manager *)

Lemma acquire_ref_eq obj_id h :
  acquire_ref obj_id h
  = if bool_decide (obj_id ∈ required_refs h) then Ok (tt, h, [])
    else if bool_decide (obj_id ∈ pending_increfs h)
    then Ok (tt, set_required_refs (λ r, r ∪ {[obj_id]}) h, [])
    else Ok (tt, set_pending_increfs (λ p, p ∪ {[obj_id]})
                   (set_required_refs (λ r, r ∪ {[obj_id]}) h),
             [GetAndIncref obj_id true]).
Proof.
  unfold_helper.
  destruct (decide (obj_id ∈ required_refs h)) as [Hr|Hr].
  - rewrite (bool_decide_eq_false_2 (obj_id ∉ _)) by tauto.
    by rewrite (bool_decide_eq_true_2 _ Hr).
  - rewrite (bool_decide_eq_true_2 _ Hr), (bool_decide_eq_false_2 _ Hr). simpl.
    destruct (decide (obj_id ∈ pending_increfs h)) as [Hp|Hp].
    + rewrite (bool_decide_eq_false_2 (obj_id ∉ _)) by tauto.
      by rewrite (bool_decide_eq_true_2 _ Hp).
    + by rewrite (bool_decide_eq_true_2 _ Hp), (bool_decide_eq_false_2 _ Hp).
Qed.

Lemma discard_ref_eq obj_id h :
  discard_ref obj_id h
  = if bool_decide (obj_id ∈ required_refs h)
    then Ok (tt, set_acquired_refs (delete obj_id)
                   (set_required_refs (λ r, r ∖ {[obj_id]}) h),
             if bool_decide (obj_id ∈ pending_increfs h) then []
             else [Decref obj_id true])
    else Ok (tt, h, []).
Proof.
  unfold_helper. case_bool_decide; simpl; [|done].
  destruct (decide (obj_id ∈ pending_increfs h)) as [Hp|Hp].
  - rewrite (bool_decide_eq_false_2 (obj_id ∉ _)) by tauto.
    by rewrite (bool_decide_eq_true_2 _ Hp).
  - by rewrite (bool_decide_eq_true_2 _ Hp), (bool_decide_eq_false_2 _ Hp).
Qed.

Lemma increfs_cons i m out :
  increfs i (m :: out) = (Nat.b2n (is_incref i m) + increfs i out)%nat.
Proof.
  unfold increfs. rewrite filter_cons.
  destruct (decide (is_incref i m = true)) as [H|H].
  - by rewrite H.
  - apply not_true_is_false in H. by rewrite H.
Qed.
Lemma decrefs_cons i m out :
  decrefs i (m :: out) = (Nat.b2n (is_decref i m) + decrefs i out)%nat.
Proof.
  unfold decrefs. rewrite filter_cons.
  destruct (decide (is_decref i m = true)) as [H|H].
  - by rewrite H.
  - apply not_true_is_false in H. by rewrite H.
Qed.
Lemma increfs_nil i : increfs i [] = 0%nat.
Proof. done. Qed.
Lemma decrefs_nil i : decrefs i [] = 0%nat.
Proof. done. Qed.

Ltac simpl_helper_state :=
  unfold set_required_refs, set_pending_increfs, set_acquired_refs in *;
  simpl in *.

Ltac count_refs :=
  rewrite ?increfs_app, ?decrefs_app, ?increfs_cons, ?decrefs_cons,
    ?increfs_nil, ?decrefs_nil;
  simpl.

Lemma acquire_ref_held x obj_id h h' out :
  acquire_ref obj_id h = Ok (tt, h', out) →
  (held h x + increfs x out = held h' x + decrefs x out)%nat.
Proof.
  rewrite acquire_ref_eq. unfold held.
  repeat case_bool_decide; intros [= <- <-]; simpl; count_refs;
    repeat case_bool_decide; simpl_helper_state; try lia; exfalso;
    try (destruct (decide (x = obj_id))); set_solver.
Qed.

Lemma discard_ref_held x obj_id h h' out :
  discard_ref obj_id h = Ok (tt, h', out) →
  (held h x + increfs x out = held h' x + decrefs x out)%nat.
Proof.
  rewrite discard_ref_eq. unfold held.
  repeat case_bool_decide; intros [= <- <-]; simpl; count_refs;
    repeat case_bool_decide; simpl_helper_state; try lia; exfalso;
    try (destruct (decide (x = obj_id))); set_solver.
Qed.

Lemma on_ref_acquired_held x obj_id obj h h' out :
  obj_id ∈ pending_increfs h →
  on_ref_acquired obj_id obj h = Ok (tt, h', out) →
  (held h x + increfs x out = held h' x + decrefs x out)%nat.
Proof.
  intros Hp. rewrite on_ref_acquired_eq. unfold held.
  intros [= <- <-].
  destruct (negb _ && _); rewrite ?app_nil_r;
    repeat case_bool_decide; simpl; count_refs;
    repeat case_bool_decide; simpl_helper_state; try lia; exfalso;
    try (destruct (decide (x = obj_id))); set_solver.
Qed.

Lemma for_each_discard_ref_held x xs h h' out :
  for_each xs discard_ref h = Ok (tt, h', out) →
  (held h x + increfs x out = held h' x + decrefs x out)%nat.
Proof.
  revert h out. induction xs as [|y xs IH]; intros h out.
  - intros [= <- <-]. count_refs. lia.
  - intros (h1 & out1 & out2 & H1 & H2 & ->)%for_each_cons_Ok.
    apply (discard_ref_held x) in H1. apply IH in H2. count_refs. lia.
Qed.

Lemma handle_held x ev h h' out :
  answers_expected [ev] h = true → handle ev h = Ok (tt, h', out) →
  (held h x + increfs x out = held h' x + decrefs x out)%nat.
Proof.
  destruct ev as [i|i| |i o]; simpl.
  - intros _. apply acquire_ref_held.
  - intros _. apply discard_ref_held.
  - intros _ (req & h1 & out1 & out2 & [= <- <- <-] & Hloop & ->)%bind_Ok.
    by eapply for_each_discard_ref_held.
  - intros [Hp%bool_decide_eq_true _]%andb_true_iff. by apply on_ref_acquired_held.
Qed.

Lemma run_held x evs h h' out :
  answers_expected evs h = true → run evs h = Ok (tt, h', out) →
  (held h x + increfs x out = held h' x + decrefs x out)%nat.
Proof.
  revert h out. induction evs as [|ev evs IH]; intros h out.
  - intros _ [= <- <-]. count_refs. lia.
  - intros Hexp (h1 & out1 & out2 & H1 & H2 & ->)%for_each_cons_Ok.
    simpl in Hexp. rewrite H1 in Hexp.
    apply andb_true_iff in Hexp as [Hev Hexp].
    apply (handle_held x) in H1; [|simpl; rewrite Hev; simpl;
                                     by destruct (handle ev h) as [[[? ?] ?]|]].
    apply IH in H2; [|done]. count_refs. lia.
Qed.

(** The helper's account with the manager balances.  Over any events in
    which each [on_ref_acquired] answers an outstanding request, the helper
    has asked for exactly one reference more than it has returned for each
    identifier it requires or still awaits, and for exactly as many as it
    has returned for every other identifier: it leaks no reference and
    returns none twice. *)
Theorem helper_references_balance evs h out obj_id :
  answers_expected evs init = true → run evs init = Ok (tt, h, out) →
  increfs obj_id out
  = (decrefs obj_id out
     + if bool_decide (obj_id ∈ required_refs h ∨ obj_id ∈ pending_increfs h)
       then 1 else 0)%nat.
Proof.
  intros Hexp Hrun. pose proof (run_held obj_id evs init h out Hexp Hrun) as H.
  unfold held in H. simpl in H.
  rewrite (bool_decide_eq_false_2 (obj_id ∈ ∅ ∨ obj_id ∈ ∅)) in H by set_solver.
  lia.
Qed.

(** *** [discard_all] *)

Lemma for_each_discard_ref_eq xs h :
  NoDup xs → (∀ x, x ∈ xs → x ∈ required_refs h) →
  ∃ h',
    for_each xs discard_ref h
    = Ok (tt, h', (λ x, Decref x true) <$> filter (λ x, x ∉ pending_increfs h) xs)
    ∧ required_refs h' = required_refs h ∖ list_to_set xs
    ∧ pending_increfs h' = pending_increfs h
    ∧ ∀ i, acquired_refs h' !! i
           = if decide (i ∈ xs) then None else acquired_refs h !! i.
Proof.
  revert h. induction xs as [|x xs IH]; intros h Hnodup Hreq.
  - exists h. split_and!; [done|set_solver|done|].
    intros i. destruct (decide (i ∈ [])) as [Hi|]; [by apply elem_of_nil in Hi|done].
  - apply NoDup_cons in Hnodup as [Hx Hnodup].
    pose proof (discard_ref_eq x h) as H1.
    rewrite bool_decide_eq_true_2 in H1 by (apply Hreq; left).
    destruct (IH (set_acquired_refs (delete x)
                    (set_required_refs (λ r, r ∖ {[x]}) h)) Hnodup)
      as (h' & H2 & Hr & Hp & Ha).
    { intros y Hy. simpl. apply elem_of_difference. split; [apply Hreq; by right|].
      rewrite elem_of_singleton. by intros ->. }
    exists h'. split.
    { rewrite (for_each_cons_intro _ _ _ _ _ _ _ _ H1 H2).
      rewrite filter_cons. simpl_helper_state.
      destruct (decide (x ∈ pending_increfs h)) as [Hpx|Hpx].
      - rewrite bool_decide_eq_true_2 by done.
        by rewrite decide_False by tauto.
      - rewrite bool_decide_eq_false_2 by done.
        by rewrite decide_True by done. }
    simpl in *. split_and!; [set_solver|done|].
    intros i. rewrite Ha.
    destruct (decide (i ∈ xs)) as [Hi|Hi];
      destruct (decide (i ∈ x :: xs)) as [Hi'|Hi']; try done.
    + exfalso. apply Hi'. by right.
    + apply elem_of_cons in Hi' as [->|?]; [apply lookup_delete_eq|done].
    + rewrite lookup_delete_ne; [done|]. intros ->. apply Hi'. left.
Qed.

(** [discard_all] gives up everything at once: afterwards nothing is
    required and nothing is kept, the outstanding requests are as before,
    and the manager is sent one asynchronous [decref] for each identifier
    that was required and not awaited, and nothing else.  The helper is
    then ready, without the ready callback. *)
Theorem discard_all_releases_all h :
  reachable h →
  ∃ h',
    discard_all h
    = Ok (tt, h',
          (λ x, Decref x true)
            <$> filter (λ x, x ∉ pending_increfs h) (elements (required_refs h)))
    ∧ required_refs h' = ∅ ∧ acquired_refs h' = ∅
    ∧ pending_increfs h' = pending_increfs h
    ∧ ready h' = true.
Proof.
  intros Hreach.
  destruct (for_each_discard_ref_eq (elements (required_refs h)) h)
    as (h' & Hrun & Hr & Hp & Ha); [apply NoDup_elements|set_solver|].
  assert (acquired_refs h' = ∅) as Hempty.
  { apply map_eq. intros i. rewrite Ha, lookup_empty.
    destruct (decide (i ∈ elements (required_refs h))) as [|Hi]; [done|].
    apply not_elem_of_dom. intros Hdom.
    apply Hi, elem_of_elements, (reachable_within h Hreach i Hdom). }
  assert (required_refs h' = ∅) as Hnone by set_solver.
  exists h'. split_and!; try done.
  - unfold discard_all, bind, gets. by rewrite Hrun.
  - unfold ready. by rewrite Hnone, Hempty.
Qed.

(** *** Calling twice *)

(** [acquire_ref] and [discard_ref] are idempotent: a second call with the
    same identifier, right after the first, changes nothing and sends
    nothing.  After [acquire_ref] the identifier is required; after
    [discard_ref] it is not, and no reference is kept for it. *)
Theorem acquire_and_discard_idempotent obj_id h :
  (∃ h1 out1,
     acquire_ref obj_id h = Ok (tt, h1, out1)
     ∧ acquire_ref obj_id h1 = Ok (tt, h1, [])
     ∧ obj_id ∈ required_refs h1)
  ∧ (∃ h1 out1,
       discard_ref obj_id h = Ok (tt, h1, out1)
       ∧ discard_ref obj_id h1 = Ok (tt, h1, [])
       ∧ (obj_id ∉ required_refs h1)
       ∧ (acquired_within_required h → acquired_refs h1 !! obj_id = None)).
Proof.
  split.
  - rewrite acquire_ref_eq.
    repeat case_bool_decide; eexists _, _; (split; [done|]);
      rewrite acquire_ref_eq; simpl_helper_state;
      (rewrite bool_decide_eq_true_2 by set_solver); (split; [done|set_solver]).
  - rewrite discard_ref_eq.
    case_bool_decide as Hr; eexists _, _; (split; [done|]);
      rewrite discard_ref_eq; simpl_helper_state;
      (rewrite bool_decide_eq_false_2 by set_solver);
      (split_and!; [done|set_solver|]).
    + intros _. apply lookup_delete_eq.
    + intros Hin. apply not_elem_of_dom. intros Hdom. by apply Hr, Hin.
Qed.

(** *** Required, awaited, acquired *)


Lemma acquire_ref_accounted obj_id h h' out :
  acquired_within_required h → accounted h →
  acquire_ref obj_id h = Ok (tt, h', out) → accounted h'.
Proof.
  intros Hin [Hp Hr]. rewrite acquire_ref_eq.
  assert (obj_id ∉ required_refs h → acquired_refs h !! obj_id = None) as Hnone.
  { intros Hreq. apply not_elem_of_dom. intros Hdom. by apply Hreq, Hin. }
  repeat case_bool_decide; intros [= <- <-]; simpl_helper_state; [done|..];
    (split; intros i Hi; [|apply elem_of_union in Hi as [Hi| ->%elem_of_singleton]]);
    try set_solver.
Qed.

Lemma discard_ref_accounted obj_id h h' out :
  accounted h → discard_ref obj_id h = Ok (tt, h', out) → accounted h'.
Proof.
  intros [Hp Hr]. rewrite discard_ref_eq.
  case_bool_decide; intros [= <- <-]; unfold accounted; simpl_helper_state;
    [|done].
  split; intros i Hi.
  - destruct (decide (i = obj_id)) as [->|Hne];
      [apply lookup_delete_eq|rewrite lookup_delete_ne by done; auto].
  - apply elem_of_difference in Hi as [Hi Hne%not_elem_of_singleton].
    rewrite lookup_delete_ne by done. auto.
Qed.

Lemma on_ref_acquired_accounted obj_id obj h h' out :
  accounted h → on_ref_acquired obj_id obj h = Ok (tt, h', out) → accounted h'.
Proof.
  intros [Hp Hr]. rewrite on_ref_acquired_eq. intros [= <- _].
  unfold accounted. case_bool_decide; simpl_helper_state; split; intros i Hi.
  - apply elem_of_difference in Hi as [Hi Hne%not_elem_of_singleton].
    rewrite lookup_insert_ne by done. auto.
  - destruct (decide (i = obj_id)) as [->|Hne].
    + left. rewrite lookup_insert_eq. eauto.
    + rewrite lookup_insert_ne by done.
      destruct (Hr i Hi); [by left|right; set_solver].
  - apply elem_of_difference in Hi as [Hi _]. auto.
  - destruct (Hr i Hi); [by left|right; set_solver].
Qed.

Lemma handle_accounted ev h h' out :
  acquired_within_required h → accounted h →
  handle ev h = Ok (tt, h', out) → accounted h'.
Proof.
  intros Hin Hacc. destruct ev as [i|i| |i o]; simpl.
  - by apply acquire_ref_accounted.
  - by apply discard_ref_accounted.
  - intros (req & h1 & out1 & out2 & [= <- <- <-] & Hloop & ->)%bind_Ok.
    eapply (for_each_invariant accounted); [|exact Hacc|exact Hloop].
    intros x s s' o. apply discard_ref_accounted.
  - by apply on_ref_acquired_accounted.
Qed.

Lemma reachable_accounted h : reachable h → accounted h.
Proof.
  induction 1 as [|h ev h' out Hreach IH Hrun]; [split; set_solver|].
  eapply handle_accounted; eauto using reachable_within.
Qed.

(** Every required identifier is either acquired or awaited, never both:
    a reference is kept only for an identifier with no outstanding request,
    and the helper is ready exactly when it awaits none of the identifiers
    it requires. *)
Theorem required_acquired_or_awaited h :
  reachable h →
  (∀ i, i ∈ required_refs h →
        (is_Some (acquired_refs h !! i) ∧ i ∉ pending_increfs h)
        ∨ (acquired_refs h !! i = None ∧ i ∈ pending_increfs h))
  ∧ (ready h = true ↔ ∀ i, i ∈ required_refs h → i ∉ pending_increfs h).
Proof.
  intros Hreach. destruct (reachable_accounted h Hreach) as [Hp Hr].
  pose proof (reachable_within h Hreach) as Hin.
  assert (∀ i, i ∈ required_refs h →
               (is_Some (acquired_refs h !! i) ∧ i ∉ pending_increfs h)
               ∨ (acquired_refs h !! i = None ∧ i ∈ pending_increfs h)) as Hcases.
  { intros i Hi. destruct (decide (i ∈ pending_increfs h)) as [Hpi|Hpi].
    - right. auto.
    - left. destruct (Hr i Hi); [done|tauto]. }
  split; [done|]. rewrite (ready_within h Hin). split.
  - intros Heq i Hi Hpi. rewrite Heq in Hi.
    apply elem_of_dom in Hi as [o Ho]. rewrite (Hp i Hpi) in Ho. done.
  - intros Hnone. apply set_eq. intros i. split; [|apply Hin].
    intros Hi. apply elem_of_dom.
    destruct (Hcases i Hi) as [[? _]|[_ ?]]; [done|]. by destruct (Hnone i Hi).
Qed.

(** *** What [iteritems] yields *)

Lemma handle_acquired_from ev h h' out i o :
  handle ev h = Ok (tt, h', out) → acquired_refs h' !! i = Some o →
  acquired_refs h !! i = Some o ∨ ev = OnRefAcquired i o.
Proof.
  destruct ev as [j|j| |j o']; simpl.
  - rewrite acquire_ref_eq. repeat case_bool_decide; intros [= <- _]; by left.
  - rewrite discard_ref_eq. case_bool_decide; intros [= <- _]; simpl; [|by left].
    intros [_ ?]%lookup_delete_Some. by left.
  - intros (req & h1 & out1 & out2 & [= <- <- <-] & Hloop & ->)%bind_Ok Hi. left.
    revert Hi.
    eapply (for_each_invariant
              (λ h1, acquired_refs h1 !! i = Some o → acquired_refs h !! i = Some o));
      [|done|exact Hloop].
    intros x s s' out' IH. rewrite discard_ref_eq.
    case_bool_decide; intros [= <- _]; simpl; [|done].
    intros [_ ?]%lookup_delete_Some. auto.
  - rewrite on_ref_acquired_eq. intros [= <- _].
    case_bool_decide; simpl; [|by left].
    intros [[-> ->]|[_ ?]]%lookup_insert_Some; [by right|by left].
Qed.

Lemma run_acquired_from evs h h' out i o :
  run evs h = Ok (tt, h', out) → acquired_refs h' !! i = Some o →
  acquired_refs h !! i = Some o ∨ OnRefAcquired i o ∈ evs.
Proof.
  revert h out. induction evs as [|ev evs IH]; intros h out.
  - intros [= <- _]. by left.
  - intros (h1 & out1 & out2 & H1 & H2 & ->)%for_each_cons_Ok Hi.
    destruct (IH _ _ H2 Hi) as [Hi1|Hin]; [|right; by right].
    destruct (handle_acquired_from _ _ _ _ _ _ H1 Hi1) as [?| ->];
      [by left|right; left].
Qed.

(** [iteritems] yields each identifier at most once, and a pair only for an
    identifier that is required and not awaited, with an actor that
    [on_ref_acquired] delivered for it.  When the helper is ready it yields
    exactly the required identifiers. *)
Theorem iteritems_yields_delivered evs h out :
  run evs init = Ok (tt, h, out) →
  NoDup (iteritems h).*1
  ∧ (∀ i o, (i, o) ∈ iteritems h →
            i ∈ required_refs h ∧ (i ∉ pending_increfs h)
            ∧ OnRefAcquired i o ∈ evs)
  ∧ (ready h = true → (iteritems h).*1 ≡ₚ elements (required_refs h)).
Proof.
  intros Hrun. pose proof (reachable_run evs h out Hrun) as Hreach.
  pose proof (reachable_within h Hreach) as Hin.
  destruct (reachable_accounted h Hreach) as [Hp _].
  unfold iteritems. split_and!.
  - apply NoDup_fst_map_to_list.
  - intros i o Hio%elem_of_map_to_list. split_and!.
    + apply Hin, elem_of_dom. eauto.
    + intros Hpi. by rewrite (Hp i Hpi) in Hio.
    + destruct (run_acquired_from _ _ _ _ _ _ Hrun Hio) as [Hinit|?]; [|done].
      simpl in Hinit. by rewrite lookup_empty in Hinit.
  - intros Hready%(ready_within h Hin).
    apply NoDup_Permutation; [apply NoDup_fst_map_to_list|apply NoDup_elements|].
    intros i. rewrite elem_of_elements, Hready, elem_of_dom, list_elem_of_fmap.
    split.
    + intros ([i' o] & -> & Hio%elem_of_map_to_list). eauto.
    + intros [o Hio]. exists (i, o). split; [done|by apply elem_of_map_to_list].
Qed.

(** *** Why each message is sent *)

(** What a handler sends, and when.  A request to the manager is
    asynchronous and comes from [acquire_ref] of an identifier neither
    required nor awaited; an asynchronous [decref] comes from [discard_ref]
    or [discard_all] of a required identifier that is not awaited; the
    [decref] of [on_ref_acquired], for a delivery that is no longer required,
    is the only call to the manager made without [async]; the ready callback
    comes from [on_ref_acquired] alone. *)
Theorem helper_messages_explained ev h h' out m :
  handle ev h = Ok (tt, h', out) → m ∈ out →
  match m with
  | GetAndIncref i async =>
      async = true ∧ ev = AcquireRef i
      ∧ (i ∉ required_refs h) ∧ i ∉ pending_increfs h
  | Decref i true =>
      (ev = DiscardRef i ∨ ev = DiscardAll)
      ∧ i ∈ required_refs h ∧ i ∉ pending_increfs h
  | Decref i false => ∃ o, ev = OnRefAcquired i o ∧ i ∉ required_refs h
  | ReadyCallback => ∃ i o, ev = OnRefAcquired i o
  end.
Proof.
  destruct ev as [j|j| |j o]; simpl.
  - rewrite acquire_ref_eq.
    repeat case_bool_decide; intros [= <- <-]; try by intros ?%elem_of_nil.
    by intros ->%list_elem_of_singleton.
  - rewrite discard_ref_eq.
    repeat case_bool_decide; intros [= <- <-]; try by intros ?%elem_of_nil.
    intros ->%list_elem_of_singleton. auto.
  - intros Hrun.
    destruct (for_each_discard_ref_eq (elements (required_refs h)) h)
      as (h1 & Hloop & _); [apply NoDup_elements|set_solver|].
    unfold discard_all, bind, gets in Hrun. rewrite Hloop in Hrun.
    injection Hrun as <- <-.
    intros (x & -> & [Hp Hx%elem_of_elements]%list_elem_of_filter)%list_elem_of_fmap.
    auto.
  - rewrite on_ref_acquired_eq. intros [= <- <-].
    case_bool_decide; destruct (negb _ && _); simpl;
      rewrite ?elem_of_cons, ?elem_of_nil; intros Hm;
      destruct_or?; simplify_eq; eauto.
Qed.

End HelperFacts.

(** * Examples

    The theorems above at runs of the manager and of a helper. *)

Module ManagerExamples.
Import Manager ManagerFacts.
Local Open Scope string_scope.

(** The state after any events is one the manager can reach. *)
Lemma state_after_reachable evs : reachable (state_after evs).
Proof.
  unfold state_after. destruct (run evs init) as [[[[] s] out]|] eqn:Hrun.
  - by eapply run_reachable.
  - apply reachable_init.
Qed.

(** C1 with the first actor of ["C"] cleaning up and a second one waiting:
    until the first reports it stays so, whatever else arrives; its own
    notice starts the second. *)
Lemma generations_do_not_overlap_witness :
  reachable (state_after [GetAndIncref (Some "C") None;
                          OnObjectStartupComplete "C" 0%nat; Decref "C";
                          GetAndIncref (Some "C") None])
  ∧ (∃ s' out,
       run [GetAndIncref (Some "C") None; OnObjectCleanupComplete "C" 1%nat]
         (state_after [GetAndIncref (Some "C") None;
                       OnObjectStartupComplete "C" 0%nat; Decref "C";
                       GetAndIncref (Some "C") None]) = Ok (tt, s', out)
       ∧ 0%nat ∈ draining s' "C")
  ∧ ∃ s' out,
      on_object_cleanup_complete "C" 0%nat
        (state_after [GetAndIncref (Some "C") None;
                      OnObjectStartupComplete "C" 0%nat; Decref "C";
                      GetAndIncref (Some "C") None]) = Ok (tt, s', out)
      ∧ out = [Start 1%nat; OnObjectStarted "C" 1%nat].
Proof.
  pose proof (generations_do_not_overlap _ (state_after_reachable
                [GetAndIncref (Some "C") None;
                 OnObjectStartupComplete "C" 0%nat; Decref "C";
                 GetAndIncref (Some "C") None]))
    as (_ & _ & Hlast & _ & _ & Hrun).
  assert (draining (state_after [GetAndIncref (Some "C") None;
                                 OnObjectStartupComplete "C" 0%nat; Decref "C";
                                 GetAndIncref (Some "C") None]) "C"
          = {[0%nat]}) as Hd by (vm_compute; reflexivity).
  split; [apply state_after_reachable|]. split.
  - assert (∃ s' out,
              run [GetAndIncref (Some "C") None; OnObjectCleanupComplete "C" 1%nat]
                (state_after [GetAndIncref (Some "C") None;
                              OnObjectStartupComplete "C" 0%nat; Decref "C";
                              GetAndIncref (Some "C") None]) = Ok (tt, s', out))
      as (s' & out & Hok) by (eexists _, _; vm_compute; reflexivity).
    exists s', out. split; [exact Hok|].
    apply (Hrun [GetAndIncref (Some "C") None; OnObjectCleanupComplete "C" 1%nat]
             s' out "C" 0%nat); [| |exact Hok].
    + rewrite Hd. by apply elem_of_singleton.
    + intros Hin. apply elem_of_cons in Hin as [Hin|Hin]; [discriminate|].
      apply elem_of_cons in Hin as [Hin|Hin]; [discriminate|].
      by apply elem_of_nil in Hin.
  - destruct (Hlast "C" 0%nat) as (s' & out & Hok & _ & Hstart).
    + rewrite Hd. apply set_eq. intros x.
      rewrite elem_of_difference, elem_of_singleton.
      split; [tauto|by intros ?%not_elem_of_empty].
    + exists s', out. split; [exact Hok|].
      apply (Hstart 1%nat {| _id := Some "C"; ref_mgmt_state := CREATED;
                             ref_count := 1 |});
        [vm_compute; reflexivity|vm_compute; reflexivity|reflexivity].
Defined.



(** C6 (as amended) with the first actor of ["C"] cleaning up. *)
Lemma get_and_incref_makes_one_actor_witness :
  reachable (state_after [GetAndIncref (Some "C") None;
                          OnObjectStartupComplete "C" 0%nat; Decref "C"])
  ∧ ∃ s' out,
      get_and_incref (Some "C") None
        (state_after [GetAndIncref (Some "C") None;
                      OnObjectStartupComplete "C" 0%nat; Decref "C"])
      = Ok (tt, s', out).
Proof.
  split; [apply state_after_reachable|].
  destruct (get_and_incref_makes_one_actor _ "C" None (state_after_reachable
              [GetAndIncref (Some "C") None;
               OnObjectStartupComplete "C" 0%nat; Decref "C"]))
    as (s' & out & Hrun & _).
  by exists s', out.
Defined.

(** C7 for a clean-up notice of an actor that is not cleaning up. *)
Lemma stale_upcalls_ignored_witness :
  reachable (state_after [GetAndIncref (Some "C") None;
                          OnObjectStartupComplete "C" 0%nat])
  ∧ on_object_cleanup_complete "C" 0%nat
      (state_after [GetAndIncref (Some "C") None;
                    OnObjectStartupComplete "C" 0%nat])
    = Ok (tt, state_after [GetAndIncref (Some "C") None;
                           OnObjectStartupComplete "C" 0%nat], []).
Proof.
  split; [apply state_after_reachable|].
  apply (proj2 (stale_upcalls_ignored _ "C" 0%nat (state_after_reachable _))).
  vm_compute. set_solver.
Defined.

(** C8 for two [get_and_incref] and one [decref]. *)
Lemma reference_counts_safe_witness :
  (0 ≤ balance "A" [GetAndIncref (Some "A") None; GetAndIncref (Some "A") None;
                    Decref "A"])%Z.
Proof.
  refine (proj1 (proj2 (proj2 (proj2 reference_counts_safe)) _ _ _ "A" _)).
  vm_compute. reflexivity.
Defined.


(** C6, as first stated, fails: with the first actor of ["C"] still
    cleaning up, [get_and_incref] makes a second one. *)
Lemma second_actor_made_while_first_cleans_up :
  ∃ s s' out,
    run [GetAndIncref (Some "C") None;
         OnObjectStartupComplete "C" 0%nat;
         Decref "C"] init = Ok (tt, s, out)
    ∧ draining s "C" = {[0%nat]}
    ∧ get_and_incref (Some "C") None s = Ok (tt, s', [Create "C" 1%nat]).
Proof.
  eexists _, _, _. split_and!.
  - vm_compute. reflexivity.
  - vm_compute. reflexivity.
  - vm_compute. reflexivity.
Qed.


(** Only the two asserted cases raise: a first [get_and_incref] returns. *)
Lemma handlers_raise_only_assertions_witness :
  reachable init
  ∧ ∃ s' out, handle (GetAndIncref (Some "A") None) init = Ok (tt, s', out).
Proof.
  split; [apply reachable_init|].
  apply (proj2 (handlers_raise_only_assertions init
                  (GetAndIncref (Some "A") None) reachable_init)).
  - intros callback. discriminate.
  - intros object_id. discriminate.
Defined.

(** [_is_starting_or_live] returns after one [get_and_incref]. *)
Lemma is_starting_or_live_iff_witness :
  reachable (state_after [GetAndIncref (Some "C") None])
  ∧ ∃ b, _is_starting_or_live "C" (state_after [GetAndIncref (Some "C") None])
         = Ok (b, state_after [GetAndIncref (Some "C") None], []).
Proof.
  split; [apply state_after_reachable|].
  destruct (is_starting_or_live_iff _ "C"
              (state_after_reachable [GetAndIncref (Some "C") None]))
    as (b & Hrun & _).
  by exists b.
Defined.

(** The messages to the first actor of ["C"], made, started and released. *)
Lemma actor_messages_once_witness :
  ∃ s out,
    run [GetAndIncref (Some "C") None; OnObjectStartupComplete "C" 0%nat;
         Decref "C"] init = Ok (tt, s, out)
    ∧ made 0%nat out = 1%nat ∧ sent (Start 0%nat) out = 1%nat
    ∧ sent (OnUnreferenced 0%nat) out = 1%nat.
Proof.
  assert (∃ s out,
            run [GetAndIncref (Some "C") None; OnObjectStartupComplete "C" 0%nat;
                 Decref "C"] init = Ok (tt, s, out)
            ∧ heap s !! 0%nat
              = Some {| _id := Some "C"; ref_mgmt_state := STOPPING; ref_count := 0 |})
    as (s & out & Hrun & Ha)
    by (eexists _, _; split; vm_compute; reflexivity).
  exists s, out. split; [exact Hrun|].
  destruct (actor_messages_once _ s out 0%nat Hrun) as (Hm & Hs & Hu & _).
  rewrite Hm, Hs, Hu. unfold has_started, is_stopping. rewrite Ha.
  split_and!; vm_compute; reflexivity.
Defined.

(** The entry for ["C"] while its first actor cleans up. *)
Lemma dictionaries_hold_no_stale_entry_witness :
  reachable (state_after [GetAndIncref (Some "C") None;
                          OnObjectStartupComplete "C" 0%nat; Decref "C"])
  ∧ ({[0%nat]} : gset ActorRef) ≠ ∅.
Proof.
  split; [apply state_after_reachable|].
  apply (proj1 (dictionaries_hold_no_stale_entry _ (state_after_reachable
                  [GetAndIncref (Some "C") None;
                   OnObjectStartupComplete "C" 0%nat; Decref "C"]))
           "C" {[0%nat]}).
  vm_compute. reflexivity.
Defined.

(** The first actor of ["C"], cleaning up, reports with its identifier. *)
Lemma default_on_unreferenced_releases_witness :
  reachable (state_after [GetAndIncref (Some "C") None;
                          OnObjectStartupComplete "C" 0%nat; Decref "C"])
  ∧ Actor.on_unreferenced 0%nat
      (heap (state_after [GetAndIncref (Some "C") None;
                          OnObjectStartupComplete "C" 0%nat; Decref "C"]))
    = Ok (tt,
          heap (state_after [GetAndIncref (Some "C") None;
                             OnObjectStartupComplete "C" 0%nat; Decref "C"]),
          [OnObjectCleanupComplete "C" 0%nat]).
Proof.
  split; [apply state_after_reachable|].
  apply (default_on_unreferenced_releases _ "C" 0%nat (state_after_reachable _)).
  assert (draining (state_after [GetAndIncref (Some "C") None;
                                 OnObjectStartupComplete "C" 0%nat; Decref "C"]) "C"
          = {[0%nat]}) as -> by (vm_compute; reflexivity).
  by apply elem_of_singleton.
Defined.

(** Tearing down the only actor of ["B"]. *)
Lemma teardown_round_trip_witness :
  reachable (state_after [GetAndIncref (Some "B") None])
  ∧ ∃ s1, handle (Decref "B") (state_after [GetAndIncref (Some "B") None])
          = Ok (tt, s1, [OnUnreferenced 0%nat]).
Proof.
  split; [apply state_after_reachable|].
  destruct (teardown_round_trip (state_after [GetAndIncref (Some "B") None]) "B" 0%nat
              {| _id := Some "B"; ref_mgmt_state := STARTING; ref_count := 1 |}
              (state_after_reachable _))
    as (s1 & s2 & Hrun & _).
  - vm_compute. reflexivity.
  - vm_compute. reflexivity.
  - reflexivity.
  - discriminate.
  - by exists s1.
Defined.

(** The first actor of ["A"] reports that it is ready. *)
Lemma notify_ready_effect_witness :
  reachable (state_after [GetAndIncref (Some "A") None])
  ∧ ∃ object_id,
      Actor._notify_ready 0%nat (heap (state_after [GetAndIncref (Some "A") None]))
      = Ok (tt, heap (state_after [GetAndIncref (Some "A") None]),
            [OnObjectStartupComplete object_id 0%nat]).
Proof.
  split; [apply state_after_reachable|].
  destruct (notify_ready_effect (state_after [GetAndIncref (Some "A") None]) 0%nat
              {| _id := Some "A"; ref_mgmt_state := STARTING; ref_count := 1 |}
              (state_after_reachable _))
    as (object_id & s' & out & _ & Hrun & _).
  - vm_compute. reflexivity.
  - by exists object_id.
Defined.

(** The starting actor of ["A"] is the current one. *)
Lemma running_actor_is_current_witness :
  reachable (state_after [GetAndIncref (Some "A") None])
  ∧ ∃ object_id,
      objects_by_id (state_after [GetAndIncref (Some "A") None]) !! object_id
      = Some 0%nat.
Proof.
  split; [apply state_after_reachable|].
  destruct (running_actor_is_current (state_after [GetAndIncref (Some "A") None]) 0%nat
              {| _id := Some "A"; ref_mgmt_state := STARTING; ref_count := 1 |}
              (state_after_reachable _))
    as (object_id & _ & Hcur & _).
  - vm_compute. reflexivity.
  - left. reflexivity.
  - by exists object_id.
Defined.

(** The actor of ["A"] from [STARTING] on, through start-up and release. *)
Lemma lifecycle_only_advances_witness :
  reachable (state_after [GetAndIncref (Some "A") None])
  ∧ ∃ s' out a',
      run [OnObjectStartupComplete "A" 0%nat; Decref "A"]
        (state_after [GetAndIncref (Some "A") None]) = Ok (tt, s', out)
      ∧ heap s' !! 0%nat = Some a' ∧ _id a' = Some "A".
Proof.
  split; [apply state_after_reachable|].
  assert (∃ s' out,
            run [OnObjectStartupComplete "A" 0%nat; Decref "A"]
              (state_after [GetAndIncref (Some "A") None]) = Ok (tt, s', out))
    as (s' & out & Hrun) by (eexists _, _; vm_compute; reflexivity).
  destruct (lifecycle_only_advances _ _ s' out 0%nat
              {| _id := Some "A"; ref_mgmt_state := STARTING; ref_count := 1 |}
              (state_after_reachable [GetAndIncref (Some "A") None]) Hrun)
    as (a' & Ha' & Hid & _).
  - vm_compute. reflexivity.
  - by exists s', out, a'.
Defined.

End ManagerExamples.

Module HelperExamples.
Import Helper HelperFacts.
Local Open Scope string_scope.

(** The state after any events is one the helper can reach. *)
Lemma helper_state_after_reachable evs : reachable (state_after evs).
Proof.
  unfold state_after. destruct (run evs init) as [[[[] h] out]|] eqn:Hrun.
  - by eapply reachable_run.
  - apply reachable_init.
Qed.

(** C2 after the one required reference is acquired. *)
Lemma ready_iff_set_eq_witness :
  reachable (state_after [AcquireRef "a"; OnRefAcquired "a" 0%nat])
  ∧ (ready (state_after [AcquireRef "a"; OnRefAcquired "a" 0%nat]) = true
     ↔ required_refs (state_after [AcquireRef "a"; OnRefAcquired "a" 0%nat])
       = dom (acquired_refs (state_after [AcquireRef "a"; OnRefAcquired "a" 0%nat]))).
Proof.
  split; [apply helper_state_after_reachable|].
  apply ready_iff_set_eq, helper_state_after_reachable.
Defined.

(** C5 with requests for ["Y"] in between. *)
Lemma discard_before_callback_releases_once_witness :
  ("X" ∉ required_refs init)
  ∧ ∃ h out,
      run [AcquireRef "X"; AcquireRef "Y"; DiscardRef "X"; OnRefAcquired "Y" 1%nat;
           OnRefAcquired "X" 0%nat] init = Ok (tt, h, out)
      ∧ decrefs "X" out = 1%nat.
Proof.
  assert ("X" ∉ required_refs init) as Hreq by (simpl; set_solver).
  split; [exact Hreq|].
  destruct (discard_before_callback_releases_once init "X" 0%nat
              [AcquireRef "Y"] [OnRefAcquired "Y" 1%nat] Hreq)
    as (h1 & out1 & h2 & _ & _ & _ & _ & _ & _ & _ & _ & Hrun & Hone).
  - reflexivity.
  - exists h2, (out1 ++ [Decref "X" false])%list. split; [exact Hrun|exact Hone].
Defined.

(** C9 (as amended) when the one required reference arrives. *)
Lemma ready_callback_on_transition_witness :
  reachable (state_after [AcquireRef "a"])
  ∧ ∃ h' out,
      on_ref_acquired "a" 0%nat (state_after [AcquireRef "a"]) = Ok (tt, h', out)
      ∧ readies out = 1%nat.
Proof.
  split; [apply helper_state_after_reachable|].
  destruct (ready_callback_on_transition "a" 0%nat _
              (helper_state_after_reachable [AcquireRef "a"]))
    as (h' & out & Hrun & Hfires & _).
  exists h', out. split; [exact Hrun|]. apply Hfires.
  assert (Ok (tt, h', out)
          = on_ref_acquired "a" 0%nat (state_after [AcquireRef "a"])) as Heq
    by by rewrite Hrun.
  vm_compute in Heq. injection Heq as -> ->. split; vm_compute; reflexivity.
Defined.

(** C9, as first stated, fails: with ["a"] acquired and ["b"] awaited,
    [discard_ref] of ["b"] takes [ready] from false to true and the ready
    callback is not called. *)
Lemma discard_makes_ready_without_callback :
  ∃ h out0 h' out,
    run [AcquireRef "a"; AcquireRef "b"; OnRefAcquired "a" 0%nat] init
    = Ok (tt, h, out0)
    ∧ ready h = false
    ∧ handle (DiscardRef "b") h = Ok (tt, h', out)
    ∧ ready h' = true
    ∧ readies out = 0%nat.
Proof.
  eexists _, _, _, _. split_and!.
  - vm_compute. reflexivity.
  - vm_compute. reflexivity.
  - vm_compute. reflexivity.
  - vm_compute. reflexivity.
  - vm_compute. reflexivity.
Qed.

(** C10 after the one required reference is acquired. *)
Lemma acquired_keys_within_required_witness :
  dom (acquired_refs (state_after [AcquireRef "a"; OnRefAcquired "a" 0%nat]))
  ⊆ required_refs (state_after [AcquireRef "a"; OnRefAcquired "a" 0%nat]).
Proof.
  apply (proj1 acquired_keys_within_required), helper_state_after_reachable.
Defined.


(** The account for ["X"], required, discarded and then delivered. *)
Lemma helper_references_balance_witness :
  ∃ h out,
    run [AcquireRef "X"; DiscardRef "X"; OnRefAcquired "X" 0%nat] init = Ok (tt, h, out)
    ∧ increfs "X" out
      = (decrefs "X" out
         + if bool_decide ("X" ∈ required_refs h ∨ "X" ∈ pending_increfs h)
           then 1 else 0)%nat.
Proof.
  assert (∃ h out,
            run [AcquireRef "X"; DiscardRef "X"; OnRefAcquired "X" 0%nat] init
            = Ok (tt, h, out))
    as (h & out & Hrun) by (eexists _, _; vm_compute; reflexivity).
  exists h, out. split; [exact Hrun|].
  apply (helper_references_balance
           [AcquireRef "X"; DiscardRef "X"; OnRefAcquired "X" 0%nat] h out "X");
    [|exact Hrun].
  vm_compute. reflexivity.
Defined.

(** [discard_all] with one reference acquired. *)
Lemma discard_all_releases_all_witness :
  reachable (state_after [AcquireRef "a"; OnRefAcquired "a" 0%nat])
  ∧ ∃ h' out,
      discard_all (state_after [AcquireRef "a"; OnRefAcquired "a" 0%nat])
      = Ok (tt, h', out)
      ∧ required_refs h' = ∅ ∧ ready h' = true.
Proof.
  split; [apply helper_state_after_reachable|].
  destruct (discard_all_releases_all _ (helper_state_after_reachable
              [AcquireRef "a"; OnRefAcquired "a" 0%nat]))
    as (h' & Hrun & Hreq & _ & _ & Hready).
  by eexists h', _.
Defined.

(** One reference required and still awaited. *)
Lemma required_acquired_or_awaited_witness :
  reachable (state_after [AcquireRef "a"])
  ∧ (ready (state_after [AcquireRef "a"]) = true
     ↔ ∀ i, i ∈ required_refs (state_after [AcquireRef "a"]) →
            i ∉ pending_increfs (state_after [AcquireRef "a"])).
Proof.
  split; [apply helper_state_after_reachable|].
  apply required_acquired_or_awaited, helper_state_after_reachable.
Defined.

(** [iteritems] with one reference acquired. *)
Lemma iteritems_yields_delivered_witness :
  ∃ h out,
    run [AcquireRef "a"; OnRefAcquired "a" 0%nat] init = Ok (tt, h, out)
    ∧ NoDup (iteritems h).*1.
Proof.
  assert (∃ h out, run [AcquireRef "a"; OnRefAcquired "a" 0%nat] init = Ok (tt, h, out))
    as (h & out & Hrun) by (eexists _, _; vm_compute; reflexivity).
  exists h, out. split; [exact Hrun|].
  apply (iteritems_yields_delivered _ h out Hrun).
Defined.

(** The request that a first [acquire_ref] sends. *)
Lemma helper_messages_explained_witness :
  true = true ∧ AcquireRef "a" = AcquireRef "a"
  ∧ ("a" ∉ required_refs init) ∧ "a" ∉ pending_increfs init.
Proof.
  eapply (helper_messages_explained (AcquireRef "a") init _
            [GetAndIncref "a" true] (GetAndIncref "a" true)).
  - vm_compute. reflexivity.
  - by apply list_elem_of_singleton.
Defined.

End HelperExamples.
